(** * TS-Jquery: the style animation engine and the selection methods

    A shallow embedding of the [animate] method of [src/index.ts], of its
    helper [parseColor], of the OKLCH conversion pipeline of the earlier
    revision of the same file, of the selection, style, attribute and event
    methods of [src/index.ts] and of the method registry of
    [src/core/inject.ts], followed by the properties proved of them.

    Modelling conventions.
    - A JavaScript number is a real number, or one of NaN, +Infinity,
      -Infinity ([jsnum]); [jadd], [jmul] and the like stand for the
      operations of the language and compute on the reals.  Rounding to
      binary64 and overflow are not modelled: a statement names a value by
      the operations that compute it or by the text that denotes it; where
      it gives a computed value as a particular number, binary64
      arithmetic is exact on the numbers concerned, or the statement is an
      inequality that rounding does not disturb.  There is one zero, +0: a
      request whose duration is -0 is outside the model.
    - A JavaScript string is a [string]: its characters are the code units
      of the text, and texts with a code unit from 256 on are outside the
      model.  White space is what the language counts as such among these
      characters, U+00A0 included.
    - A plain object keeps what is assigned to it under a name, and answers
      by its own names.  The names for which the code's objects do
      otherwise ([__proto__], and the members inherited from
      [Object.prototype] where the code reads a name it never assigned)
      are excluded by the statements they concern.
    - The host (canvas, computed styles, clock, frame callbacks) is explicit
      data: an oracle record and fields of the world state.
    - The document is a tree of elements, each known by its [node]; what a
      selector matches is given with the document.  A DOM call that throws
      makes the method that calls it return [None].
    - A string built by a template literal, or by adding a number to a
      string, is kept as a [template]: literal pieces and numbers.  Rendering
      a number is the host's [Number::toString]; [render] applies it. *)

From Stdlib Require Import Reals Lra Lia ZArith String Ascii List Bool Sorted.
From stdpp Require Import gmap strings list fin_maps.

Open Scope string_scope.
Open Scope list_scope.

(** ** JavaScript numbers *)

Module JSNum.

Inductive jsnum : Type :=
  | JNaN
  | JNegInf
  | JPosInf
  | JNum (r : R).

Definition of_Z (z : Z) : jsnum := JNum (IZR z).

(** Sign of a value that is not NaN: [-1], [0] or [1]. *)
Definition Rsign (r : R) : Z :=
  if Rlt_dec r 0 then (-1)%Z else if Rlt_dec 0 r then 1%Z else 0%Z.

Definition jsign (x : jsnum) : Z :=
  match x with
  | JNaN => 0%Z
  | JNegInf => (-1)%Z
  | JPosInf => 1%Z
  | JNum r => Rsign r
  end.

(** The infinity of a given non-zero sign; NaN for sign [0]. *)
Definition inf_of_sign (s : Z) : jsnum :=
  match s with
  | Zpos _ => JPosInf
  | Zneg _ => JNegInf
  | Z0 => JNaN
  end.

Definition jisNaN (x : jsnum) : bool :=
  match x with JNaN => true | _ => false end.

Definition jneg (x : jsnum) : jsnum :=
  match x with
  | JNaN => JNaN
  | JNegInf => JPosInf
  | JPosInf => JNegInf
  | JNum r => JNum (- r)%R
  end.

(** [x + y] *)
Definition jadd (x y : jsnum) : jsnum :=
  match x, y with
  | JNaN, _ | _, JNaN => JNaN
  | JPosInf, JNegInf | JNegInf, JPosInf => JNaN
  | JPosInf, _ | _, JPosInf => JPosInf
  | JNegInf, _ | _, JNegInf => JNegInf
  | JNum a, JNum b => JNum (a + b)%R
  end.

(** [x - y] *)
Definition jsub (x y : jsnum) : jsnum := jadd x (jneg y).

(** [x * y] *)
Definition jmul (x y : jsnum) : jsnum :=
  match x, y with
  | JNaN, _ | _, JNaN => JNaN
  | JNum a, JNum b => JNum (a * b)%R
  | _, _ => inf_of_sign (jsign x * jsign y)
  end.

(** [x / y]; a zero is +0, so a number divided by zero is the infinity of
    its sign, and NaN if it is zero. *)
Definition jdiv (x y : jsnum) : jsnum :=
  match x, y with
  | JNaN, _ | _, JNaN => JNaN
  | JNum a, JNum b =>
      if Req_dec_T b 0 then inf_of_sign (Rsign a) else JNum (a / b)%R
  | JNum _, _ => JNum 0
  | _, JNum b => if Req_dec_T b 0 then x else inf_of_sign (jsign x * Rsign b)
  | _, _ => JNaN
  end.

(** [x < y] *)
Definition jlt (x y : jsnum) : bool :=
  match x, y with
  | JNaN, _ | _, JNaN => false
  | JNegInf, JNegInf => false
  | JNegInf, _ => true
  | _, JNegInf => false
  | JPosInf, _ => false
  | _, JPosInf => true
  | JNum a, JNum b => if Rlt_dec a b then true else false
  end.

(** [x > y] *)
Definition jgt (x y : jsnum) : bool := jlt y x.

(** [x === y] *)
Definition jeq (x y : jsnum) : bool :=
  match x, y with
  | JNegInf, JNegInf | JPosInf, JPosInf => true
  | JNum a, JNum b => if Req_dec_T a b then true else false
  | _, _ => false
  end.

(** [x <= y] *)
Definition jle (x y : jsnum) : bool := jlt x y || jeq x y.

(** [Math.min(x, y)] *)
Definition jmin (x y : jsnum) : jsnum :=
  match x, y with
  | JNaN, _ | _, JNaN => JNaN
  | _, _ => if jlt y x then y else x
  end.

(** [Math.round(x)]: the integer nearest to [x], ties towards +Infinity. *)
Definition jround (x : jsnum) : jsnum :=
  match x with
  | JNum r => JNum (IZR (Zfloor (r + / 2)))
  | _ => x
  end.

(** [Math.abs(x)] *)
Definition jabs (x : jsnum) : jsnum :=
  match x with
  | JNaN => JNaN
  | JNegInf | JPosInf => JPosInf
  | JNum r => JNum (Rabs r)
  end.

(** [Math.cos(x)], [Math.sin(x)] *)
Definition jcos (x : jsnum) : jsnum :=
  match x with JNum r => JNum (Rtrigo_def.cos r) | _ => JNaN end.

Definition jsin (x : jsnum) : jsnum :=
  match x with JNum r => JNum (Rtrigo_def.sin r) | _ => JNaN end.

Definition jPI : jsnum := JNum Rtrigo1.PI.

(** [x ** y] for a finite exponent that is a non-negative integer [n]. *)
Definition jpow_nat (x : jsnum) (n : nat) : jsnum :=
  match n, x with
  | O, _ => JNum 1
  | _, JNaN => JNaN
  | _, JPosInf => JPosInf
  | _, JNegInf => if Nat.even n then JPosInf else JNegInf
  | _, JNum r => JNum (r ^ n)%R
  end.

(** [x ** y] for a finite exponent [y]; the cases follow
    [Number::exponentiate]. *)
Definition jpow (x : jsnum) (y : R) : jsnum :=
  if Req_dec_T y 0 then JNum 1
  else if Req_dec_T (IZR (Zfloor y)) y then
    (if Rlt_dec 0 y then jpow_nat x (Z.to_nat (Zfloor y))
     else jdiv (JNum 1) (jpow_nat x (Z.to_nat (- Zfloor y))))
  else
    match x with
    | JNaN => JNaN
    | JPosInf => if Rlt_dec 0 y then JPosInf else JNum 0
    | JNegInf => if Rlt_dec 0 y then JPosInf else JNum 0
    | JNum r =>
        if Rlt_dec r 0 then JNaN
        else if Req_dec_T r 0 then (if Rlt_dec 0 y then JNum 0 else JPosInf)
        else JNum (Rpower r y)
    end.

End JSNum.

Export JSNum.

(** ** JavaScript strings, regular expressions, [parseInt], [parseFloat] *)

Module JSString.

Definition chars : Type := list ascii.

Definition code (c : ascii) : N := N_of_ascii c.

Definition in_range (lo hi : N) (c : ascii) : bool :=
  ((lo <=? code c) && (code c <=? hi))%N.

(** [\d] *)
Definition is_digit (c : ascii) : bool := in_range 48 57 c.

(** [[a-z]], [[A-Z]] *)
Definition is_lower (c : ascii) : bool := in_range 97 122 c.
Definition is_upper (c : ascii) : bool := in_range 65 90 c.

(** [\s], and the white space of [trim], [parseInt] and [parseFloat]: tab,
    line feed, vertical tab, form feed, carriage return, space and the
    no-break space U+00A0, which are the white space and line terminators
    of the language among the code units below 256. *)
Definition is_space (c : ascii) : bool :=
  in_range 9 13 c || (code c =? 32)%N || (code c =? 160)%N.

(** [[a-fA-F0-9]] *)
Definition is_hex (c : ascii) : bool :=
  in_range 97 102 c || in_range 65 70 c || is_digit c.

(** [[\d.]] *)
Definition is_digit_or_dot (c : ascii) : bool :=
  is_digit c || (code c =? 46)%N.

(** [[a-z%]] and, with the [i] flag, [[a-zA-Z%]] *)
Definition is_lower_pct (c : ascii) : bool :=
  is_lower c || (code c =? 37)%N.
Definition is_alpha_pct (c : ascii) : bool :=
  is_lower c || is_upper c || (code c =? 37)%N.

(** Greedy [X*]: the longest prefix in the class, and the rest. *)
Fixpoint span (p : ascii -> bool) (s : chars) : chars * chars :=
  match s with
  | [] => ([], [])
  | c :: s' =>
      if p c then let '(a, b) := span p s' in (c :: a, b) else ([], s)
  end.

(** Greedy [X+]. *)
Definition many1 (p : ascii -> bool) (s : chars) : option (chars * chars) :=
  match span p s with
  | ([], _) => None
  | r => Some r
  end.

(** A literal at the head of the input. *)
Fixpoint lit (p s : chars) : option chars :=
  match p, s with
  | [], _ => Some s
  | a :: p', b :: s' => if Ascii.eqb a b then lit p' s' else None
  | _ :: _, [] => None
  end.

Definition lits (p : string) (s : chars) : option chars :=
  lit (list_ascii_of_string p) s.

(** [$] *)
Definition at_end (s : chars) : bool :=
  match s with [] => true | _ => false end.

Definition skip (p : ascii -> bool) (s : chars) : chars := snd (span p s).

(** [String.prototype.trim] *)
Definition trim (s : string) : string :=
  string_of_list_ascii
    (rev (skip is_space (rev (skip is_space (list_ascii_of_string s))))).

Definition lower_char (c : ascii) : ascii :=
  if is_upper c then ascii_of_N (code c + 32) else c.

(** [String.prototype.toLowerCase] on a text whose upper-case letters are
    among [A] to [Z], as the keys of the colour table are; also the lower
    case in which the DOM compares the name of an attribute. *)
Definition toLowerCase (s : string) : string :=
  string_of_list_ascii (map lower_char (list_ascii_of_string s)).

(** [s.substring(i, j)] for [i <= j] *)
Definition substring (i j : nat) (s : chars) : chars :=
  firstn (j - i) (skipn i s).

(** Value of a digit in bases up to 36. *)
Definition digit_val (c : ascii) : option Z :=
  if is_digit c then Some (Z.of_N (code c) - 48)%Z
  else if is_lower c then Some (Z.of_N (code c) - 87)%Z
  else if is_upper c then Some (Z.of_N (code c) - 55)%Z
  else None.

Definition is_radix_digit (radix : Z) (c : ascii) : bool :=
  match digit_val c with
  | Some d => (d <? radix)%Z
  | None => false
  end.

Definition digits_val (radix : Z) (ds : chars) : Z :=
  fold_left (fun acc c => (acc * radix + default 0 (digit_val c))%Z) ds 0%Z.

(** An optional sign: [true] for [-]. *)
Definition take_sign (s : chars) : bool * chars :=
  match s with
  | c :: s' =>
      if Ascii.eqb c "-" then (true, s')
      else if Ascii.eqb c "+" then (false, s') else (false, s)
  | [] => (false, [])
  end.

Definition strip_0x (s : chars) : option chars :=
  match s with
  | a :: b :: s' =>
      if Ascii.eqb a "0" && (Ascii.eqb b "x" || Ascii.eqb b "X")
      then Some s' else None
  | _ => None
  end.

(** The integer [parseInt(s, radix)] reads; [None] is NaN.  [radix = None]
    is an omitted radix. *)
Definition parseInt_Z (s : string) (radix : option Z) : option Z :=
  let '(negative, s1) := take_sign (skip is_space (list_ascii_of_string s)) in
  let r0 := default 0%Z radix in
  if negb (r0 =? 0)%Z && ((r0 <? 2) || (36 <? r0))%Z then None
  else
    let strip := (r0 =? 0)%Z || (r0 =? 16)%Z in
    let '(r, s2) :=
      match (if strip then strip_0x s1 else None) with
      | Some s2 => (16%Z, s2)
      | None => ((if (r0 =? 0)%Z then 10 else r0)%Z, s1)
      end in
    match fst (span (is_radix_digit r) s2) with
    | [] => None
    | ds => Some (if negative then - digits_val r ds else digits_val r ds)%Z
    end.

(** [parseInt(s, radix)]: the integer read, which is the number the code
    gets up to 2^53; beyond, the code gets the nearest binary64 number. *)
Definition parseInt (s : string) (radix : option Z) : jsnum :=
  match parseInt_Z s radix with
  | Some z => of_Z z
  | None => JNaN
  end.

(** A decimal literal as [parseFloat] reads it: an infinity, or the
    number [m * 10^e]. *)
Inductive decimal : Type :=
  | DInf (negative : bool)
  | DNum (m e : Z).

(** An optional exponent part [[eE][+-]?\d+]. *)
Definition take_exponent (s : chars) : Z :=
  match s with
  | c :: s1 =>
      if Ascii.eqb c "e" || Ascii.eqb c "E" then
        let '(negative, s2) := take_sign s1 in
        match fst (span is_digit s2) with
        | [] => 0%Z
        | ds => (if negative then - digits_val 10 ds else digits_val 10 ds)%Z
        end
      else 0%Z
  | [] => 0%Z
  end.

(** The longest prefix of the trimmed input that is a [StrDecimalLiteral]. *)
Definition parseFloat_dec (s : string) : option decimal :=
  let '(negative, s1) := take_sign (skip is_space (list_ascii_of_string s)) in
  match lits "Infinity" s1 with
  | Some _ => Some (DInf negative)
  | None =>
      let '(ip, s2) := span is_digit s1 in
      let '(fp, s3) :=
        match s2 with
        | c :: s2' => if Ascii.eqb c "." then span is_digit s2' else ([], s2)
        | [] => ([], s2)
        end in
      match ip, fp with
      | [], [] => None
      | _, _ =>
          let m := digits_val 10 (ip ++ fp) in
          let e := (take_exponent s3 - Z.of_nat (length fp))%Z in
          Some (DNum (if negative then - m else m) e)
      end
  end.

Definition decimal_value (d : decimal) : jsnum :=
  match d with
  | DInf negative => if negative then JNegInf else JPosInf
  | DNum m e =>
      if (e <? 0)%Z then JNum (IZR m / IZR (10 ^ (- e)))
      else JNum (IZR (m * 10 ^ e))
  end.

(** [parseFloat(s)]: the number the literal denotes; the code gets the
    binary64 number nearest to it. *)
Definition parseFloat (s : string) : jsnum :=
  match parseFloat_dec s with
  | Some d => decimal_value d
  | None => JNaN
  end.

End JSString.

Export JSString.


(** ** The colour resolver of [src/index.ts] *)

Module Color.

(** The off-screen canvas [parseColor] consults.  A fresh canvas is created
    on every call, so what it answers depends on the colour string alone. *)
Record Canvas : Type := {
  (** [getContext('2d')] returned a context *)
  getContext2d : bool;
  (** [ctx.fillStyle] read back after [ctx.fillStyle = color] *)
  fillStyle : string -> string;
  (** [getImageData(0, 0, 1, 1).data[3]] after [fillRect(0, 0, 1, 1)] *)
  pixelAlpha : string -> Z
}.

Definition str (s : chars) : string := string_of_list_ascii s.

(** [/^rgb\((\d+),\s*(\d+),\s*(\d+)\)$/]: the three captures.  Every class
    is disjoint from the character that follows it in the pattern, so the
    greedy scan finds the match whenever there is one. *)
Definition match_rgb (s : string) : option (string * string * string) :=
  s0 ← lits "rgb(" (list_ascii_of_string s);
  '(r, s1) ← many1 is_digit s0;
  s2 ← lits "," s1;
  '(g, s3) ← many1 is_digit (skip is_space s2);
  s4 ← lits "," s3;
  '(b, s5) ← many1 is_digit (skip is_space s4);
  s6 ← lits ")" s5;
  if at_end s6 then Some (str r, str g, str b) else None.

(** [/^rgba\((\d+),\s*(\d+),\s*(\d+),\s*([\d.]+)\)$/]: the four captures. *)
Definition match_rgba (s : string)
  : option (string * string * string * string) :=
  s0 ← lits "rgba(" (list_ascii_of_string s);
  '(r, s1) ← many1 is_digit s0;
  s2 ← lits "," s1;
  '(g, s3) ← many1 is_digit (skip is_space s2);
  s4 ← lits "," s3;
  '(b, s5) ← many1 is_digit (skip is_space s4);
  s6 ← lits "," s5;
  '(a, s7) ← many1 is_digit_or_dot (skip is_space s6);
  s8 ← lits ")" s7;
  if at_end s8 then Some (str r, str g, str b, str a) else None.

(** [[a-fA-F0-9]{3}] *)
Definition hex3 (s : chars) : option chars :=
  match s with
  | a :: b :: c :: s' =>
      if is_hex a && is_hex b && is_hex c then Some s' else None
  | _ => None
  end.

(** [/^#([a-fA-F0-9]{3}){1,2}$/]: the whole match [hexMatch[0]]. *)
Definition match_hex (s : string) : option chars :=
  let cs := list_ascii_of_string s in
  s0 ← lits "#" cs;
  s1 ← hex3 s0;
  if at_end s1 then Some cs
  else s2 ← hex3 s1; if at_end s2 then Some cs else None.

Definition rgba_of_Z (r g b a : Z) : list jsnum :=
  [of_Z r; of_Z g; of_Z b; of_Z a].

(** The table [colorNames]. *)
Definition colorNames : list (string * list jsnum) := [
    ("aliceblue", rgba_of_Z 240 248 255 1);
    ("antiquewhite", rgba_of_Z 250 235 215 1);
    ("aqua", rgba_of_Z 0 255 255 1);
    ("aquamarine", rgba_of_Z 127 255 212 1);
    ("azure", rgba_of_Z 240 255 255 1);
    ("beige", rgba_of_Z 245 245 220 1);
    ("bisque", rgba_of_Z 255 228 196 1);
    ("black", rgba_of_Z 0 0 0 1);
    ("blanchedalmond", rgba_of_Z 255 235 205 1);
    ("blue", rgba_of_Z 0 0 255 1);
    ("blueviolet", rgba_of_Z 138 43 226 1);
    ("brown", rgba_of_Z 165 42 42 1);
    ("burlywood", rgba_of_Z 222 184 135 1);
    ("cadetblue", rgba_of_Z 95 158 160 1);
    ("chartreuse", rgba_of_Z 127 255 0 1);
    ("chocolate", rgba_of_Z 210 105 30 1);
    ("coral", rgba_of_Z 255 127 80 1);
    ("cornflowerblue", rgba_of_Z 100 149 237 1);
    ("cornsilk", rgba_of_Z 255 248 220 1);
    ("crimson", rgba_of_Z 220 20 60 1);
    ("cyan", rgba_of_Z 0 255 255 1);
    ("darkblue", rgba_of_Z 0 0 139 1);
    ("darkcyan", rgba_of_Z 0 139 139 1);
    ("darkgoldenrod", rgba_of_Z 184 134 11 1);
    ("darkgray", rgba_of_Z 169 169 169 1);
    ("darkgreen", rgba_of_Z 0 100 0 1);
    ("darkgrey", rgba_of_Z 169 169 169 1);
    ("darkkhaki", rgba_of_Z 189 183 107 1);
    ("darkmagenta", rgba_of_Z 139 0 139 1);
    ("darkolivegreen", rgba_of_Z 85 107 47 1);
    ("darkorange", rgba_of_Z 255 140 0 1);
    ("darkorchid", rgba_of_Z 153 50 204 1);
    ("darkred", rgba_of_Z 139 0 0 1);
    ("darksalmon", rgba_of_Z 233 150 122 1);
    ("darkseagreen", rgba_of_Z 143 188 143 1);
    ("darkslateblue", rgba_of_Z 72 61 139 1);
    ("darkslategray", rgba_of_Z 47 79 79 1);
    ("darkslategrey", rgba_of_Z 47 79 79 1);
    ("darkturquoise", rgba_of_Z 0 206 209 1);
    ("darkviolet", rgba_of_Z 148 0 211 1);
    ("deeppink", rgba_of_Z 255 20 147 1);
    ("deepskyblue", rgba_of_Z 0 191 255 1);
    ("dimgray", rgba_of_Z 105 105 105 1);
    ("dimgrey", rgba_of_Z 105 105 105 1);
    ("dodgerblue", rgba_of_Z 30 144 255 1);
    ("firebrick", rgba_of_Z 178 34 34 1);
    ("floralwhite", rgba_of_Z 255 250 240 1);
    ("forestgreen", rgba_of_Z 34 139 34 1);
    ("fuchsia", rgba_of_Z 255 0 255 1);
    ("gainsboro", rgba_of_Z 220 220 220 1);
    ("ghostwhite", rgba_of_Z 248 248 255 1);
    ("gold", rgba_of_Z 255 215 0 1);
    ("goldenrod", rgba_of_Z 218 165 32 1);
    ("gray", rgba_of_Z 128 128 128 1);
    ("green", rgba_of_Z 0 128 0 1);
    ("greenyellow", rgba_of_Z 173 255 47 1);
    ("grey", rgba_of_Z 128 128 128 1);
    ("honeydew", rgba_of_Z 240 255 240 1);
    ("hotpink", rgba_of_Z 255 105 180 1);
    ("indianred", rgba_of_Z 205 92 92 1);
    ("indigo", rgba_of_Z 75 0 130 1);
    ("ivory", rgba_of_Z 255 255 240 1);
    ("khaki", rgba_of_Z 240 230 140 1);
    ("lavender", rgba_of_Z 230 230 250 1);
    ("lavenderblush", rgba_of_Z 255 240 245 1);
    ("lawngreen", rgba_of_Z 124 252 0 1);
    ("lemonchiffon", rgba_of_Z 255 250 205 1);
    ("lightblue", rgba_of_Z 173 216 230 1);
    ("lightcoral", rgba_of_Z 240 128 128 1);
    ("lightcyan", rgba_of_Z 224 255 255 1);
    ("lightgoldenrodyellow", rgba_of_Z 250 250 210 1);
    ("lightgray", rgba_of_Z 211 211 211 1);
    ("lightgreen", rgba_of_Z 144 238 144 1);
    ("lightgrey", rgba_of_Z 211 211 211 1);
    ("lightpink", rgba_of_Z 255 182 193 1);
    ("lightsalmon", rgba_of_Z 255 160 122 1);
    ("lightseagreen", rgba_of_Z 32 178 170 1);
    ("lightskyblue", rgba_of_Z 135 206 250 1);
    ("lightslategray", rgba_of_Z 119 136 153 1);
    ("lightslategrey", rgba_of_Z 119 136 153 1);
    ("lightsteelblue", rgba_of_Z 176 196 222 1);
    ("lightyellow", rgba_of_Z 255 255 224 1);
    ("lime", rgba_of_Z 0 255 0 1);
    ("limegreen", rgba_of_Z 50 205 50 1);
    ("linen", rgba_of_Z 250 240 230 1);
    ("magenta", rgba_of_Z 255 0 255 1);
    ("maroon", rgba_of_Z 128 0 0 1);
    ("mediumaquamarine", rgba_of_Z 102 205 170 1);
    ("mediumblue", rgba_of_Z 0 0 205 1);
    ("mediumorchid", rgba_of_Z 186 85 211 1);
    ("mediumpurple", rgba_of_Z 147 112 219 1);
    ("mediumseagreen", rgba_of_Z 60 179 113 1);
    ("mediumslateblue", rgba_of_Z 123 104 238 1);
    ("mediumspringgreen", rgba_of_Z 0 250 154 1);
    ("mediumturquoise", rgba_of_Z 72 209 204 1);
    ("mediumvioletred", rgba_of_Z 199 21 133 1);
    ("midnightblue", rgba_of_Z 25 25 112 1);
    ("mintcream", rgba_of_Z 245 255 250 1);
    ("mistyrose", rgba_of_Z 255 228 225 1);
    ("moccasin", rgba_of_Z 255 228 181 1);
    ("navajowhite", rgba_of_Z 255 222 173 1);
    ("navy", rgba_of_Z 0 0 128 1);
    ("oldlace", rgba_of_Z 253 245 230 1);
    ("olive", rgba_of_Z 128 128 0 1);
    ("olivedrab", rgba_of_Z 107 142 35 1);
    ("orange", rgba_of_Z 255 165 0 1);
    ("orangered", rgba_of_Z 255 69 0 1);
    ("orchid", rgba_of_Z 218 112 214 1);
    ("palegoldenrod", rgba_of_Z 238 232 170 1);
    ("palegreen", rgba_of_Z 152 251 152 1);
    ("paleturquoise", rgba_of_Z 175 238 238 1);
    ("palevioletred", rgba_of_Z 219 112 147 1);
    ("papayawhip", rgba_of_Z 255 239 213 1);
    ("peachpuff", rgba_of_Z 255 218 185 1);
    ("peru", rgba_of_Z 205 133 63 1);
    ("pink", rgba_of_Z 255 192 203 1);
    ("plum", rgba_of_Z 221 160 221 1);
    ("powderblue", rgba_of_Z 176 224 230 1);
    ("purple", rgba_of_Z 128 0 128 1);
    ("rebeccapurple", rgba_of_Z 102 51 153 1);
    ("red", rgba_of_Z 255 0 0 1);
    ("rosybrown", rgba_of_Z 188 143 143 1);
    ("royalblue", rgba_of_Z 65 105 225 1);
    ("saddlebrown", rgba_of_Z 139 69 19 1);
    ("salmon", rgba_of_Z 250 128 114 1);
    ("sandybrown", rgba_of_Z 244 164 96 1);
    ("seagreen", rgba_of_Z 46 139 87 1);
    ("seashell", rgba_of_Z 255 245 238 1);
    ("sienna", rgba_of_Z 160 82 45 1);
    ("silver", rgba_of_Z 192 192 192 1);
    ("skyblue", rgba_of_Z 135 206 235 1);
    ("slateblue", rgba_of_Z 106 90 205 1);
    ("slategray", rgba_of_Z 112 128 144 1);
    ("slategrey", rgba_of_Z 112 128 144 1);
    ("snow", rgba_of_Z 255 250 250 1);
    ("springgreen", rgba_of_Z 0 255 127 1);
    ("steelblue", rgba_of_Z 70 130 180 1);
    ("tan", rgba_of_Z 210 180 140 1);
    ("teal", rgba_of_Z 0 128 128 1);
    ("thistle", rgba_of_Z 216 191 216 1);
    ("tomato", rgba_of_Z 255 99 71 1);
    ("turquoise", rgba_of_Z 64 224 208 1);
    ("violet", rgba_of_Z 238 130 238 1);
    ("wheat", rgba_of_Z 245 222 179 1);
    ("white", rgba_of_Z 255 255 255 1);
    ("whitesmoke", rgba_of_Z 245 245 245 1);
    ("yellow", rgba_of_Z 255 255 0 1);
    ("yellowgreen", rgba_of_Z 154 205 50 1)
  ].

Fixpoint assoc {A : Type} (k : string) (l : list (string * A)) : option A :=
  match l with
  | [] => None
  | (k', v) :: l' => if String.eqb k k' then Some v else assoc k l'
  end.

(** [hex.split('').map(c => c + c).join('')] *)
Definition double_chars (hex : chars) : chars :=
  flat_map (fun c => [c; c]) hex.

(** The names of the members an object literal inherits from
    [Object.prototype].  The table has none of them as a key, yet for them
    [colorNames[name]] is not [undefined]. *)
Definition inherited_names : list string := [
    "constructor"; "__proto__"; "hasOwnProperty"; "isPrototypeOf";
    "propertyIsEnumerable"; "toLocaleString"; "toString"; "valueOf";
    "__defineGetter__"; "__defineSetter__"; "__lookupGetter__";
    "__lookupSetter__"
  ].

Definition inherited (name : string) : bool :=
  existsb (String.eqb name) inherited_names.

(** [parseColor(color)].  The table is read by its own keys, which is what
    [colorNames[computed]] does for every text that is not one of the
    [inherited_names]; the statements about a canvas that can read back
    any text exclude those. *)
Definition parseColor (cv : Canvas) (color : string) : option (list jsnum) :=
  if negb (getContext2d cv) then None
  else
    let computed := fillStyle cv color in
    let pixel3 := pixelAlpha cv color in
    if (pixel3 =? 0)%Z then Some [JNum 0; JNum 0; JNum 0; JNum 0]
    else
      match match_rgb computed with
      | Some (m1, m2, m3) =>
          let r := parseInt m1 None in
          let g := parseInt m2 None in
          let b := parseInt m3 None in
          let a := parseInt "1" None in
          Some [r; g; b; a]
      | None =>
      match match_rgba computed with
      | Some (m1, m2, m3, m4) =>
          let r := parseInt m1 None in
          let g := parseInt m2 None in
          let b := parseInt m3 None in
          let a := parseInt m4 None in
          Some [r; g; b; a]
      | None =>
      match match_hex computed with
      | Some m0 =>
          let hex := skipn 1 m0 in
          let hex :=
            if (length hex =? 3)%nat then double_chars hex
            else if (length hex =? 4)%nat then double_chars hex
            else hex in
          let r := parseInt (str (substring 0 2 hex)) (Some 16%Z) in
          let g := parseInt (str (substring 2 4 hex)) (Some 16%Z) in
          let b := parseInt (str (substring 4 6 hex)) (Some 16%Z) in
          let a :=
            if (length hex =? 8)%nat
            then jdiv (parseInt (str (substring 6 8 hex)) (Some 16%Z)) (JNum 255)
            else JNum 1 in
          Some [r; g; b; a]
      | None =>
          match assoc computed colorNames with
          | Some _ => assoc (toLowerCase computed) colorNames
          | None => None
          end
      end end end.

End Color.

(** ** The colour resolver of the earlier revision, with OKLCH *)

Module Legacy.

Import Color.

(** [A[i]]; a missing element is [undefined], NaN in arithmetic. *)
Definition at_ (A : list jsnum) (i : nat) : jsnum := nth i A JNaN.

Definition multiplyMatrices (A B : list jsnum) : list jsnum :=
  [ jadd (jadd (jmul (at_ A 0) (at_ B 0)) (jmul (at_ A 1) (at_ B 1)))
         (jmul (at_ A 2) (at_ B 2));
    jadd (jadd (jmul (at_ A 3) (at_ B 0)) (jmul (at_ A 4) (at_ B 1)))
         (jmul (at_ A 5) (at_ B 2));
    jadd (jadd (jmul (at_ A 6) (at_ B 0)) (jmul (at_ A 7) (at_ B 1)))
         (jmul (at_ A 8) (at_ B 2)) ].

(** [h * Math.PI / 180] *)
Definition radians (h : jsnum) : jsnum := jdiv (jmul h jPI) (JNum 180).

Definition oklch2oklab (lch : list jsnum) : list jsnum :=
  let l := at_ lch 0 in
  let c := at_ lch 1 in
  let h := at_ lch 2 in
  [ l;
    if jisNaN h then JNum 0 else jmul c (jcos (radians h));
    if jisNaN h then JNum 0 else jmul c (jsin (radians h)) ].

Definition sgn (c : jsnum) : jsnum :=
  if jlt c (JNum 0) then JNum (-1) else JNum 1.

Definition rgb2srgbLinear (rgb : list jsnum) : list jsnum :=
  map (fun c =>
         if jle (jabs c) (JNum 0.04045) then jdiv c (JNum 12.92)
         else jmul (sgn c)
                (jpow (jdiv (jadd (jabs c) (JNum 0.055)) (JNum 1.055)) 2.4))
      rgb.

Definition srgbLinear2rgb (rgb : list jsnum) : list jsnum :=
  map (fun c =>
         if jgt (jabs c) (JNum 0.0031308)
         then jmul (sgn c)
                (jsub (jmul (JNum 1.055) (jpow (jabs c) (1 / 2.4)))
                      (JNum 0.055))
         else jmul (JNum 12.92) c)
      rgb.

Definition M_oklab_lms : list jsnum := map JNum [
  1; 0.3963377773761749; 0.2158037573099136;
  1; -0.1055613458156586; -0.0638541728258133;
  1; -0.0894841775298119; -1.2914855480194092 ]%R.

Definition M_lms_xyz : list jsnum := map JNum [
  1.2268798758459243; -0.5578149944602171; 0.2813910456659647;
  -0.0405757452148008; 1.1122868032803170; -0.0717110580655164;
  -0.0763729366746601; -0.4214933324022432; 1.5869240198367816 ]%R.

Definition M_xyz_rgb : list jsnum := map JNum [
  3.2409699419045226; -1.537383177570094; -0.4986107602930034;
  -0.9692436362808796; 1.8759675015077202; 0.04155505740717559;
  0.05563007969699366; -0.20397695888897652; 1.0569715142428786 ]%R.

Definition oklab2xyz (lab : list jsnum) : list jsnum :=
  let LMSg := multiplyMatrices M_oklab_lms lab in
  let LMS := map (fun val => jpow val 3) LMSg in
  multiplyMatrices M_lms_xyz LMS.

Definition xyz2rgbLinear (xyz : list jsnum) : list jsnum :=
  multiplyMatrices M_xyz_rgb xyz.

Definition oklch2rgb (lch : list jsnum) : list jsnum :=
  let oklab := oklch2oklab lch in
  let xyz := oklab2xyz oklab in
  let rgbLinear := xyz2rgbLinear xyz in
  srgbLinear2rgb rgbLinear.

(** [\d+\.\d+]: the text matched, and the rest. *)
Definition decimal_token (s : chars) : option (chars * chars) :=
  '(a, s1) ← many1 is_digit s;
  s2 ← lits "." s1;
  '(b, s3) ← many1 is_digit s2;
  Some ((a ++ "."%char :: b), s3).

(** [/^oklch\((\d+\.\d+)\s+(\d+\.\d+)\s+(\d+\.\d+)\)$/]: the three
    captures. *)
Definition match_oklch (s : string) : option (string * string * string) :=
  s0 ← lits "oklch(" (list_ascii_of_string s);
  '(l, s1) ← decimal_token s0;
  '(_, s2) ← many1 is_space s1;
  '(c, s3) ← decimal_token s2;
  '(_, s4) ← many1 is_space s3;
  '(h, s5) ← decimal_token s4;
  s6 ← lits ")" s5;
  if at_end s6 then Some (str l, str c, str h) else None.

Definition colorNames : list (string * list jsnum) := [
    ("red", [JNum 255; JNum 0; JNum 0]);
    ("green", [JNum 0; JNum 255; JNum 0]);
    ("blue", [JNum 0; JNum 0; JNum 255])
  ].

(** [parseColor(color)] of the earlier revision.  The table is read by its
    own keys, as in [Color.parseColor]. *)
Definition parseColor (cv : Canvas) (color : string) : option (list jsnum) :=
  if negb (getContext2d cv) then None
  else
    let computed := fillStyle cv color in
    match match_rgb computed with
    | Some (m1, m2, m3) =>
        Some [parseInt m1 None; parseInt m2 None; parseInt m3 None]
    | None =>
    match match_rgba computed with
    | Some (m1, m2, m3, _) =>
        Some [parseInt m1 None; parseInt m2 None; parseInt m3 None]
    | None =>
    match match_hex computed with
    | Some m0 =>
        let hex := skipn 1 m0 in
        let hex := if (length hex =? 3)%nat then double_chars hex else hex in
        Some [parseInt (str (substring 0 2 hex)) (Some 16%Z);
              parseInt (str (substring 2 4 hex)) (Some 16%Z);
              parseInt (str (substring 4 6 hex)) (Some 16%Z)]
    | None =>
    match match_oklch computed with
    | Some (m1, m2, m3) =>
        let L := parseFloat m1 in
        let C := parseFloat m2 in
        let H := parseFloat m3 in
        let rgb := oklch2rgb [L; C; H] in
        Some [at_ rgb 0; at_ rgb 1; at_ rgb 2]
    | None => assoc computed colorNames
    end end end end.






End Legacy.

(** ** The animation queue and frame loop of [animate] *)

Module Anim.

Import Color.

(** An element of the document. *)
Definition node : Type := nat.

(** What [startStyles] and [endStyles] hold. *)
Inductive jsval : Type :=
  | VNull
  | VNum (n : jsnum)
  | VStr (s : string)
  | VArr (a : list jsnum).

(** A string with numbers still to be rendered by [Number::toString]. *)
Inductive piece : Type :=
  | Lit (s : string)
  | Num (n : jsnum).

Definition template : Type := list piece.

Definition render (toString : jsnum -> string) (t : template) : string :=
  fold_right
    (fun p acc =>
       match p with
       | Lit s => (s ++ acc)%string
       | Num n => (toString n ++ acc)%string
       end)
    "" t.

(** A [Record<string, A>]: keys in insertion order, each key once. *)
Definition obj (A : Type) : Type := list (string * A).

Definition obj_get {A : Type} (k : string) (o : obj A) : option A := assoc k o.

Fixpoint obj_set {A : Type} (k : string) (v : A) (o : obj A) : obj A :=
  match o with
  | [] => [(k, v)]
  | (k', v') :: o' =>
      if String.eqb k k' then (k, v) :: o' else (k', v') :: obj_set k v o'
  end.

(** The keys a [for ... in] loop visits. *)
Definition keys {A : Type} (o : list (string * A)) : list string :=
  remove_dups (map fst o).

(** A completion callback: a tag that identifies it in the log, and the
    [animate] calls it makes when invoked. *)
Inductive Callback : Type :=
  | Cb (cb_tag : nat) (cb_calls : list Call)
with Call : Type :=
  | MkCall (c_targets : list node)
           (c_properties : list (string * string))
           (c_duration : option jsnum)
           (c_easing : option (jsnum -> jsnum))
           (c_callback : option Callback).

Definition cb_tag (c : Callback) : nat := match c with Cb t _ => t end.
Definition cb_calls (c : Callback) : list Call := match c with Cb _ l => l end.

(** A queue entry: the closure pushed by [animate], with the variables it
    captures.  [e_id] is the identity of the closure. *)
Record Entry : Type := {
  e_id : nat;
  e_el : node;
  e_properties : list (string * string);
  e_duration : jsnum;
  e_easing : jsnum -> jsnum;
  e_callback : option Callback
}.

(** The closure [step] of a started entry, with the variables it captures. *)
Record Task : Type := {
  t_entry : Entry;
  t_startTime : jsnum;
  t_startStyles : obj jsval;
  t_endStyles : obj jsval;
  t_units : obj string
}.

Inductive Event : Type :=
  | EvEnqueue (el : node) (id : nat) (cb : option nat)
  | EvStart (id : nat)
  | EvStep (id : nat)
  | EvCallback (id : nat) (tag : nat)
  | EvDone (id : nat).

Record World : Type := {
  (** the value last assigned to [el.style[prop]] *)
  styles : gmap (node * string) template;
  (** [el[queueKey]]; no binding when the property is absent *)
  queues : gmap node (list Entry);
  (** callbacks registered with [requestAnimationFrame] for the next frame *)
  raf : list Task;
  (** callbacks of the frame in progress that have not run yet *)
  batch : list Task;
  (** time stamp handed to the callbacks of the frame in progress *)
  frameTime : jsnum;
  (** [performance.now()] *)
  clock : jsnum;
  (** next closure identity *)
  next_id : nat;
  (** what happened so far, oldest first *)
  log : list Event
}.

(** The host: the canvas of [parseColor], and [getComputedStyle(el)[prop]]
    as a function of the inline styles. *)
Record Host : Type := {
  canvas : Canvas;
  getComputedStyle : gmap (node * string) template -> node -> string -> string
}.

Definition set_styles (w : World) (s : gmap (node * string) template) : World :=
  {| styles := s; queues := queues w; raf := raf w; batch := batch w;
     frameTime := frameTime w; clock := clock w; next_id := next_id w;
     log := log w |}.

Definition set_queues (w : World) (q : gmap node (list Entry)) : World :=
  {| styles := styles w; queues := q; raf := raf w; batch := batch w;
     frameTime := frameTime w; clock := clock w; next_id := next_id w;
     log := log w |}.

Definition set_raf (w : World) (r : list Task) : World :=
  {| styles := styles w; queues := queues w; raf := r; batch := batch w;
     frameTime := frameTime w; clock := clock w; next_id := next_id w;
     log := log w |}.

Definition set_batch (w : World) (b : list Task) (now : jsnum) : World :=
  {| styles := styles w; queues := queues w; raf := raf w; batch := b;
     frameTime := now; clock := clock w; next_id := next_id w;
     log := log w |}.

Definition set_clock (w : World) (c : jsnum) : World :=
  {| styles := styles w; queues := queues w; raf := raf w; batch := batch w;
     frameTime := frameTime w; clock := c; next_id := next_id w;
     log := log w |}.

Definition set_next_id (w : World) (n : nat) : World :=
  {| styles := styles w; queues := queues w; raf := raf w; batch := batch w;
     frameTime := frameTime w; clock := clock w; next_id := n;
     log := log w |}.

Definition emit (w : World) (ev : Event) : World :=
  {| styles := styles w; queues := queues w; raf := raf w; batch := batch w;
     frameTime := frameTime w; clock := clock w; next_id := next_id w;
     log := log w ++ [ev] |}.

(** [requestAnimationFrame(step)] *)
Definition requestAnimationFrame (w : World) (t : Task) : World :=
  set_raf w (raf w ++ [t]).

(** [/^-?\d+(\.\d+)?(U)?$/.test(s)] where [U] is [[a-z%]*] *)
Definition isNumeric (s : string) : bool :=
  let cs := list_ascii_of_string s in
  let s0 := match lits "-" cs with Some r => r | None => cs end in
  match many1 is_digit s0 with
  | None => false
  | Some (_, s1) =>
      let s2 :=
        match lits "." s1 with
        | Some r => match many1 is_digit r with Some (_, r') => r' | None => s1 end
        | None => s1
        end in
      at_end (skip is_lower_pct s2)
  end.

(** [s.match(/[a-z%]+$/i)?.[0] || '']: the longest suffix in the class. *)
Definition unit_suffix (s : string) : string :=
  str (rev (fst (span is_alpha_pct (rev (list_ascii_of_string s))))).

(** The three records the first loop of a queue entry fills. *)
Record Plans : Type := {
  startStyles : obj jsval;
  endStyles : obj jsval;
  units : obj string
}.

(** One iteration of [for (const prop in properties)]. *)
Definition plan_prop (h : Host) (w : World) (e : Entry) (p : Plans)
    (prop : string) : Plans :=
  let computed := getComputedStyle h (styles w) (e_el e) prop in
  let targetVal := trim (default "" (assoc prop (e_properties e))) in
  let isNum := isNumeric targetVal in
  let targetColor := parseColor (canvas h) targetVal in
  let computedColor := parseColor (canvas h) computed in
  match targetColor, computedColor with
  | Some tc, Some cc =>
      {| startStyles := obj_set prop (VArr cc) (startStyles p);
         endStyles := obj_set prop (VArr tc) (endStyles p);
         units := units p |}
  | _, _ =>
      if isNum && isNumeric computed then
        let start := parseFloat computed in
        let end_ := parseFloat targetVal in
        let unit := unit_suffix computed in
        {| startStyles := obj_set prop (VNum start) (startStyles p);
           endStyles := obj_set prop (VNum end_) (endStyles p);
           units := obj_set prop unit (units p) |}
      else
        {| startStyles := obj_set prop VNull (startStyles p);
           endStyles := obj_set prop (VStr targetVal) (endStyles p);
           units := units p |}
  end.

Definition no_plans : Plans :=
  {| startStyles := []; endStyles := []; units := [] |}.

(** The body of a queue entry, up to its call of [requestAnimationFrame]. *)
Definition run_entry (h : Host) (w : World) (e : Entry) : World :=
  let w := emit w (EvStart (e_id e)) in
  let startTime := clock w in
  let p := fold_left (plan_prop h w e) (keys (e_properties e)) no_plans in
  requestAnimationFrame w
    {| t_entry := e; t_startTime := startTime;
       t_startStyles := startStyles p; t_endStyles := endStyles p;
       t_units := units p |}.

(** The body of the callback [this.forEach] receives: one target element. *)
Definition animate_el (h : Host) (properties : list (string * string))
    (duration : jsnum) (easing : jsnum -> jsnum) (callback : option Callback)
    (w : World) (el : node) : World :=
  let w :=
    match queues w !! el with
    | None => set_queues w (<[el := []]> (queues w))
    | Some _ => w
    end in
  let queue := default [] (queues w !! el) in
  let e := {| e_id := next_id w; e_el := el; e_properties := properties;
              e_duration := duration; e_easing := easing;
              e_callback := callback |} in
  let queue := (queue ++ [e]) in
  let w := set_next_id (set_queues w (<[el := queue]> (queues w)))
             (S (next_id w)) in
  let w := emit w (EvEnqueue el (e_id e) (cb_tag <$> callback)) in
  if (length queue =? 1)%nat then
    match queue with
    | e0 :: _ => run_entry h w e0
    | [] => w
    end
  else w.

(** [animate(properties, duration = 400, easing = (t) => t, callback)] on the
    selection [c_targets]. *)
Definition animate (h : Host) (w : World) (c : Call) : World :=
  match c with
  | MkCall targets properties duration easing callback =>
      fold_left
        (animate_el h properties (default (JNum 400) duration)
           (default (fun t => t) easing) callback)
        targets w
  end.

(** [start[i]] and [end[i]]; a missing element is [undefined], NaN in
    arithmetic. *)
Definition index (v : option jsval) (i : nat) : jsnum :=
  match v with
  | Some (VArr a) => nth i a JNaN
  | _ => JNaN
  end.

Definition to_num (v : option jsval) : jsnum :=
  match v with
  | Some (VNum n) => n
  | _ => JNaN
  end.

(** The string assigned by [el.style[prop] = end]. *)
Definition to_template (v : option jsval) : template :=
  match v with
  | Some (VStr s) => [Lit s]
  | Some (VNum n) => [Num n]
  | Some (VArr a) =>
      match a with
      | [] => []
      | x :: a' => Num x :: flat_map (fun y => [Lit ","; Num y]) a'
      end
  | Some VNull => []
  | None => [Lit "undefined"]
  end.

(** [start + (end - start) * eased] *)
Definition blend (start end_ eased : jsnum) : jsnum :=
  jadd start (jmul (jsub end_ start) eased).

(** One iteration of [for (const prop in endStyles)] in [step]. *)
Definition step_prop (tk : Task) (t eased : jsnum)
    (sty : gmap (node * string) template) (prop : string)
  : gmap (node * string) template :=
  let el := e_el (t_entry tk) in
  let start := obj_get prop (t_startStyles tk) in
  let end_ := obj_get prop (t_endStyles tk) in
  match start with
  | Some (VArr _) =>
      let r := jround (blend (index start 0) (index end_ 0) eased) in
      let g := jround (blend (index start 1) (index end_ 1) eased) in
      let b := jround (blend (index start 2) (index end_ 2) eased) in
      let a := blend (index start 3) (index end_ 3) eased in
      <[(el, prop) :=
          [Lit "rgb("; Num r; Lit ", "; Num g; Lit ", "; Num b; Lit ", ";
           Num a; Lit ")"]]> sty
  | Some (VNum s) =>
      let value := blend s (to_num end_) eased in
      <[(el, prop) := [Num value; Lit (default "" (obj_get prop (t_units tk)))]]>
        sty
  | _ =>
      if jeq t (JNum 1) then <[(el, prop) := to_template end_]> sty else sty
  end.

(** [if (callback) callback()] *)
Definition invoke (h : Host) (w : World) (e : Entry) : World :=
  match e_callback e with
  | Some c =>
      fold_left (animate h) (cb_calls c) (emit w (EvCallback (e_id e) (cb_tag c)))
  | None => w
  end.

(** [queue.shift()] on the queue of [el] *)
Definition shift (w : World) (el : node) : World :=
  match queues w !! el with
  | Some (_ :: rest) => set_queues w (<[el := rest]> (queues w))
  | _ => w
  end.

(** [const t = Math.min(1, (now - startTime) / duration)] *)
Definition progress (tk : Task) (now : jsnum) : jsnum :=
  jmin (JNum 1) (jdiv (jsub now (t_startTime tk)) (e_duration (t_entry tk))).

(** The closure [step], called by the host with the frame's time stamp. *)
Definition step (h : Host) (w : World) (tk : Task) (now : jsnum) : World :=
  let e := t_entry tk in
  let w := emit w (EvStep (e_id e)) in
  let t := progress tk now in
  let eased := e_easing e t in
  let w :=
    set_styles w
      (fold_left (step_prop tk t eased) (keys (t_endStyles tk)) (styles w)) in
  if jlt t (JNum 1) then requestAnimationFrame w tk
  else
    let w := invoke h w e in
    let w := emit (shift w (e_el e)) (EvDone (e_id e)) in
    match queues w !! e_el e with
    | Some (e0 :: _) => run_entry h w e0
    | _ => w
    end.

(** What moves the world on: a call of [animate], the clock, the start of a
    frame (the callbacks registered so far become the frame's batch), and
    the host running the next callback of the batch. *)
Inductive Label : Type :=
  | LAnimate (c : Call)
  | LClock (now : jsnum)
  | LFrame (now : jsnum)
  | LStep.

Definition exec (h : Host) (w : World) (l : Label) : World :=
  match l with
  | LAnimate c => animate h w c
  | LClock now => set_clock w now
  | LFrame now =>
      match batch w with
      | [] => set_raf (set_batch w (raf w) now) []
      | _ :: _ => w
      end
  | LStep =>
      match batch w with
      | [] => w
      | tk :: rest => step h (set_batch w rest (frameTime w)) tk (frameTime w)
      end
  end.

Definition run (h : Host) (w : World) (ls : list Label) : World :=
  fold_left (exec h) ls w.

(** A document on which [animate] was never called. *)
Definition init (sty : gmap (node * string) template) (now : jsnum) : World :=
  {| styles := sty; queues := ∅; raf := []; batch := []; frameTime := JNum 0;
     clock := now; next_id := 0; log := [] |}.

(** The step closures that are scheduled: the entries that are ACTIVE. *)
Definition scheduled (w : World) : list Task := (batch w ++ raf w).

Definition active_on (w : World) (el : node) : list Task :=
  filter (fun tk => e_el (t_entry tk) = el) (scheduled w).

End Anim.

(** ** Vocabulary of the statements *)

Module Texts.

Import Color.

(** A canvas that has a context, reads every fill style back as [computed]
    and renders it with alpha byte [alpha]. *)
Definition reading (computed : string) (alpha : Z) : Canvas :=
  {| getContext2d := true;
     fillStyle := fun _ => computed;
     pixelAlpha := fun _ => alpha |}.

(** A canvas that reads a fill style back as it was written, opaque. *)
Definition echo : Canvas :=
  {| getContext2d := true;
     fillStyle := fun s => s;
     pixelAlpha := fun _ => 255%Z |}.

Definition digits (ds : chars) : Prop :=
  ds <> [] /\ forallb is_digit ds = true.

Definition spaces (ws : chars) : Prop := forallb is_space ws = true.

(** The text [rgb(r,g,b)], with white space [w1], [w2] after the commas. *)
Definition rgb_text (r g b w1 w2 : chars) : string :=
  str (list_ascii_of_string "rgb(" ++ r ++ "," :: w1 ++ g ++ "," :: w2 ++ b
       ++ [")"])%char.

(** The text [rgba(r,g,b,a)], with white space after the commas. *)
Definition rgba_text (r g b a w1 w2 w3 : chars) : string :=
  str (list_ascii_of_string "rgba(" ++ r ++ "," :: w1 ++ g ++ "," :: w2 ++ b
       ++ "," :: w3 ++ a ++ [")"])%char.

(** The text [#] followed by the characters [ds]. *)
Definition hex_text (ds : chars) : string := str ("#"%char :: ds).


(** The number a digit string denotes, and the number [i.f] denotes. *)
Definition nat_value (ds : chars) : jsnum := of_Z (digits_val 10 ds).


(** The byte two hexadecimal digits denote. *)
Definition hex_value (x y : ascii) : jsnum :=
  of_Z (16 * default 0 (digit_val x) + default 0 (digit_val y))%Z.

(** The scan of a class stops at the head of [rest]. *)
Definition stops (p : ascii -> bool) (rest : chars) : Prop :=
  match rest with
  | [] => True
  | c :: _ => p c = false
  end.

(** The text of a number with a unit: an optional minus sign, digits, an
    optional fraction and a unit in [[a-z%]*]. *)
Definition numeric_text (negative : bool) (i : chars) (f : option chars)
    (u : chars) : string :=
  str ((if negative then ["-"%char] else []) ++ i
       ++ match f with Some f => "."%char :: f | None => [] end ++ u).

Definition unit_chars (u : chars) : Prop := forallb is_lower_pct u = true.

(** A text of that shape: what the numeric pattern of [animate]
    matches. *)
Definition numeric (s : string) : Prop :=
  exists (negative : bool) (i : chars) (f : option chars) (u : chars),
    digits i /\ match f with Some f => digits f | None => True end /\
    unit_chars u /\ s = numeric_text negative i f u.



End Texts.

Module AnimSpec.

Import Color Anim.

(** The interpolation plan of one property, as the specification has it. *)
Inductive Plan : Type :=
  | ColorPlan (startRGBA endRGBA : list jsnum)
  | NumericPlan (startValue endValue : jsnum) (unit : string)
  | OpaquePlan (endValue : string).

(** The plan the three records of a task hold for a property. *)
Definition plan_of (startStyles endStyles : obj jsval) (units : obj string)
    (prop : string) : option Plan :=
  match obj_get prop startStyles, obj_get prop endStyles with
  | Some (VArr s), Some (VArr e) => Some (ColorPlan s e)
  | Some (VNum s), Some (VNum e) =>
      Some (NumericPlan s e (default "" (obj_get prop units)))
  | Some VNull, Some (VStr e) => Some (OpaquePlan e)
  | _, _ => None
  end.

Definition plans_plan (p : Plans) (prop : string) : option Plan :=
  plan_of (startStyles p) (endStyles p) (units p) prop.

Definition task_plan (tk : Task) (prop : string) : option Plan :=
  plan_of (t_startStyles tk) (t_endStyles tk) (t_units tk) prop.

(** The classifier as the specification words it: colour if both values
    resolve, else numeric if both match the pattern (unit of the current
    value), else opaque with the destination. *)
Definition spec_classify (cv : Canvas) (current destination : string) : Plan :=
  match parseColor cv destination, parseColor cv current with
  | Some dc, Some cc => ColorPlan cc dc
  | _, _ =>
      if isNumeric destination && isNumeric current
      then NumericPlan (parseFloat current) (parseFloat destination)
             (unit_suffix current)
      else OpaquePlan destination
  end.

(** The interpolator as the specification words it: the value to write at
    raw progress [raw] and eased progress [t], if any. *)
Definition spec_evaluate (p : Plan) (raw t : jsnum) : option template :=
  match p with
  | ColorPlan s e =>
      let channel i := jadd (nth i s JNaN)
                         (jmul (jsub (nth i e JNaN) (nth i s JNaN)) t) in
      Some [Lit "rgb("; Num (jround (channel 0%nat)); Lit ", ";
            Num (jround (channel 1%nat)); Lit ", ";
            Num (jround (channel 2%nat)); Lit ", ";
            Num (channel 3%nat); Lit ")"]
  | NumericPlan s e u =>
      Some [Num (jadd s (jmul (jsub e s) t)); Lit u]
  | OpaquePlan e =>
      if jeq raw (JNum 1) then Some [Lit e] else None
  end.

(** The destination [animate] classifies for a property:
    [(properties[prop] || '').toString().trim()]. *)
Definition targetVal (properties : list (string * string)) (prop : string)
  : string :=
  trim (default "" (assoc prop properties)).

(** A host whose canvas reads fill styles back unchanged and whose computed
    style of every property is [computed]. *)
Definition plainHost (computed : string) : Host :=
  {| canvas := Texts.echo; getComputedStyle := fun _ _ _ => computed |}.

(** A request [{prop: value}] without callback, as queued on element 0. *)
Definition request0 (prop value : string) (duration : jsnum) : Entry :=
  {| e_id := 0; e_el := 0%nat; e_properties := [(prop, value)];
     e_duration := duration; e_easing := fun t => t; e_callback := None |}.

(** The task of [request0] started at time 0, with the given plan records. *)
Definition task0 (e : Entry) (s e' : obj jsval) (u : obj string) : Task :=
  {| t_entry := e; t_startTime := JNum 0; t_startStyles := s;
     t_endStyles := e'; t_units := u |}.

(** The steps of [{left: "100px"}] on element 0 from a computed [0px]. *)
Definition left_task : Task :=
  task0 (request0 "left" "100px" (JNum 400))
    [("left", VNum (JNum 0))] [("left", VNum (JNum 100))] [("left", "px")].


(** [animate({left: "100px"})] on element 0 of an idle document, and the
    start of the next frame. *)
Definition left_run : list Label :=
  [LAnimate (MkCall [0%nat] [("left", "100px")] None None None);
   LFrame (JNum 16)].

(** The call [animate({left: "100px"}, duration, undefined, callback 7)]
    on element 0. *)
Definition timed_call (duration : jsnum) : Call :=
  MkCall [0%nat] [("left", "100px")] (Some duration) None (Some (Cb 7 [])).

(** Two requests on element 0, the first with callback 7, and a frame at
    time 100 in which the step of the first runs. *)
Definition two_requests : list Label :=
  [LAnimate (MkCall [0%nat] [] (Some (JNum 100)) None (Some (Cb 7 [])));
   LAnimate (MkCall [0%nat] [] (Some (JNum 100)) None None);
   LFrame (JNum 100);
   LStep].

(** The first of the [two_requests], its step, and the world in which the
    host runs that step. *)
Definition first_request : Entry :=
  {| e_id := 0; e_el := 0%nat; e_properties := []; e_duration := JNum 100;
     e_easing := fun t => t; e_callback := Some (Cb 7 []) |}.

Definition first_task : Task :=
  {| t_entry := first_request; t_startTime := JNum 0; t_startStyles := [];
     t_endStyles := []; t_units := [] |}.

Definition before_first_step : World :=
  run (plainHost "0px") (init ∅ (JNum 0)) (firstn 3 two_requests).

(** Frames at the times [ns]: at each the host starts a frame and runs the
    first callback registered for it. *)
Definition frames (ns : list R) : list Label :=
  flat_map (fun n => [LFrame (JNum n); LStep]) ns.

(** The step that [timed_call] registers on an idle document, at time 0,
    whose computed [left] is [0px]. *)
Definition timed_task (duration : jsnum) : Task :=
  {| t_entry := {| e_id := 0; e_el := 0%nat;
                   e_properties := [("left", "100px")];
                   e_duration := duration; e_easing := fun t => t;
                   e_callback := Some (Cb 7 []) |};
     t_startTime := JNum 0;
     t_startStyles := [("left", VNum (parseFloat "0px"))];
     t_endStyles := [("left", VNum (parseFloat "100px"))];
     t_units := [("left", "px")] |}.

(** [animate(properties)] with the default duration and easing on element
    0 of an idle document at time 0, a frame at time 200 and its step. *)
Definition half_way_run (properties : list (string * string)) : list Label :=
  [LAnimate (MkCall [0%nat] properties None None None);
   LFrame (JNum 200);
   LStep].

(** *** Histories *)

Definition event_id (ev : Event) : nat :=
  match ev with
  | EvEnqueue _ i _ | EvStart i | EvStep i | EvCallback i _ | EvDone i => i
  end.

(** Entry [i] was enqueued on [el]. *)
Definition enqueued (l : list Event) (el : node) (i : nat) : Prop :=
  exists cb, EvEnqueue el i cb ∈ l.

(** The callback of entry [i] has not been invoked and the entry has not
    completed. *)
Definition quiet (l : list Event) (i : nat) : Prop :=
  (forall tag, EvCallback i tag ∉ l) /\ EvDone i ∉ l.

(** What holds of the events [l] that precede an event. *)
Definition good (l : list Event) (ev : Event) : Prop :=
  match ev with
  | EvEnqueue el i cb => forall ev', ev' ∈ l -> event_id ev' < i
  | EvStart i | EvStep i =>
      exists el, enqueued l el i /\
                 (forall i1, enqueued l el i1 -> i1 < i -> EvDone i1 ∈ l)
  | EvCallback i tag =>
      (exists el, EvEnqueue el i (Some tag) ∈ l) /\
      (forall tag', EvCallback i tag' ∉ l)
  | EvDone i =>
      (EvDone i ∉ l) /\
      exists el cb, EvEnqueue el i cb ∈ l /\
                    (forall tag, cb = Some tag -> EvCallback i tag ∈ l)
  end.

Inductive Hist : list Event -> Prop :=
  | Hist_nil : Hist []
  | Hist_snoc (l : list Event) (ev : Event) :
      Hist l -> good l ev -> Hist (l ++ [ev]).

(** [x] occurs before [y] in [l]. *)
Definition before (x y : Event) (l : list Event) : Prop :=
  exists l1 l2 l3, l = l1 ++ x :: l2 ++ y :: l3.

(** [x] occurs exactly once in [l]. *)
Definition once (x : Event) (l : list Event) : Prop :=
  exists l1 l2, l = l1 ++ x :: l2 /\ (x ∉ l1) /\ (x ∉ l2).

(** *** The invariant of the queues *)

(** The properties a task animates are properties of its request. *)
Definition task_wf (tk : Task) : Prop :=
  forall x, x ∈ map fst (t_endStyles tk) ->
            x ∈ map fst (e_properties (t_entry tk)).

Definition task_el (tk : Task) : node := e_el (t_entry tk).

Record Inv (w : World) : Prop := {
  inv_hist : Hist (log w);
  inv_ids : forall ev, ev ∈ log w -> event_id ev < next_id w;
  inv_sorted : forall el q, queues w !! el = Some q ->
      StronglySorted lt (map e_id q);
  inv_queue : forall el q e, queues w !! el = Some q -> e ∈ q ->
      e_el e = el /\
      EvEnqueue el (e_id e) (cb_tag <$> e_callback e) ∈ log w;
  inv_enq : forall el i cb, EvEnqueue el i cb ∈ log w ->
      (exists q e, queues w !! el = Some q /\ e ∈ q /\ e_id e = i)
      \/ EvDone i ∈ log w;
  inv_head : forall tk, tk ∈ scheduled w ->
      exists q, queues w !! task_el tk = Some (t_entry tk :: q);
  inv_one : NoDup (map task_el (scheduled w));
  inv_quiet_sched : forall tk, tk ∈ scheduled w ->
      quiet (log w) (e_id (t_entry tk));
  inv_quiet_tail : forall el e0 q e,
      queues w !! el = Some (e0 :: q) -> e ∈ q ->
      quiet (log w) (e_id e) /\
      (EvStart (e_id e) ∉ log w) /\ (EvStep (e_id e) ∉ log w);
  inv_wf : forall tk, tk ∈ scheduled w -> task_wf tk
}.

(** The world after the entry was pushed and before it is possibly run. *)
Definition pushed (ps : list (string * string)) (d : jsnum)
    (ea : jsnum -> jsnum) (cb : option Callback) (w : World) (el : node)
  : World * Entry :=
  let e := {| e_id := next_id w; e_el := el; e_properties := ps;
              e_duration := d; e_easing := ea; e_callback := cb |} in
  let q := default [] (queues w !! el) in
  ({| styles := styles w; queues := <[el := q ++ [e]]> (queues w);
      raf := raf w; batch := batch w; frameTime := frameTime w;
      clock := clock w; next_id := S (next_id w);
      log := log w ++ [EvEnqueue el (next_id w) (cb_tag <$> cb)] |}, e).

(** What a call of [animate] may change, seen from an element [el] whose
    queue is not empty: entries are appended, nothing is started on [el]. *)
Definition setup_event (bound : nat) (ev : Event) : Prop :=
  match ev with
  | EvEnqueue _ i _ | EvStart i => bound <= i
  | _ => False
  end.

Record grows (el : node) (w w' : World) : Prop := {
  grows_styles : styles w' = styles w;
  grows_batch : batch w' = batch w;
  grows_next : next_id w <= next_id w';
  grows_log : exists evs, log w' = log w ++ evs /\
                          Forall (setup_event (next_id w)) evs;
  grows_queue : forall e q, queues w !! el = Some (e :: q) ->
      exists q', queues w' !! el = Some (e :: q ++ q');
  grows_sched : forall e q, queues w !! el = Some (e :: q) ->
      forall tk, tk ∈ scheduled w' -> task_el tk = el -> tk ∈ scheduled w
}.

(** An element looks the same in two worlds: its queue, the steps scheduled
    for it and its styles. *)
Definition same_at (el : node) (w w' : World) : Prop :=
  queues w' !! el = queues w !! el /\
  active_on w' el = active_on w el /\
  forall prop, styles w' !! (el, prop) = styles w !! (el, prop).

Definition call_targets (c : Call) : list node :=
  match c with MkCall targets _ _ _ _ => targets end.

(** The elements a label acts on: the targets of the call, or the element
    of the step that runs and the targets of the calls its callback makes. *)
Definition concerns (w : World) (l : Label) : list node :=
  match l with
  | LAnimate c => call_targets c
  | LClock _ | LFrame _ => []
  | LStep =>
      match batch w with
      | [] => []
      | tk :: _ =>
          task_el tk ::
          match e_callback (t_entry tk) with
          | Some c => flat_map call_targets (cb_calls c)
          | None => []
          end
      end
  end.

End AnimSpec.

(** ** The document, and the DOM calls the traversal methods make *)

Module Dom.

Import Anim.

(** An element with its child elements, in document order.  [t_html] is
    [instanceof HTMLElement].  The identity of an element is its [node]. *)
#[warnings="-register-all"]
Inductive Tree : Type :=
  | Elem (id : node) (html : bool) (kids : list Tree).

Definition t_id (t : Tree) : node := match t with Elem i _ _ => i end.
Definition t_html (t : Tree) : bool := match t with Elem _ h _ => h end.
Definition t_kids (t : Tree) : list Tree := match t with Elem _ _ ks => ks end.

Record Document : Type := {
  documentElement : Tree;
  (** The elements a selector matches; [None] for a selector that does not
      parse, for which every DOM call that takes it throws. *)
  parseSelector : string -> option (node -> bool)
}.

Definition first_some {A B : Type} (f : A -> option B)
  : list A -> option B :=
  fix go (l : list A) : option B :=
    match l with
    | [] => None
    | x :: l' => match f x with Some y => Some y | None => go l' end
    end.

(** The subtree of [el] in [t], followed by the subtrees of the ancestors
    of [el], nearest first. *)
Fixpoint locate (t : Tree) (el : node) : option (list Tree) :=
  match t with
  | Elem i _ ks =>
      if (i =? el)%nat then Some [t]
      else match first_some (fun k => locate k el) ks with
           | Some p => Some (p ++ [t])
           | None => None
           end
  end.

Definition path (d : Document) (el : node) : list Tree :=
  default [] (locate (documentElement d) el).

Definition element (d : Document) (el : node) : option Tree :=
  head (path d el).

(** [el instanceof HTMLElement] *)
Definition isHTMLElement (d : Document) (el : node) : bool :=
  match element d el with Some t => t_html t | None => false end.

(** [el.parentElement] *)
Definition parentElement (d : Document) (el : node) : option node :=
  t_id <$> head (tail (path d el)).

(** The elements [el.parentElement], [el.parentElement.parentElement], ...
    up to the root. *)
Definition ancestors (d : Document) (el : node) : list node :=
  map t_id (tail (path d el)).

(** [el.children] *)
Definition children (d : Document) (el : node) : list node :=
  match element d el with
  | Some t => map t_id (t_kids t)
  | None => []
  end.

(** The children of the parent of [el]; none without a parent. *)
Definition parent_children (d : Document) (el : node) : list node :=
  match tail (path d el) with
  | p :: _ => map t_id (t_kids p)
  | [] => []
  end.

(** What follows the first occurrence of [x] in [l]. *)
Fixpoint after (x : node) (l : list node) : list node :=
  match l with
  | [] => []
  | y :: l' => if (y =? x)%nat then l' else after x l'
  end.

(** The elements [el.nextElementSibling],
    [el.nextElementSibling.nextElementSibling], ... *)
Definition following (d : Document) (el : node) : list node :=
  after el (parent_children d el).

(** The same chain for [previousElementSibling]. *)
Definition preceding (d : Document) (el : node) : list node :=
  after el (rev (parent_children d el)).

Definition nextElementSibling (d : Document) (el : node) : option node :=
  head (following d el).

Definition previousElementSibling (d : Document) (el : node) : option node :=
  head (preceding d el).

(** A subtree and the subtrees below it, in document order. *)
Fixpoint subtrees (t : Tree) : list Tree :=
  match t with
  | Elem _ _ ks => t :: flat_map subtrees ks
  end.

Definition ids (t : Tree) : list node := map t_id (subtrees t).

(** The elements below [el], in document order. *)
Definition descendants (d : Document) (el : node) : list node :=
  match element d el with
  | Some t => map t_id (flat_map subtrees (t_kids t))
  | None => []
  end.

(** [el.matches(s)] *)
Definition matches (d : Document) (el : node) (s : string) : option bool :=
  f ← parseSelector d s; Some (f el).

(** [el.querySelectorAll(s)] *)
Definition querySelectorAll (d : Document) (el : node) (s : string)
  : option (list node) :=
  f ← parseSelector d s; Some (List.filter f (descendants d el)).

(** [el.querySelector(s)] *)
Definition querySelector (d : Document) (el : node) (s : string)
  : option (option node) :=
  head <$> querySelectorAll d el s.

(** [document.querySelectorAll(s)] *)
Definition document_querySelectorAll (d : Document) (s : string)
  : option (list node) :=
  f ← parseSelector d s; Some (List.filter f (ids (documentElement d))).

(** [el.closest(s)] *)
Definition closest (d : Document) (el : node) (s : string)
  : option (option node) :=
  f ← parseSelector d s; Some (head (List.filter f (el :: ancestors d el))).

(** [el.contains(x)] *)
Definition contains (d : Document) (el x : node) : bool :=
  (x =? el)%nat || existsb (Nat.eqb x) (descendants d el).

(** No two elements of the document are the same element. *)
Definition distinct (d : Document) : Prop := NoDup (ids (documentElement d)).

(** [p] leads from a subtree of [t] up to [t], child before parent. *)
Inductive Path : Tree -> list Tree -> Prop :=
  | Path_here (t : Tree) : Path t [t]
  | Path_below (t k : Tree) (p : list Tree) :
      k ∈ t_kids t -> Path k p -> Path t (p ++ [t]).

End Dom.

(** ** The selection methods of [src/index.ts]

    An instance is given by its [$el]; [$(array)] builds the instance whose
    [$el] is the array.  A method that makes a DOM call with a selector
    returns [None] when the call throws. *)

Module Query.

Import Color Anim Dom.

(** What [$] is called with: a string, an [HTMLElement], an array, or
    something else. *)
Inductive Selector : Type :=
  | SelString (s : string)
  | SelElement (el : node)
  | SelArray (els : list node)
  | SelOther.

Definition safTSQuerySelectorAll (d : Document) (selector : string)
  : option (list node) :=
  document_querySelectorAll d selector.

(** [$(selector).$el]; [None] when [$] throws. *)
Definition dollar (d : Document) (selector : Selector) : option (list node) :=
  match selector with
  | SelString s => safTSQuerySelectorAll d s
  | SelElement el => Some [el]
  | SelArray els => Some els
  | SelOther => None
  end.

(** [this.$el.forEach(el => ...)] where the body pushes elements onto the
    array the method returns. *)
Fixpoint collect (body : node -> option (list node)) (els : list node)
  : option (list node) :=
  match els with
  | [] => Some []
  | el :: els' =>
      r ← body el; rs ← collect body els'; Some (r ++ rs)
  end.

(** [els.filter(el => ...)] with a test that may throw. *)
Fixpoint filter_opt (test : node -> option bool) (els : list node)
  : option (list node) :=
  match els with
  | [] => Some []
  | el :: els' =>
      match test el with
      | Some b =>
          rs ← filter_opt test els'; Some (if b then el :: rs else rs)
      | None => None
      end
  end.

(** An optional selector that is truthy: given, and not the empty string. *)
Definition given (selector : option string) : option string :=
  match selector with
  | Some s => if String.eqb s "" then None else Some s
  | None => None
  end.

Definition find (d : Document) (selector : string) (els : list node)
  : option (list node) :=
  collect (fun el => querySelectorAll d el selector) els.

Definition children (d : Document) (els : list node) : list node :=
  flat_map (fun el => Dom.children d el) els.

Definition parent (d : Document) (els : list node) : list node :=
  flat_map
    (fun el =>
       match parentElement d el with
       | Some parent => if isHTMLElement d parent then [parent] else []
       | None => []
       end)
    els.

(** The loop [while (parent)] of [parents], over the chain of
    [parentElement]. *)
Fixpoint parents_loop (d : Document) (selector : option string)
    (chain : list node) : option (list node) :=
  match chain with
  | [] => Some []
  | parent :: chain' =>
      if isHTMLElement d parent then
        match given selector with
        | Some s =>
            match matches d parent s with
            | Some m =>
                if m then Some [parent] else parents_loop d selector chain'
            | None => None
            end
        | None =>
            r ← parents_loop d selector chain'; Some (parent :: r)
        end
      else parents_loop d selector chain'
  end.

Definition parents (d : Document) (selector : option string)
    (els : list node) : option (list node) :=
  collect (fun el => parents_loop d selector (ancestors d el)) els.

Definition siblings (d : Document) (selector : option string)
    (els : list node) : option (list node) :=
  collect
    (fun el =>
       match parentElement d el with
       | Some parent =>
           collect
             (fun sibling =>
                if negb (sibling =? el)%nat && isHTMLElement d sibling then
                  match given selector with
                  | Some s =>
                      match matches d sibling s with
                      | Some m => Some (if m then [sibling] else [])
                      | None => None
                      end
                  | None => Some [sibling]
                  end
                else Some [])
             (Dom.children d parent)
       | None => Some []
       end)
    els.

(** The loops [while (nextSibling)] of [next] and [while (prevSibling)] of
    [prev], over the chain of siblings. *)
Fixpoint sibling_loop (d : Document) (selector : option string)
    (chain : list node) : option (list node) :=
  match chain with
  | [] => Some []
  | sibling :: chain' =>
      if isHTMLElement d sibling then
        match given selector with
        | Some s =>
            match matches d sibling s with
            | Some m =>
                if m then Some [sibling] else sibling_loop d selector chain'
            | None => None
            end
        | None => Some [sibling]
        end
      else sibling_loop d selector chain'
  end.

Definition next (d : Document) (selector : option string) (els : list node)
  : option (list node) :=
  collect (fun el => sibling_loop d selector (following d el)) els.

Definition prev (d : Document) (selector : option string) (els : list node)
  : option (list node) :=
  collect (fun el => sibling_loop d selector (preceding d el)) els.

(** The loop [while (parent)] of [closest], which starts at the element
    itself. *)
Fixpoint closest_loop (d : Document) (selector : string) (chain : list node)
  : option (list node) :=
  match chain with
  | [] => Some []
  | parent :: chain' =>
      match matches d parent selector with
      | Some m => if m then Some [parent] else closest_loop d selector chain'
      | None => None
      end
  end.

Definition closest (d : Document) (selector : string) (els : list node)
  : option (list node) :=
  collect (fun el => closest_loop d selector (el :: ancestors d el)) els.

(** [filteredChildren] of [first] and [last]. *)
Definition filteredChildren (d : Document) (selector : option string)
    (el : node) : option (list node) :=
  let children := Dom.children d el in
  match given selector with
  | Some s => filter_opt (fun child => matches d child s) children
  | None => Some children
  end.

(** [.filter(Boolean)] on one result of the [map]. *)
Definition truthy (x : option node) : list node :=
  match x with Some el => [el] | None => [] end.

Definition first (d : Document) (selector : option string) (els : list node)
  : option (list node) :=
  collect
    (fun el =>
       fc ← filteredChildren d selector el;
       Some (truthy (if (0 <? length fc)%nat then fc !! 0%nat else None)))
    els.

Definition last (d : Document) (selector : option string) (els : list node)
  : option (list node) :=
  collect
    (fun el =>
       fc ← filteredChildren d selector el;
       Some (truthy (if (0 <? length fc)%nat then fc !! (length fc - 1)%nat
                     else None)))
    els.

Definition has (d : Document) (selector : string) (els : list node)
  : option (list node) :=
  filter_opt
    (fun el =>
       q ← querySelector d el selector;
       Some (match q with Some _ => true | None => false end))
    els.

(** [els.filter((el, index) => callback(el, index))], from index [i]. *)
Fixpoint filter_from (callback : node -> nat -> bool) (i : nat)
    (els : list node) : list node :=
  match els with
  | [] => []
  | el :: els' =>
      if callback el i then el :: filter_from callback (S i) els'
      else filter_from callback (S i) els'
  end.

Definition filter (callback : node -> nat -> bool) (els : list node)
  : list node :=
  filter_from callback 0 els.

(** [x >= y] *)
Definition jge (x y : jsnum) : bool := jle y x.

(** [a[i]] for an array [a] and a number [i]: the element at [i] when [i]
    is a non-negative integer below the length, else [undefined]. *)
Definition array_get {A : Type} (a : list A) (i : jsnum) : option A :=
  match i with
  | JNum r =>
      if Req_dec_T (IZR (Zfloor r)) r then
        if (0 <=? Zfloor r)%Z then a !! Z.to_nat (Zfloor r) else None
      else None
  | _ => None
  end.

Definition eq (index : jsnum) (els : list node) : list node :=
  let element :=
    array_get els
      (if jge index (JNum 0) then index
       else jadd (of_Z (Z.of_nat (length els))) index) in
  match element with
  | Some el => [el]
  | None => []
  end.

(** What [not] is called with. *)
Inductive NotArg : Type :=
  | NotString (s : string)
  | NotFunction (f : node -> bool)
  | NotOther.

Definition not (d : Document) (selector : NotArg) (els : list node)
  : option (list node) :=
  match selector with
  | NotString s => filter_opt (fun el => negb <$> matches d el s) els
  | NotFunction f => Some (List.filter (fun el => negb (f el)) els)
  | NotOther => Some []
  end.

(** What [css] is called with: a property and a value, or an object. *)
Inductive CssArg : Type :=
  | CssProperty (property : string) (value : option string)
  | CssProperties (properties : list (string * string)).

(** [el.style[prop] = value] *)
Definition set_style (prop : string) (value : option string)
    (sty : gmap (node * string) template) (el : node)
  : gmap (node * string) template :=
  <[(el, prop) := to_template (VStr <$> value)]> sty.

Definition css (arg : CssArg) (els : list node)
    (sty : gmap (node * string) template) : gmap (node * string) template :=
  match arg with
  | CssProperty property value => fold_left (set_style property value) els sty
  | CssProperties properties =>
      fold_left
        (fun sty prop =>
           let val := assoc prop properties in
           fold_left (set_style prop val) els sty)
        (keys properties) sty
  end.

End Query.

(** ** Event binding: the method [on] of [src/index.ts] *)

Module Events.

Import Anim Dom.

(** [events.split(/\s+/)]: [cur] holds the characters of the piece being
    read, last first; [gap] tells that the character before was white
    space. *)
Fixpoint split_spaces (cur : chars) (gap : bool) (s : chars) : list string :=
  match s with
  | [] => [Color.str (rev cur)]
  | c :: s' =>
      if is_space c then
        if gap then split_spaces [] true s'
        else Color.str (rev cur) :: split_spaces [] true s'
      else split_spaces (c :: cur) false s'
  end.

Definition split (events : string) : list string :=
  split_spaces [] false (list_ascii_of_string events).

(** The function [on] hands to [addEventListener]: the one that calls the
    handler on the event target, or the one that delegates from the element
    [el] it is bound to.  A handler is known by the function it is. *)
Inductive Listener : Type :=
  | Direct (handler : nat)
  | Delegated (el : node) (selector : string) (handler : nat).

(** One call of [el.addEventListener(event, listener, ...)]. *)
Record Binding : Type := {
  b_el : node;
  b_event : string;
  b_listener : Listener
}.

(** What [on] is called with after [events]: a handler, a selector and a
    handler, or something else. *)
Inductive OnArgs : Type :=
  | OnHandler (handler : nat)
  | OnSelector (selector : string) (handler : nat)
  | OnOther.

(** The calls of [addEventListener] that [on] makes, in order. *)
Definition on (events : string) (args : OnArgs) (els : list node)
  : list Binding :=
  let eventList := split events in
  match args with
  | OnHandler handler =>
      flat_map
        (fun el =>
           map (fun event =>
                  {| b_el := el; b_event := event;
                     b_listener := Direct handler |})
               eventList)
        els
  | OnSelector selector handler =>
      flat_map
        (fun el =>
           map (fun event =>
                  {| b_el := el; b_event := event;
                     b_listener := Delegated el selector handler |})
               eventList)
        els
  | OnOther => []
  end.

(** The call a listener makes when it receives an event with target
    [target]: the handler and its [this], if it calls one; [None] when the
    listener throws. *)
Definition listen (d : Document) (l : Listener) (target : node)
  : option (option (nat * node)) :=
  match l with
  | Direct handler => Some (Some (handler, target))
  | Delegated el selector handler =>
      match Dom.closest d target selector with
      | Some potentialMatch =>
          Some match potentialMatch with
               | Some m => if contains d el m then Some (handler, m) else None
               | None => None
               end
      | None => None
      end
  end.

(** A name that [on] binds as it is written: not empty, and without white
    space. *)
Definition event_name (name : string) : Prop :=
  name <> "" /\ forallb (fun c => negb (is_space c))
                  (list_ascii_of_string name) = true.

End Events.

(** ** Attributes: the methods [setAttr] and [getAttr] of [src/index.ts] *)

Module Attributes.

Import Anim.


(** [el.getAttribute(name)] on an HTML element, with the attributes [a] of
    the elements, by element and lower-case name: the name is compared in
    lower case; [None] is [null]. *)
Definition getAttribute (a : gmap (node * string) string) (el : node)
    (name : string)
  : option string :=
  a !! (el, toLowerCase name).

(** [el.setAttribute(name, value)] on an HTML element; [valid] tells the
    names the DOM accepts, for the others the call throws. *)
Definition setAttribute (valid : string -> bool)
    (a : gmap (node * string) string) (el : node) (name value : string)
  : option (gmap (node * string) string) :=
  if valid name then Some (<[(el, toLowerCase name) := value]> a) else None.

Fixpoint setAttr (valid : string -> bool) (name value : string)
    (els : list node) (a : gmap (node * string) string)
  : option (gmap (node * string) string) :=
  match els with
  | [] => Some a
  | el :: els' =>
      match setAttribute valid a el name value with
      | Some a' => setAttr valid name value els' a'
      | None => None
      end
  end.

(** [this.$el[0]?.getAttribute(name) || ''] *)
Definition getAttr (name : string) (els : list node)
    (a : gmap (node * string) string) : string :=
  match els with
  | [] => ""
  | el :: _ => default "" (getAttribute a el name)
  end.

End Attributes.

(** ** The method registry of [src/core/inject.ts] *)

Module Inject.

Import Anim.

(** A method is known by the function it is. *)
Definition TSQueryMethod : Type := nat.

(** A member of an instance: the array [$el], or a method. *)
Inductive Member : Type :=
  | MElements (els : list node)
  | MMethod (fn : TSQueryMethod).

Definition Registry : Type := gmap string TSQueryMethod.

(** [registry[name] = fn].  The registry is a plain object: under
    [__proto__] the assignment makes no entry, under another name it makes
    or replaces the entry of that name. *)
Definition register (name : string) (fn : TSQueryMethod)
    (registry : Registry) : Registry :=
  if String.eqb name "__proto__" then registry else <[name := fn]> registry.

(** The registry after the registrations [regs], made in that order. *)
Definition registered (regs : list (string * TSQueryMethod)) : Registry :=
  fold_left (fun registry nf => register (fst nf) (snd nf) registry) regs ∅.

Definition buildInstance (registry : Registry) (els : list node)
  : gmap string Member :=
  map_fold (fun name fn instance => <[name := MMethod fn]> instance)
    {["$el" := MElements els]} registry.

End Inject.

(** ** Examples the statements are applied to *)

Module Examples.

Import Color Anim Dom Query Events.

(** The document [html > body > (ul > (li, svg, li), p)], its elements
    numbered 0 to 6 in document order; element 4, the [svg], is not an
    [HTMLElement]. *)
Definition page_tree : Tree :=
  Elem 0 true
    [Elem 1 true
       [Elem 2 true [Elem 3 true []; Elem 4 false []; Elem 5 true []];
        Elem 6 true []]].

(** The selectors [li], [ul] and [*]; no other selector parses. *)
Definition page_selector (s : string) : option (node -> bool) :=
  if String.eqb s "li" then Some (fun el => (el =? 3)%nat || (el =? 5)%nat)
  else if String.eqb s "ul" then Some (fun el => (el =? 2)%nat)
  else if String.eqb s "*" then Some (fun _ => true)
  else None.

Definition page : Document :=
  {| documentElement := page_tree; parseSelector := page_selector |}.

(** The same document with a list item in place of the [svg]. *)
Definition list_tree : Tree :=
  Elem 0 true
    [Elem 1 true
       [Elem 2 true [Elem 3 true []; Elem 4 true []; Elem 5 true []];
        Elem 6 true []]].

Definition list_page : Document :=
  {| documentElement := list_tree; parseSelector := page_selector |}.

(** An entry on element 0 whose callback animates element 0 again, the
    step of that entry, and a world in which the entry is alone in its
    queue. *)
Definition chaining_request : Entry :=
  {| e_id := 0; e_el := 0%nat; e_properties := [];
     e_duration := JNum 100; e_easing := fun t => t;
     e_callback :=
       Some (Cb 7 [MkCall [0%nat] [("left", "10px")] None None None]) |}.

Definition chaining_task : Task :=
  {| t_entry := chaining_request; t_startTime := JNum 0;
     t_startStyles := []; t_endStyles := []; t_units := [] |}.

Definition chaining_world : World :=
  {| styles := ∅; queues := {[0%nat := [chaining_request]]}; raf := [];
     batch := []; frameTime := JNum 100; clock := JNum 100; next_id := 1;
     log := [EvEnqueue 0%nat 0 (Some 7); EvStart 0] |}.

End Examples.

(** * Properties *)

(** ** Scanning *)

Section Scanning.

Import Color.

Lemma list_of_str (l : chars) : list_ascii_of_string (str l) = l.
Proof. apply list_ascii_of_string_of_list_ascii. Qed.

Lemma span_all (p : ascii -> bool) (ds : chars) :
  forallb p ds = true -> span p ds = (ds, []).
Proof.
  induction ds as [|c ds IH]; simpl; [reflexivity|].
  intros H. apply andb_prop in H as [Hc Hds].
  rewrite Hc, (IH Hds). reflexivity.
Qed.

Lemma span_stop (p : ascii -> bool) (ds : chars) (c : ascii) (rest : chars) :
  forallb p ds = true -> p c = false ->
  span p (ds ++ c :: rest) = (ds, c :: rest).
Proof.
  intros Hds Hc. induction ds as [|d ds IH]; simpl.
  - rewrite Hc. reflexivity.
  - simpl in Hds. apply andb_prop in Hds as [Hd Hds].
    rewrite Hd, (IH Hds). reflexivity.
Qed.

Lemma many1_stop (p : ascii -> bool) (ds : chars) (c : ascii) (rest : chars) :
  ds <> [] -> forallb p ds = true -> p c = false ->
  many1 p (ds ++ c :: rest) = Some (ds, c :: rest).
Proof.
  intros Hne Hds Hc. unfold many1. rewrite span_stop by assumption.
  destruct ds; [contradiction|reflexivity].
Qed.

Lemma digits_val_snoc (radix : Z) (ds : chars) (c : ascii) :
  digits_val radix (ds ++ [c]) =
  (digits_val radix ds * radix + default 0 (digit_val c))%Z.
Proof. unfold digits_val. rewrite fold_left_app. reflexivity. Qed.

Lemma digit_val_digit (c : ascii) :
  is_digit c = true -> exists d, digit_val c = Some d /\ (0 <= d < 10)%Z.
Proof.
  intros H. unfold digit_val. rewrite H. eexists. split; [reflexivity|].
  unfold is_digit, in_range in H. apply andb_prop in H as [H1 H2].
  apply N.leb_le in H1, H2. lia.
Qed.

Lemma digits_val_nonneg (ds : chars) :
  forallb is_digit ds = true -> (0 <= digits_val 10 ds)%Z.
Proof.
  induction ds as [|c ds IH] using rev_ind; intros H.
  - unfold digits_val. simpl. lia.
  - rewrite forallb_app in H. apply andb_prop in H as [Hds Hc].
    simpl in Hc. rewrite andb_true_r in Hc.
    rewrite digits_val_snoc.
    destruct (digit_val_digit c Hc) as (d & -> & Hd). simpl.
    specialize (IH Hds). lia.
Qed.

Lemma is_digit_radix10 (c : ascii) :
  is_digit c = true -> is_radix_digit 10 c = true.
Proof.
  intros H. unfold is_radix_digit.
  destruct (digit_val_digit c H) as (d & -> & Hd).
  apply Z.ltb_lt. lia.
Qed.

Lemma is_digit_not_space (c : ascii) : is_digit c = true -> is_space c = false.
Proof.
  unfold is_digit, is_space, in_range. intros H.
  apply andb_prop in H as [H1 H2]. apply N.leb_le in H1, H2.
  apply orb_false_intro; [apply orb_false_intro|].
  - apply andb_false_intro2. apply N.leb_gt. lia.
  - apply N.eqb_neq. lia.
  - apply N.eqb_neq. lia.
Qed.

Lemma is_digit_code (c : ascii) :
  is_digit c = true -> (48 <= code c <= 57)%N.
Proof.
  unfold is_digit, in_range. intros H.
  apply andb_prop in H as [H1 H2]. apply N.leb_le in H1, H2. lia.
Qed.

Lemma eqb_code (c d : ascii) : code c <> code d -> Ascii.eqb c d = false.
Proof.
  intros H. apply Ascii.eqb_neq. intros ->. apply H. reflexivity.
Qed.

(** A digit is none of the characters [parseInt] treats specially. *)
Lemma take_sign_digit (c : ascii) (s : chars) :
  is_digit c = true -> take_sign (c :: s) = (false, c :: s).
Proof.
  intros H. apply is_digit_code in H. unfold take_sign.
  rewrite !eqb_code; [reflexivity| |]; cbn; lia.
Qed.

Lemma strip_0x_digits (ds : chars) :
  forallb is_digit ds = true -> strip_0x ds = None.
Proof.
  destruct ds as [|a [|b ds]]; try reflexivity.
  simpl. intros H.
  apply andb_prop in H as [_ H]. apply andb_prop in H as [Hb _].
  apply is_digit_code in Hb.
  rewrite (eqb_code b "x"), (eqb_code b "X"); [|cbn; lia|cbn; lia].
  rewrite andb_false_r. reflexivity.
Qed.

Lemma skip_space_digit (c : ascii) (s : chars) :
  is_digit c = true -> skip is_space (c :: s) = c :: s.
Proof.
  intros H. unfold skip. simpl. rewrite (is_digit_not_space c H). reflexivity.
Qed.

(** [parseInt] of a text that starts with digits and stops at a character
    that is neither a digit nor the [x] of a hexadecimal prefix reads the
    digits. *)
Lemma parseInt_Z_digits (ds rest : chars) :
  ds <> [] -> forallb is_digit ds = true ->
  match rest with
  | [] => True
  | c :: _ =>
      is_digit c = false /\ Ascii.eqb c "x" = false /\ Ascii.eqb c "X" = false
  end ->
  parseInt_Z (str (ds ++ rest)) None = Some (digits_val 10 ds).
Proof.
  intros Hne Hds Hrest. unfold parseInt_Z. rewrite list_of_str.
  destruct ds as [|d ds]; [contradiction|].
  pose proof Hds as Hall. simpl in Hds. apply andb_prop in Hds as [Hd Hds].
  change ((d :: ds) ++ rest)%list with (d :: (ds ++ rest)).
  rewrite skip_space_digit, take_sign_digit by assumption.
  cbn [default negb Z.eqb andb orb].
  assert (Hx : strip_0x (d :: (ds ++ rest)) = None).
  { destruct ds as [|b ds]; [|].
    - destruct rest as [|c rest]; [reflexivity|]. simpl.
      destruct (Ascii.eqb d "0"); [|reflexivity]. simpl.
      destruct Hrest as (_ & -> & ->). reflexivity.
    - simpl. simpl in Hds. apply andb_prop in Hds as [Hb _].
      apply is_digit_code in Hb.
      rewrite (eqb_code b "x"), (eqb_code b "X"); [|cbn; lia|cbn; lia].
      rewrite andb_false_r. reflexivity. }
  rewrite Hx.
  assert (Hspan : fst (span (is_radix_digit 10) (d :: (ds ++ rest)))
                  = d :: ds).
  { change (d :: (ds ++ rest)) with ((d :: ds) ++ rest)%list.
    assert (Hr : forallb (is_radix_digit 10) (d :: ds) = true).
    { apply forallb_forall. intros x Hx'. apply is_digit_radix10.
      rewrite forallb_forall in Hall. apply Hall, Hx'. }
    destruct rest as [|c rest].
    - rewrite app_nil_r, span_all by assumption. reflexivity.
    - rewrite span_stop; [reflexivity|assumption|].
      destruct Hrest as (Hrest & _ & _).
      unfold is_radix_digit, digit_val. rewrite Hrest.
      destruct (is_lower c) eqn:El.
      + unfold is_lower, in_range in El. apply andb_prop in El as [E1 E2].
        apply N.leb_le in E1, E2. apply Z.ltb_ge. lia.
      + destruct (is_upper c) eqn:Eu; [|reflexivity].
        unfold is_upper, in_range in Eu. apply andb_prop in Eu as [E1 E2].
        apply N.leb_le in E1, E2. apply Z.ltb_ge. lia. }
  rewrite Hspan. reflexivity.
Qed.

End Scanning.

(** ** The colour resolver *)

Section Resolver.

Import Color Texts.

Lemma skip_stop (p : ascii -> bool) (ws : chars) (c : ascii) (rest : chars) :
  forallb p ws = true -> p c = false -> skip p (ws ++ c :: rest) = c :: rest.
Proof. intros H1 H2. unfold skip. rewrite span_stop by assumption. reflexivity. Qed.

Lemma skip_spaces_digits (ws ds rest : chars) :
  spaces ws -> digits ds -> skip is_space (ws ++ ds ++ rest) = ds ++ rest.
Proof.
  intros Hws [Hne Hds]. destruct ds as [|d ds]; [contradiction|].
  simpl in Hds. apply andb_prop in Hds as [Hd _].
  apply (skip_stop is_space ws d); [assumption|].
  apply is_digit_not_space, Hd.
Qed.

Lemma many1_digits_stop (ds : chars) (c : ascii) (rest : chars) :
  digits ds -> is_digit c = false ->
  many1 is_digit (ds ++ c :: rest) = Some (ds, c :: rest).
Proof. intros [Hne Hds] Hc. apply many1_stop; assumption. Qed.

Lemma parseInt_digits (ds : chars) :
  digits ds -> parseInt (str ds) None = nat_value ds.
Proof.
  intros [Hne Hds]. unfold parseInt.
  rewrite <- (app_nil_r ds) at 1.
  rewrite parseInt_Z_digits; [reflexivity|assumption|assumption|exact I].
Qed.

Lemma match_rgb_text (r g b w1 w2 : chars) :
  digits r -> digits g -> digits b -> spaces w1 -> spaces w2 ->
  match_rgb (rgb_text r g b w1 w2) = Some (str r, str g, str b).
Proof.
  intros Hr Hg Hb Hw1 Hw2. unfold match_rgb, rgb_text.
  rewrite list_of_str. cbn [list_ascii_of_string app lits lit Ascii.eqb Bool.eqb mbind option_bind].
  rewrite many1_digits_stop by (assumption || reflexivity).
  cbn [mbind option_bind lits list_ascii_of_string lit Ascii.eqb Bool.eqb].
  rewrite skip_spaces_digits by assumption.
  rewrite many1_digits_stop by (assumption || reflexivity).
  cbn [mbind option_bind lits list_ascii_of_string lit Ascii.eqb Bool.eqb].
  rewrite skip_spaces_digits by assumption.
  rewrite many1_digits_stop by (assumption || reflexivity).
  reflexivity.
Qed.

Lemma match_rgb_rgba_text (r g b a w1 w2 w3 : chars) :
  match_rgb (rgba_text r g b a w1 w2 w3) = None.
Proof. unfold match_rgb, rgba_text. rewrite list_of_str. reflexivity. Qed.

Lemma match_rgba_text (r g b a w1 w2 w3 : chars) :
  digits r -> digits g -> digits b ->
  spaces w1 -> spaces w2 -> spaces w3 ->
  a <> [] -> forallb is_digit_or_dot a = true ->
  match_rgba (rgba_text r g b a w1 w2 w3) = Some (str r, str g, str b, str a).
Proof.
  intros Hr Hg Hb Hw1 Hw2 Hw3 Hne Ha. unfold match_rgba, rgba_text.
  rewrite list_of_str.
  cbn [list_ascii_of_string app lits lit Ascii.eqb Bool.eqb mbind option_bind].
  rewrite many1_digits_stop by (assumption || reflexivity).
  cbn [mbind option_bind lits list_ascii_of_string lit Ascii.eqb Bool.eqb].
  rewrite skip_spaces_digits by assumption.
  rewrite many1_digits_stop by (assumption || reflexivity).
  cbn [mbind option_bind lits list_ascii_of_string lit Ascii.eqb Bool.eqb].
  rewrite skip_spaces_digits by assumption.
  rewrite many1_digits_stop by (assumption || reflexivity).
  cbn [mbind option_bind lits list_ascii_of_string lit Ascii.eqb Bool.eqb].
  assert (Hskip : skip is_space (w3 ++ a ++ [")"%char]) = a ++ [")"%char]).
  { destruct a as [|c a]; [contradiction|].
    apply (skip_stop is_space w3 c); [assumption|].
    simpl in Ha. apply andb_prop in Ha as [Hc _].
    unfold is_digit_or_dot in Hc. apply orb_prop in Hc as [Hc|Hc].
    - apply is_digit_not_space, Hc.
    - apply N.eqb_eq in Hc. unfold is_space, in_range. rewrite Hc. reflexivity. }
  rewrite Hskip.
  rewrite many1_stop by (assumption || reflexivity).
  reflexivity.
Qed.

(** What [parseColor] answers on a text [rgba(r, g, b, a)] whose pixel is not
    fully transparent: every capture goes through [parseInt]. *)
Lemma parseColor_rgba_text (cv : Canvas) (color : string)
    (r g b a w1 w2 w3 : chars) :
  getContext2d cv = true ->
  fillStyle cv color = rgba_text r g b a w1 w2 w3 ->
  pixelAlpha cv color <> 0%Z ->
  digits r -> digits g -> digits b ->
  spaces w1 -> spaces w2 -> spaces w3 ->
  a <> [] -> forallb is_digit_or_dot a = true ->
  parseColor cv color =
  Some [nat_value r; nat_value g; nat_value b; parseInt (str a) None].
Proof.
  intros Hctx Hfill Hpx Hr Hg Hb Hw1 Hw2 Hw3 Hne Ha. unfold parseColor.
  rewrite Hctx, Hfill. cbn [negb].
  apply Z.eqb_neq in Hpx. rewrite Hpx.
  rewrite match_rgb_rgba_text, match_rgba_text by assumption.
  rewrite !parseInt_digits by assumption. reflexivity.
Qed.

(** The integer [parseInt] reads from an alpha written [i.f]. *)
Lemma parseInt_decimal (i f : chars) :
  digits i -> parseInt (str (i ++ "."%char :: f)) None = nat_value i.
Proof.
  intros [Hne Hi]. unfold parseInt.
  rewrite parseInt_Z_digits; [reflexivity|assumption|assumption|].
  repeat split; reflexivity.
Qed.

(** C5.  The alpha of [rgba(r, g, b, a)] is read with [parseInt]: an alpha
    written [i.f] resolves to its integer part [i], so [0.5] resolves to
    [0], not to [0.5]. *)
Theorem parseColor_rgba_alpha_truncated (cv : Canvas) (color : string)
    (r g b i f w1 w2 w3 : chars) :
  getContext2d cv = true ->
  fillStyle cv color = rgba_text r g b (i ++ "."%char :: f) w1 w2 w3 ->
  pixelAlpha cv color <> 0%Z ->
  digits r -> digits g -> digits b -> digits i -> digits f ->
  spaces w1 -> spaces w2 -> spaces w3 ->
  parseColor cv color =
  Some [nat_value r; nat_value g; nat_value b; nat_value i].
Proof.
  intros Hctx Hfill Hpx Hr Hg Hb Hi Hf Hw1 Hw2 Hw3.
  rewrite (parseColor_rgba_text cv color r g b (i ++ "."%char :: f) w1 w2 w3);
    try assumption.
  - rewrite parseInt_decimal by assumption. reflexivity.
  - destruct i; [destruct Hi; contradiction|discriminate].
  - destruct Hi as [_ Hi], Hf as [_ Hf].
    rewrite forallb_app. apply andb_true_intro. split.
    + apply forallb_forall. intros x Hx. rewrite forallb_forall in Hi.
      unfold is_digit_or_dot. rewrite (Hi x Hx). reflexivity.
    + simpl. apply forallb_forall. intros x Hx. rewrite forallb_forall in Hf.
      unfold is_digit_or_dot. rewrite (Hf x Hx). reflexivity.
Qed.

Lemma parseColor_rgba_half :
  parseColor (reading "rgba(10, 20, 30, 0.5)" 128) "rgba(10, 20, 30, 0.5)"
  = Some [JNum 10; JNum 20; JNum 30; JNum 0].
Proof.
  refine (parseColor_rgba_alpha_truncated
            (reading "rgba(10, 20, 30, 0.5)" 128) "rgba(10, 20, 30, 0.5)"
            (list_ascii_of_string "10") (list_ascii_of_string "20")
            (list_ascii_of_string "30") (list_ascii_of_string "0")
            (list_ascii_of_string "5") [" "%char] [" "%char] [" "%char]
            _ _ _ _ _ _ _ _ _ _ _);
    try reflexivity; try discriminate; split; (discriminate || reflexivity).
Defined.

Lemma is_hex_code (c : ascii) :
  is_hex c = true ->
  (97 <= code c <= 102)%N \/ (65 <= code c <= 70)%N \/ (48 <= code c <= 57)%N.
Proof.
  unfold is_hex, is_digit, in_range. intros H.
  apply orb_prop in H as [H|H]; [apply orb_prop in H as [H|H]|];
    apply andb_prop in H as [H1 H2]; apply N.leb_le in H1, H2; lia.
Qed.

Lemma is_hex_radix16 (c : ascii) :
  is_hex c = true -> is_radix_digit 16 c = true.
Proof.
  intros H. apply is_hex_code in H.
  unfold is_radix_digit, digit_val, is_digit, is_lower, is_upper, in_range.
  repeat match goal with
         | |- context [(?a <=? ?b)%N] =>
             destruct (N.leb_spec a b); cbn [andb orb]
         end; try lia; apply Z.ltb_lt; lia.
Qed.

Lemma parseInt_hex2 (x y : ascii) :
  is_hex x = true -> is_hex y = true ->
  parseInt (str [x; y]) (Some 16%Z) = hex_value x y.
Proof.
  intros Hx Hy. unfold parseInt, parseInt_Z, hex_value. rewrite list_of_str.
  pose proof (is_hex_code x Hx) as Cx. pose proof (is_hex_code y Hy) as Cy.
  assert (Hsp : skip is_space [x; y] = [x; y]).
  { unfold skip. simpl.
    assert (is_space x = false) as ->; [|reflexivity].
    unfold is_space, in_range.
    apply orb_false_intro; [apply orb_false_intro|].
    - apply andb_false_intro2, N.leb_gt. lia.
    - apply N.eqb_neq. lia.
    - apply N.eqb_neq. lia. }
  rewrite Hsp.
  assert (Hsg : take_sign [x; y] = (false, [x; y])).
  { unfold take_sign. rewrite !eqb_code; [reflexivity| |]; cbn; lia. }
  rewrite Hsg.
  assert (H0x : strip_0x [x; y] = None).
  { unfold strip_0x. rewrite (eqb_code y "x"), (eqb_code y "X");
      [|cbn; lia|cbn; lia].
    rewrite andb_false_r. reflexivity. }
  rewrite H0x.
  assert (Hspan : span (is_radix_digit 16) [x; y] = ([x; y], [])).
  { apply span_all. simpl. rewrite !is_hex_radix16 by assumption. reflexivity. }
  cbn -[span is_radix_digit digits_val Z.mul Z.add].
  rewrite Hspan. cbn [fst digits_val fold_left].
  f_equal. f_equal. lia.
Qed.

Lemma match_rgb_hex_text (ds : chars) : match_rgb (hex_text ds) = None.
Proof. unfold match_rgb, hex_text. rewrite list_of_str. reflexivity. Qed.

Lemma match_rgba_hex_text (ds : chars) : match_rgba (hex_text ds) = None.
Proof. unfold match_rgba, hex_text. rewrite list_of_str. reflexivity. Qed.

Lemma assoc_hex_text (ds : chars) : assoc (hex_text ds) colorNames = None.
Proof. reflexivity. Qed.

Lemma match_hex_3 (r g b : ascii) :
  is_hex r = true -> is_hex g = true -> is_hex b = true ->
  match_hex (hex_text [r; g; b]) = Some ["#"%char; r; g; b].
Proof.
  intros Hr Hg Hb. unfold match_hex, hex_text. rewrite list_of_str.
  cbn [lits list_ascii_of_string lit Ascii.eqb Bool.eqb mbind option_bind hex3].
  rewrite Hr, Hg, Hb. reflexivity.
Qed.

Lemma match_hex_6 (r1 r2 g1 g2 b1 b2 : ascii) :
  forallb is_hex [r1; r2; g1; g2; b1; b2] = true ->
  match_hex (hex_text [r1; r2; g1; g2; b1; b2])
  = Some ["#"%char; r1; r2; g1; g2; b1; b2].
Proof.
  intros Hall. unfold match_hex, hex_text. rewrite list_of_str.
  cbn [forallb] in Hall.
  repeat (apply andb_prop in Hall as [? Hall]).
  cbn [lits list_ascii_of_string lit Ascii.eqb Bool.eqb mbind option_bind hex3].
  repeat match goal with H : is_hex _ = true |- _ => rewrite H end.
  cbn [andb at_end mbind option_bind hex3].
  repeat match goal with H : is_hex _ = true |- _ => rewrite H end.
  reflexivity.
Qed.

(** [#RGB]: every digit is doubled, alpha is 1. *)
Lemma parseColor_hex3 (cv : Canvas) (color : string) (r g b : ascii) :
  getContext2d cv = true ->
  fillStyle cv color = hex_text [r; g; b] ->
  pixelAlpha cv color <> 0%Z ->
  is_hex r = true -> is_hex g = true -> is_hex b = true ->
  parseColor cv color =
  Some [hex_value r r; hex_value g g; hex_value b b; JNum 1].
Proof.
  intros Hctx Hfill Hpx Hr Hg Hb. unfold parseColor.
  rewrite Hctx, Hfill. cbn [negb]. apply Z.eqb_neq in Hpx. rewrite Hpx.
  rewrite match_rgb_hex_text, match_rgba_hex_text, match_hex_3 by assumption.
  cbn [skipn length Nat.eqb double_chars flat_map app substring firstn
       Nat.sub].
  rewrite !parseInt_hex2 by assumption. reflexivity.
Qed.

(** [#RRGGBB]: three bytes, alpha is 1. *)
Lemma parseColor_hex6 (cv : Canvas) (color : string)
    (r1 r2 g1 g2 b1 b2 : ascii) :
  getContext2d cv = true ->
  fillStyle cv color = hex_text [r1; r2; g1; g2; b1; b2] ->
  pixelAlpha cv color <> 0%Z ->
  forallb is_hex [r1; r2; g1; g2; b1; b2] = true ->
  parseColor cv color =
  Some [hex_value r1 r2; hex_value g1 g2; hex_value b1 b2; JNum 1].
Proof.
  intros Hctx Hfill Hpx Hall. unfold parseColor.
  rewrite Hctx, Hfill. cbn [negb]. apply Z.eqb_neq in Hpx. rewrite Hpx.
  rewrite match_rgb_hex_text, match_rgba_hex_text, match_hex_6 by assumption.
  cbn [forallb] in Hall.
  repeat (apply andb_prop in Hall as [? Hall]).
  cbn [skipn length Nat.eqb substring firstn Nat.sub].
  rewrite !parseInt_hex2 by assumption. reflexivity.
Qed.

(** C6.  A text [#RGBA] or [#RRGGBBAA] is not matched by the hexadecimal
    pattern, which admits three or six digits only: read back as it is, it
    is not a colour. *)
Theorem parseColor_hex_alpha_forms_rejected (cv : Canvas) (color : string)
    (ds : chars) :
  getContext2d cv = true ->
  fillStyle cv color = hex_text ds ->
  pixelAlpha cv color <> 0%Z ->
  forallb is_hex ds = true ->
  length ds = 4%nat \/ length ds = 8%nat ->
  parseColor cv color = None.
Proof.
  intros Hctx Hfill Hpx Hall Hlen. unfold parseColor.
  rewrite Hctx, Hfill. cbn [negb]. apply Z.eqb_neq in Hpx. rewrite Hpx.
  rewrite match_rgb_hex_text, match_rgba_hex_text.
  assert (Hhex : match_hex (hex_text ds) = None).
  { unfold match_hex, hex_text. rewrite list_of_str.
    destruct Hlen as [Hlen|Hlen];
      repeat (destruct ds as [|? ds]; try discriminate Hlen);
      cbn [forallb] in Hall; repeat (apply andb_prop in Hall as [? Hall]);
      repeat (cbn [lits list_ascii_of_string lit Ascii.eqb Bool.eqb mbind
                   option_bind hex3 andb at_end];
              repeat match goal with
                     | H : is_hex _ = true |- _ => rewrite H
                     end);
      reflexivity. }
  rewrite Hhex, assoc_hex_text. reflexivity.
Qed.

Lemma parseColor_hex8_example :
  parseColor echo "#aabbccdd" = None.
Proof.
  apply (parseColor_hex_alpha_forms_rejected echo "#aabbccdd"
           (list_ascii_of_string "aabbccdd"));
    try reflexivity; try discriminate.
  right. reflexivity.
Defined.

End Resolver.

(** ** The OKLCH pipeline of the earlier revision *)

Section Oklch.

Import Color Texts Legacy.

Lemma jdiv_num (a b : R) : b <> 0%R -> jdiv (JNum a) (JNum b) = JNum (a / b).
Proof.
  intros Hb. unfold jdiv. destruct (Req_dec_T b 0); [contradiction|reflexivity].
Qed.

Lemma radians_num (h : R) :
  radians (JNum h) = JNum (h * Rtrigo1.PI / 180).
Proof. unfold radians, jPI. cbn [jmul]. apply jdiv_num. lra. Qed.





(** A hue that is NaN gives [a = b = 0]. *)
Lemma oklch2oklab_nan_hue (l c : jsnum) :
  oklch2oklab [l; c; JNaN] = [l; JNum 0; JNum 0].
Proof. reflexivity. Qed.




















End Oklch.

(** ** The numeric pattern *)

Section Numeric.

Import Color Texts Anim.

Lemma span_stops (p : ascii -> bool) (ds rest : chars) :
  forallb p ds = true -> stops p rest -> span p (ds ++ rest) = (ds, rest).
Proof.
  intros Hds Hrest. destruct rest as [|c rest].
  - rewrite app_nil_r. apply span_all, Hds.
  - apply span_stop; assumption.
Qed.

Lemma many1_stops (p : ascii -> bool) (ds rest : chars) :
  ds <> [] -> forallb p ds = true -> stops p rest ->
  many1 p (ds ++ rest) = Some (ds, rest).
Proof.
  intros Hne Hds Hrest. unfold many1. rewrite span_stops by assumption.
  destruct ds; [contradiction|reflexivity].
Qed.

Lemma lower_pct_not_digit (c : ascii) :
  is_lower_pct c = true -> is_digit c = false.
Proof.
  unfold is_lower_pct, is_lower, is_digit, in_range. intros H.
  apply orb_prop in H as [H|H].
  - apply andb_prop in H as [H _]. apply N.leb_le in H.
    apply andb_false_intro2. apply N.leb_gt. lia.
  - apply N.eqb_eq in H. apply andb_false_intro1. apply N.leb_gt. lia.
Qed.

Lemma lower_pct_not_dot (c : ascii) :
  is_lower_pct c = true -> Ascii.eqb "."%char c = false.
Proof.
  unfold is_lower_pct, is_lower, in_range. intros H.
  apply eqb_code. cbn. apply orb_prop in H as [H|H].
  - apply andb_prop in H as [H _]. apply N.leb_le in H. lia.
  - apply N.eqb_eq in H. lia.
Qed.

Lemma unit_stops_digit (u : chars) : unit_chars u -> stops is_digit u.
Proof.
  destruct u as [|c u]; [exact (fun _ => I)|]. unfold unit_chars. simpl.
  intros H. apply andb_prop in H as [H _]. apply lower_pct_not_digit, H.
Qed.

(** Every text of the shape [-?], digits, optional fraction, unit matches
    the numeric pattern. *)
Lemma isNumeric_text (negative : bool) (i : chars) (f : option chars)
    (u : chars) :
  digits i -> match f with Some f => digits f | None => True end ->
  unit_chars u ->
  isNumeric (numeric_text negative i f u) = true.
Proof.
  intros [Hne Hi] Hf Hu. unfold isNumeric, numeric_text. rewrite list_of_str.
  set (rest := match f with Some f0 => "."%char :: f0 | None => [] end ++ u).
  assert (Hs0 : match lits "-" ((if negative then ["-"%char] else []) ++ i ++ rest)
                with Some r => r | None =>
                  (if negative then ["-"%char] else []) ++ i ++ rest end
                = i ++ rest).
  { destruct negative; [reflexivity|]. cbn [app].
    destruct i as [|d i]; [contradiction|]. simpl in Hi.
    apply andb_prop in Hi as [Hd _]. apply is_digit_code in Hd.
    unfold lits. cbn [list_ascii_of_string lit app].
    rewrite eqb_code; [reflexivity|]. cbn. lia. }
  rewrite Hs0.
  assert (Hrest : stops is_digit rest).
  { subst rest. destruct f as [f|]; [reflexivity|]. cbn [app].
    apply unit_stops_digit, Hu. }
  rewrite many1_stops by assumption.
  assert (Hs2 : match lits "." rest with
                | Some r => match many1 is_digit r with
                            | Some (_, r') => r'
                            | None => rest
                            end
                | None => rest
                end = u).
  { subst rest. destruct f as [f|].
    - destruct Hf as [Hnf Hf]. unfold lits.
      cbn [list_ascii_of_string lit app Ascii.eqb Bool.eqb].
      rewrite many1_stops; [reflexivity|assumption|assumption|].
      apply unit_stops_digit, Hu.
    - cbn [app]. destruct u as [|c u]; [reflexivity|].
      unfold unit_chars in Hu. simpl in Hu. apply andb_prop in Hu as [Hc _].
      unfold lits. cbn [list_ascii_of_string lit].
      rewrite (lower_pct_not_dot c Hc). reflexivity. }
  rewrite Hs2. unfold skip. rewrite span_all by exact Hu. reflexivity.
Qed.

Lemma rev_head_in {A : Type} (l : list A) :
  l <> [] -> exists c l', rev l = c :: l' /\ In c l.
Proof.
  intros Hne. destruct (rev l) as [|c l'] eqn:E.
  - exfalso. apply Hne. rewrite <- (rev_involutive l), E. reflexivity.
  - exists c, l'. split; [reflexivity|]. apply in_rev. rewrite E.
    left. reflexivity.
Qed.

Lemma digit_not_alpha_pct (c : ascii) :
  is_digit c = true -> is_alpha_pct c = false.
Proof.
  intros H. apply is_digit_code in H.
  unfold is_alpha_pct, is_lower, is_upper, in_range.
  repeat match goal with
         | |- context [(?a <=? ?b)%N] =>
             destruct (N.leb_spec a b); cbn [andb orb]
         end; try lia; apply N.eqb_neq; lia.
Qed.

(** The unit the code reads off such a text is its unit. *)
Lemma unit_suffix_text (negative : bool) (i : chars) (f : option chars)
    (u : chars) :
  digits i -> match f with Some f => digits f | None => True end ->
  unit_chars u ->
  unit_suffix (numeric_text negative i f u) = str u.
Proof.
  intros [Hne Hi] Hf Hu. unfold unit_suffix, numeric_text.
  rewrite list_of_str, !app_assoc, rev_app_distr.
  set (pre := ((if negative then ["-"%char] else []) ++ i)
              ++ match f with Some f0 => "."%char :: f0 | None => [] end).
  assert (Hpre : stops is_alpha_pct (rev pre)).
  { assert (Hlast : exists c l', rev pre = c :: l' /\ is_digit c = true).
    { subst pre. destruct f as [f|].
      - destruct Hf as [Hnf Hf].
        change ("."%char :: f) with (["."%char] ++ f).
        rewrite app_assoc, rev_app_distr.
        destruct (rev_head_in f Hnf) as (c & l' & -> & Hin).
        exists c. eexists. split; [reflexivity|].
        rewrite forallb_forall in Hf. apply Hf, Hin.
      - rewrite app_nil_r, rev_app_distr.
        destruct (rev_head_in i Hne) as (c & l' & -> & Hin).
        exists c. eexists. split; [reflexivity|].
        rewrite forallb_forall in Hi. apply Hi, Hin. }
    destruct Hlast as (c & l' & -> & Hc). apply digit_not_alpha_pct, Hc. }
  rewrite span_stops; [cbn [fst]; rewrite rev_involutive; reflexivity| |exact Hpre].
  apply forallb_forall. intros x Hx. apply in_rev in Hx.
  unfold unit_chars in Hu. rewrite forallb_forall in Hu.
  specialize (Hu x Hx). unfold is_alpha_pct. unfold is_lower_pct in Hu.
  apply orb_prop in Hu as [H|H]; rewrite H; [reflexivity|].
  rewrite orb_true_r. reflexivity.
Qed.

Lemma span_spec (p : ascii -> bool) (s a b : chars) :
  span p s = (a, b) -> s = a ++ b /\ forallb p a = true /\ stops p b.
Proof.
  revert a b. induction s as [|c s IH]; intros a b H; simpl in H.
  - injection H as <- <-. repeat split.
  - destruct (p c) eqn:Hc.
    + destruct (span p s) as [a' b'] eqn:E. injection H as <- <-.
      destruct (IH a' b' eq_refl) as (-> & Ha & Hb).
      repeat split; [|exact Hb]. simpl. rewrite Hc, Ha. reflexivity.
    + injection H as <- <-. repeat split. exact Hc.
Qed.

Lemma many1_spec (p : ascii -> bool) (s a b : chars) :
  many1 p s = Some (a, b) ->
  s = a ++ b /\ a <> [] /\ forallb p a = true /\ stops p b.
Proof.
  unfold many1. destruct (span p s) as [a' b'] eqn:E.
  destruct (span_spec p s a' b' E) as (Hs & Ha & Hb).
  destruct a' as [|c a']; [discriminate|]. intros H. injection H as <- <-.
  repeat split; try assumption. discriminate.
Qed.

Lemma lits_dot (s r : chars) : lits "." s = Some r -> s = "."%char :: r.
Proof.
  unfold lits. cbn [list_ascii_of_string lit]. destruct s as [|c s]; [discriminate|].
  destruct (Ascii.eqb "." c) eqn:E; [|discriminate].
  apply Ascii.eqb_eq in E. subst c. intros H. injection H as <-. reflexivity.
Qed.

Lemma lits_minus (s r : chars) : lits "-" s = Some r -> s = "-"%char :: r.
Proof.
  unfold lits. cbn [list_ascii_of_string lit]. destruct s as [|c s]; [discriminate|].
  destruct (Ascii.eqb "-" c) eqn:E; [|discriminate].
  apply Ascii.eqb_eq in E. subst c. intros H. injection H as <-. reflexivity.
Qed.

(** What the pattern accepts after the optional sign. *)
Lemma numeric_tail (s0 : chars) :
  match many1 is_digit s0 with
  | None => false
  | Some (_, s1) =>
      let s2 :=
        match lits "." s1 with
        | Some r => match many1 is_digit r with Some (_, r') => r' | None => s1 end
        | None => s1
        end in
      at_end (skip is_lower_pct s2)
  end = true ->
  exists (i : chars) (f : option chars) (u : chars),
    digits i /\ match f with Some f => digits f | None => True end /\
    unit_chars u /\
    s0 = i ++ match f with Some f => "."%char :: f | None => [] end ++ u.
Proof.
  destruct (many1 is_digit s0) as [[i s1]|] eqn:Hi; [|discriminate].
  apply many1_spec in Hi as (-> & Hne & Hi & _). cbn zeta.
  assert (Hu : forall s2, at_end (skip is_lower_pct s2) = true -> unit_chars s2).
  { intros s2 H. unfold skip in H.
    destruct (span is_lower_pct s2) as [a b] eqn:E.
    apply span_spec in E as (-> & Ha & _). cbn [snd] in H.
    destruct b; [|discriminate]. rewrite app_nil_r. exact Ha. }
  destruct (lits "." s1) as [r|] eqn:Hdot.
  - apply lits_dot in Hdot. subst s1.
    destruct (many1 is_digit r) as [[f r']|] eqn:Hf.
    + apply many1_spec in Hf as (-> & Hnf & Hf & _). intros H.
      exists i, (Some f), r'. repeat split; try assumption. apply Hu, H.
    + intros H. apply Hu in H. exists i, None, ("."%char :: r).
      repeat split; assumption.
  - intros H. exists i, None, s1. repeat split; try assumption. apply Hu, H.
Qed.

(** Every text the numeric pattern matches has the shape [-?], digits,
    optional fraction, unit. *)
Lemma isNumeric_shape (s : string) : isNumeric s = true -> numeric s.
Proof.
  unfold isNumeric, numeric, numeric_text. intros H.
  rewrite <- (string_of_list_ascii_of_string s).
  destruct (lits "-" (list_ascii_of_string s)) as [r|] eqn:Hsign.
  - apply lits_minus in Hsign. rewrite Hsign.
    destruct (numeric_tail r H) as (i & f & u & Hi & Hf & Hu & ->).
    exists true, i, f, u. split; [exact Hi|]. split; [exact Hf|].
    split; [exact Hu|reflexivity].
  - destruct (numeric_tail _ H) as (i & f & u & Hi & Hf & Hu & ->).
    exists false, i, f, u. split; [exact Hi|]. split; [exact Hf|].
    split; [exact Hu|reflexivity].
Qed.

Lemma forallb_rev (p : ascii -> bool) (l : chars) :
  forallb p l = true -> forallb p (rev l) = true.
Proof.
  intros H. apply forallb_forall. intros x Hx. apply in_rev in Hx.
  rewrite forallb_forall in H. apply H, Hx.
Qed.

(** [trim] takes the white space off both ends, and nothing else. *)
Lemma trim_padded (lead core trail : chars) :
  spaces lead -> spaces trail ->
  stops is_space core -> stops is_space (rev core) ->
  trim (str (lead ++ core ++ trail)) = str core.
Proof.
  intros Hl Ht Hc Hr. unfold trim, skip. rewrite list_of_str.
  destruct core as [|c core].
  - cbn [app]. rewrite (span_all is_space (lead ++ trail)).
    + reflexivity.
    + unfold spaces in *. rewrite forallb_app, Hl, Ht. reflexivity.
  - rewrite (span_stops is_space lead ((c :: core) ++ trail));
      [|exact Hl|exact Hc]. cbn [snd].
    rewrite rev_app_distr, (span_stops is_space (rev trail) (rev (c :: core)));
      [|apply forallb_rev, Ht|].
    + cbn [snd]. rewrite rev_involutive. reflexivity.
    + exact Hr.
Qed.

End Numeric.


(** ** Classification and interpolation *)

Section Plans.

Import Color Anim AnimSpec.

Local Opaque parseColor parseFloat.

Lemma obj_get_set_eq {A : Type} (k : string) (v : A) (o : obj A) :
  obj_get k (obj_set k v o) = Some v.
Proof.
  unfold obj_get. induction o as [|[k' v'] o IH]; simpl.
  - rewrite String.eqb_refl. reflexivity.
  - destruct (String.eqb k k') eqn:E; simpl.
    + rewrite String.eqb_refl. reflexivity.
    + rewrite E. exact IH.
Qed.

Lemma obj_get_set_ne {A : Type} (k k' : string) (v : A) (o : obj A) :
  k <> k' -> obj_get k' (obj_set k v o) = obj_get k' o.
Proof.
  intros Hne. unfold obj_get. induction o as [|[k0 v0] o IH]; simpl.
  - apply String.eqb_neq in Hne. rewrite String.eqb_sym, Hne. reflexivity.
  - destruct (String.eqb k k0) eqn:E; simpl.
    + apply String.eqb_eq in E. subst k0.
      apply String.eqb_neq in Hne. rewrite String.eqb_sym, Hne. reflexivity.
    + destruct (String.eqb k' k0); [reflexivity|exact IH].
Qed.

Lemma obj_set_keys {A : Type} (k : string) (v : A) (o : obj A) (x : string) :
  x ∈ map fst (obj_set k v o) <-> x = k \/ x ∈ map fst o.
Proof.
  induction o as [|[k' v'] o IH]; simpl.
  - rewrite list_elem_of_singleton, elem_of_nil. tauto.
  - destruct (String.eqb k k') eqn:E; simpl.
    + apply String.eqb_eq in E. subst k'. rewrite !elem_of_cons. tauto.
    + rewrite !elem_of_cons, IH. tauto.
Qed.

Lemma keys_spec {A : Type} (o : list (string * A)) (x : string) :
  x ∈ keys o <-> x ∈ map fst o.
Proof. unfold keys. apply elem_of_remove_dups. Qed.

Lemma keys_NoDup {A : Type} (o : list (string * A)) : NoDup (keys o).
Proof. unfold keys. apply NoDup_remove_dups. Qed.

(** One iteration of the first loop records the classification of its
    property, computed from the trimmed destination. *)
Lemma plan_prop_plan (h : Host) (w : World) (e : Entry) (p : Plans)
    (prop : string) :
  plans_plan (plan_prop h w e p prop) prop =
  Some (spec_classify (canvas h)
          (getComputedStyle h (styles w) (e_el e) prop)
          (targetVal (e_properties e) prop)).
Proof.
  unfold plans_plan, plan_of, plan_prop, spec_classify, targetVal.
  destruct (parseColor (canvas h) (trim (default "" (assoc prop (e_properties e)))))
    as [tc|];
    destruct (parseColor (canvas h) (getComputedStyle h (styles w) (e_el e) prop))
      as [cc|];
    cbn [startStyles endStyles units];
    try (rewrite !obj_get_set_eq; reflexivity);
    destruct (isNumeric (trim (default "" (assoc prop (e_properties e))))
              && isNumeric (getComputedStyle h (styles w) (e_el e) prop));
    cbn [startStyles endStyles units];
    rewrite !obj_get_set_eq; reflexivity.
Qed.

(** An iteration leaves the plans of the other properties alone. *)
Lemma plan_prop_other (h : Host) (w : World) (e : Entry) (p : Plans)
    (prop prop' : string) :
  prop <> prop' ->
  obj_get prop' (startStyles (plan_prop h w e p prop))
    = obj_get prop' (startStyles p) /\
  obj_get prop' (endStyles (plan_prop h w e p prop))
    = obj_get prop' (endStyles p) /\
  obj_get prop' (units (plan_prop h w e p prop))
    = obj_get prop' (units p).
Proof.
  intros Hne. unfold plan_prop.
  destruct (parseColor (canvas h) (trim (default "" (assoc prop (e_properties e)))))
    as [tc|];
    destruct (parseColor (canvas h) (getComputedStyle h (styles w) (e_el e) prop))
      as [cc|];
    try destruct (isNumeric (trim (default "" (assoc prop (e_properties e))))
                  && isNumeric (getComputedStyle h (styles w) (e_el e) prop));
    cbn [startStyles endStyles units];
    rewrite ?obj_get_set_ne by assumption; repeat split; reflexivity.
Qed.

Lemma plan_prop_keys (h : Host) (w : World) (e : Entry) (p : Plans)
    (prop x : string) :
  x ∈ map fst (endStyles (plan_prop h w e p prop)) <->
  x = prop \/ x ∈ map fst (endStyles p).
Proof.
  unfold plan_prop.
  destruct (parseColor (canvas h) (trim (default "" (assoc prop (e_properties e)))))
    as [tc|];
    destruct (parseColor (canvas h) (getComputedStyle h (styles w) (e_el e) prop))
      as [cc|];
    try destruct (isNumeric (trim (default "" (assoc prop (e_properties e))))
                  && isNumeric (getComputedStyle h (styles w) (e_el e) prop));
    cbn [startStyles endStyles units]; apply obj_set_keys.
Qed.

Lemma plan_fold_other (h : Host) (w : World) (e : Entry) (ks : list string)
    (p : Plans) (prop' : string) :
  prop' ∉ ks ->
  plans_plan (fold_left (plan_prop h w e) ks p) prop' = plans_plan p prop'.
Proof.
  revert p. induction ks as [|k ks IH]; intros p Hnin; [reflexivity|].
  rewrite not_elem_of_cons in Hnin. destruct Hnin as [Hne Hnin].
  simpl. rewrite IH by assumption.
  destruct (plan_prop_other h w e p k prop') as (H1 & H2 & H3); [congruence|].
  unfold plans_plan, plan_of. rewrite H1, H2, H3. reflexivity.
Qed.

Lemma plan_fold_keys (h : Host) (w : World) (e : Entry) (ks : list string)
    (p : Plans) (x : string) :
  x ∈ map fst (endStyles (fold_left (plan_prop h w e) ks p)) <->
  x ∈ ks \/ x ∈ map fst (endStyles p).
Proof.
  revert p. induction ks as [|k ks IH]; intros p; simpl.
  - rewrite elem_of_nil. tauto.
  - rewrite IH, plan_prop_keys, elem_of_cons. tauto.
Qed.

(** After the loop every property of the request has the plan of its
    classification. *)
Lemma plan_fold_plan (h : Host) (w : World) (e : Entry) (ks : list string)
    (p : Plans) (prop : string) :
  NoDup ks -> prop ∈ ks ->
  plans_plan (fold_left (plan_prop h w e) ks p) prop =
  Some (spec_classify (canvas h)
          (getComputedStyle h (styles w) (e_el e) prop)
          (targetVal (e_properties e) prop)).
Proof.
  revert p. induction ks as [|k ks IH]; intros p Hnd Hin.
  - apply elem_of_nil in Hin. contradiction.
  - apply NoDup_cons in Hnd as [Hk Hnd]. simpl.
    destruct (decide (prop = k)) as [->|Hne].
    + rewrite plan_fold_other by assumption. apply plan_prop_plan.
    + apply elem_of_cons in Hin as [Hin|Hin]; [contradiction|].
      apply IH; assumption.
Qed.

End Plans.

Section StepWrites.

Import Color Anim AnimSpec.

Lemma plan_of_key (s e : obj jsval) (u : obj string) (prop : string) (p : Plan) :
  plan_of s e u prop = Some p -> prop ∈ map fst e.
Proof.
  unfold plan_of, obj_get. intros H.
  assert (He : is_Some (assoc prop e)).
  { destruct (assoc prop s) as [[]|]; destruct (assoc prop e) as [[]|];
      try discriminate; eexists; reflexivity. }
  clear H. destruct He as [v He].
  induction e as [|[k v'] o IH]; simpl in *; [discriminate|].
  destruct (String.eqb prop k) eqn:E.
  - apply String.eqb_eq in E. subst. apply elem_of_cons. left. reflexivity.
  - apply elem_of_cons. right. apply IH, He.
Qed.

(** One iteration of the second loop writes what the interpolator of the
    specification evaluates, or nothing. *)
Lemma step_prop_spec (tk : Task) (raw t : jsnum)
    (sty : gmap (node * string) template) (prop : string) (p : Plan) :
  task_plan tk prop = Some p ->
  step_prop tk raw t sty prop =
  match spec_evaluate p raw t with
  | Some v => <[(e_el (t_entry tk), prop) := v]> sty
  | None => sty
  end.
Proof.
  unfold task_plan, plan_of, step_prop. intros H.
  destruct (obj_get prop (t_startStyles tk)) as [[| s | s | s]|];
    destruct (obj_get prop (t_endStyles tk)) as [[| e | e | e]|];
    try discriminate; injection H as <-; cbn [spec_evaluate];
    try reflexivity.
  - destruct (jeq raw (JNum 1)); reflexivity.
Qed.

Lemma step_prop_other (tk : Task) (raw t : jsnum)
    (sty : gmap (node * string) template) (prop : string)
    (k : node * string) :
  k <> (e_el (t_entry tk), prop) ->
  step_prop tk raw t sty prop !! k = sty !! k.
Proof.
  intros Hne. unfold step_prop.
  destruct (obj_get prop (t_startStyles tk)) as [[| s | s | s]|];
    try destruct (jeq raw (JNum 1));
    rewrite ?lookup_insert_ne by congruence; reflexivity.
Qed.

Lemma writes_other (tk : Task) (raw t : jsnum) (ks : list string)
    (sty : gmap (node * string) template) (el : node) (prop : string) :
  el <> e_el (t_entry tk) \/ prop ∉ ks ->
  fold_left (step_prop tk raw t) ks sty !! (el, prop) = sty !! (el, prop).
Proof.
  revert sty. induction ks as [|k ks IH]; intros sty H; [reflexivity|].
  simpl. rewrite IH.
  - apply step_prop_other. destruct H as [H|H].
    + congruence.
    + rewrite not_elem_of_cons in H. destruct H as [H _]. congruence.
  - destruct H as [H|H]; [left; exact H|right].
    rewrite not_elem_of_cons in H. tauto.
Qed.

Lemma writes_own (tk : Task) (raw t : jsnum) (ks : list string)
    (sty : gmap (node * string) template) (prop : string) :
  NoDup ks -> prop ∈ ks ->
  fold_left (step_prop tk raw t) ks sty !! (e_el (t_entry tk), prop)
  = step_prop tk raw t sty prop !! (e_el (t_entry tk), prop).
Proof.
  revert sty. induction ks as [|k ks IH]; intros sty Hnd Hin.
  - apply elem_of_nil in Hin. contradiction.
  - apply NoDup_cons in Hnd as [Hk Hnd]. simpl.
    destruct (decide (prop = k)) as [->|Hne].
    + apply writes_other. right. exact Hk.
    + apply elem_of_cons in Hin as [Hin|Hin]; [contradiction|].
      rewrite IH by assumption.
      unfold step_prop at 1 3.
      destruct (obj_get prop (t_startStyles tk)) as [[| s | s | s]|];
        try destruct (jeq raw (JNum 1));
        rewrite ?lookup_insert_eq; try reflexivity;
        apply step_prop_other; congruence.
Qed.

(** [animate] and the start of an entry write no style. *)
Lemma run_entry_styles (h : Host) (w : World) (e : Entry) :
  styles (run_entry h w e) = styles w.
Proof. reflexivity. Qed.

Lemma animate_el_styles (h : Host) (ps : list (string * string)) (d : jsnum)
    (ea : jsnum -> jsnum) (cb : option Callback) (w : World) (el : node) :
  styles (animate_el h ps d ea cb w el) = styles w.
Proof.
  unfold animate_el.
  destruct (queues w !! el); cbn [set_queues queues next_id styles];
    repeat match goal with
           | |- context [if ?b then _ else _] => destruct b
           | |- context [match ?l ++ [?x] with _ => _ end] =>
               destruct (l ++ [x])
           end; reflexivity.
Qed.

Lemma animate_styles (h : Host) (w : World) (c : Call) :
  styles (animate h w c) = styles w.
Proof.
  destruct c as [targets ps d ea cb]. unfold animate.
  revert w. induction targets as [|el targets IH]; intros w; [reflexivity|].
  simpl. rewrite IH. apply animate_el_styles.
Qed.

Lemma animate_calls_styles (h : Host) (cs : list Call) (w : World) :
  styles (fold_left (animate h) cs w) = styles w.
Proof.
  revert w. induction cs as [|c cs IH]; intros w; [reflexivity|].
  simpl. rewrite IH. apply animate_styles.
Qed.

Lemma invoke_styles (h : Host) (w : World) (e : Entry) :
  styles (invoke h w e) = styles w.
Proof.
  unfold invoke. destruct (e_callback e); [|reflexivity].
  rewrite animate_calls_styles. reflexivity.
Qed.

Lemma shift_styles (w : World) (el : node) : styles (shift w el) = styles w.
Proof. unfold shift. destruct (queues w !! el) as [[|]|]; reflexivity. Qed.

(** The styles after a step are the styles the second loop leaves. *)
Lemma step_styles (h : Host) (w : World) (tk : Task) (now : jsnum) :
  styles (step h w tk now) =
  fold_left
    (step_prop tk (progress tk now) (e_easing (t_entry tk) (progress tk now)))
    (keys (t_endStyles tk)) (styles w).
Proof.
  unfold step. destruct (jlt (progress tk now) (JNum 1)); [reflexivity|].
  match goal with
  | |- styles (match ?q with _ => _ end) = _ => destruct q as [[|e0 q']|]
  end; rewrite ?run_entry_styles; cbn [emit styles];
    rewrite shift_styles, invoke_styles; reflexivity.
Qed.

End StepWrites.

(** ** Histories *)

Section History.

Import Anim AnimSpec.

Lemma Hist_prefix (l1 l2 : list Event) : Hist (l1 ++ l2) -> Hist l1.
Proof.
  induction l2 as [|ev l2 IH] using rev_ind; intros H.
  - rewrite app_nil_r in H. exact H.
  - rewrite app_assoc in H. inversion H as [E|l ev' Hl Hg E].
    + destruct (l1 ++ l2); discriminate.
    + apply app_inj_tail in E as [-> ->]. apply IH, Hl.
Qed.

Lemma Hist_good (l1 l2 : list Event) (ev : Event) :
  Hist (l1 ++ ev :: l2) -> good l1 ev.
Proof.
  intros H. change (ev :: l2) with ([ev] ++ l2) in H.
  rewrite app_assoc in H. apply Hist_prefix in H.
  inversion H as [E|l ev' Hl Hg E].
  - destruct l1; discriminate.
  - apply app_inj_tail in E as [-> ->]. exact Hg.
Qed.

(** An identity is enqueued once. *)
Lemma enqueue_once (l : list Event) (el el' : node) (i : nat)
    (cb cb' : option nat) :
  Hist l -> EvEnqueue el i cb ∈ l -> EvEnqueue el' i cb' ∈ l ->
  el = el' /\ cb = cb'.
Proof.
  induction 1 as [|l ev Hl IH Hg]; intros H1 H2.
  - apply elem_of_nil in H1. contradiction.
  - apply elem_of_app in H1 as [H1|H1], H2 as [H2|H2].
    + apply IH; assumption.
    + apply list_elem_of_singleton in H2. subst ev.
      specialize (Hg _ H1). simpl in Hg. lia.
    + apply list_elem_of_singleton in H1. subst ev.
      specialize (Hg _ H2). simpl in Hg. lia.
    + apply list_elem_of_singleton in H1, H2. subst ev.
      injection H2 as -> ->. split; reflexivity.
Qed.

(** An entry enqueued in a prefix was enqueued after the entries of
    smaller identity. *)
Lemma enqueue_in_prefix (p s : list Event) (el : node) (i1 i2 : nat)
    (cb1 : option nat) :
  Hist (p ++ s) -> (exists ev, ev ∈ p /\ event_id ev = i2) -> i1 < i2 ->
  EvEnqueue el i1 cb1 ∈ p ++ s -> EvEnqueue el i1 cb1 ∈ p.
Proof.
  intros H (ev & Hev & Hid) Hlt Hin.
  apply elem_of_app in Hin as [Hin|Hin]; [exact Hin|].
  apply list_elem_of_split in Hin as (s1 & s2 & ->).
  rewrite app_assoc in H. apply Hist_good in H. simpl in H.
  assert (Hx : ev ∈ p ++ s1) by (apply elem_of_app; left; exact Hev).
  specialize (H _ Hx). lia.
Qed.

(** A callback is invoked at most once. *)
Lemma callback_once (l : list Event) (i tag : nat) :
  Hist l -> EvCallback i tag ∈ l -> once (EvCallback i tag) l.
Proof.
  intros H Hin. apply list_elem_of_split in Hin as (x & y & ->).
  exists x, y. split; [reflexivity|]. split.
  - apply Hist_good in H. destruct H as [_ H]. apply H.
  - intros Hy. apply list_elem_of_split in Hy as (y1 & y2 & ->).
    change (x ++ EvCallback i tag :: y1 ++ EvCallback i tag :: y2)
      with (x ++ (EvCallback i tag :: y1) ++ EvCallback i tag :: y2) in H.
    rewrite app_assoc in H. apply Hist_good in H. destruct H as [_ H].
    apply (H tag). apply elem_of_app. right. apply elem_of_cons. left.
    reflexivity.
Qed.

(** In a history, when a step of an entry is evaluated, or the entry is
    started, every entry enqueued earlier on the same element has
    completed, and its callback, if it has one, has been invoked, once. *)
Lemma hist_order (l : list Event) (el : node) (i1 i2 : nat)
    (cb1 cb2 : option nat) (l1 l3 : list Event) (ev : Event) :
  Hist l ->
  before (EvEnqueue el i1 cb1) (EvEnqueue el i2 cb2) l ->
  ev = EvStep i2 \/ ev = EvStart i2 ->
  l = l1 ++ ev :: l3 ->
  EvDone i1 ∈ l1 /\
  forall tag, cb1 = Some tag ->
              EvCallback i1 tag ∈ l1 /\ once (EvCallback i1 tag) l.
Proof.
  intros H (a & b & c & Hb) Hev Hl.
  assert (Hlt : i1 < i2).
  { rewrite Hb in H.
    change (a ++ EvEnqueue el i1 cb1 :: b ++ EvEnqueue el i2 cb2 :: c)
      with (a ++ (EvEnqueue el i1 cb1 :: b) ++ EvEnqueue el i2 cb2 :: c) in H.
    rewrite app_assoc in H. apply Hist_good in H. simpl in H.
    apply (H (EvEnqueue el i1 cb1)).
    apply elem_of_app. right. apply elem_of_cons. left. reflexivity. }
  assert (H1 : EvEnqueue el i1 cb1 ∈ l).
  { rewrite Hb. apply elem_of_app. right. apply elem_of_cons. left.
    reflexivity. }
  assert (H2 : EvEnqueue el i2 cb2 ∈ l).
  { rewrite Hb. apply elem_of_app. right. apply elem_of_cons. right.
    apply elem_of_app. right. apply elem_of_cons. left. reflexivity. }
  pose proof H as Hg. rewrite Hl in Hg. apply Hist_good in Hg.
  assert (Hstep : exists el', enqueued l1 el' i2 /\
            forall i, enqueued l1 el' i -> i < i2 -> EvDone i ∈ l1).
  { destruct Hev as [->| ->]; exact Hg. }
  destruct Hstep as (el' & (cb' & Henq) & Hdone).
  assert (Hel : el' = el).
  { assert (Hx : EvEnqueue el' i2 cb' ∈ l).
    { rewrite Hl. apply elem_of_app. left. exact Henq. }
    destruct (enqueue_once l el' el i2 cb' cb2 H Hx H2) as [E _]. exact E. }
  subst el'.
  assert (Hin1 : EvEnqueue el i1 cb1 ∈ l1).
  { apply (enqueue_in_prefix l1 (ev :: l3) el i1 i2 cb1).
    - rewrite <- Hl. exact H.
    - exists (EvEnqueue el i2 cb'). split; [exact Henq|reflexivity].
    - exact Hlt.
    - rewrite <- Hl. exact H1. }
  assert (Hd : EvDone i1 ∈ l1).
  { apply Hdone; [exists cb1; exact Hin1|exact Hlt]. }
  split; [exact Hd|]. intros tag ->.
  apply list_elem_of_split in Hd as (d1 & d2 & Hd).
  assert (Hd1 : Hist (d1 ++ EvDone i1 :: d2)).
  { rewrite <- Hd. apply (Hist_prefix l1 (ev :: l3)). rewrite <- Hl. exact H. }
  pose proof (Hist_good _ _ _ Hd1) as (_ & el0 & cb0 & Hq & Hcb).
  assert (Hq' : EvEnqueue el0 i1 cb0 ∈ l).
  { rewrite Hl, Hd. apply elem_of_app. left. apply elem_of_app. left.
    exact Hq. }
  destruct (enqueue_once l el0 el i1 cb0 (Some tag) H Hq' H1) as [_ E].
  specialize (Hcb tag E).
  assert (Hc1 : EvCallback i1 tag ∈ l1).
  { rewrite Hd. apply elem_of_app. left. exact Hcb. }
  split; [exact Hc1|]. apply callback_once; [exact H|].
  rewrite Hl. apply elem_of_app. left. exact Hc1.
Qed.

End History.

(** ** The invariant of the queues *)

Section Invariant.

Import Color Anim AnimSpec.

Variable h : Host.

Lemma ssorted_snoc (l : list nat) (y : nat) :
  StronglySorted lt l -> Forall (fun x => x < y) l ->
  StronglySorted lt (l ++ [y]).
Proof.
  induction 1 as [|a l Hl IH Ha]; intros Hy; simpl.
  - constructor; constructor.
  - apply Forall_cons in Hy as [Hay Hy]. constructor.
    + apply IH, Hy.
    + apply Forall_app. split; [exact Ha|]. constructor; [exact Hay|constructor].
Qed.

Lemma ssorted_app_l (l k : list nat) :
  StronglySorted lt (l ++ k) -> StronglySorted lt l.
Proof.
  induction l as [|a l IH]; simpl; intros H; [constructor|].
  apply StronglySorted_inv in H as [H Ha]. constructor.
  - apply IH, H.
  - apply Forall_app in Ha as [Ha _]. exact Ha.
Qed.

Lemma head_least (e0 : Entry) (q : list Entry) (e : Entry) :
  StronglySorted lt (map e_id (e0 :: q)) -> e ∈ q -> e_id e0 < e_id e.
Proof.
  simpl. intros H Hin. apply StronglySorted_inv in H as [_ H].
  rewrite Forall_forall in H. apply H.
  apply list_elem_of_In, in_map, list_elem_of_In, Hin.
Qed.

Lemma sorted_entry_eq (q : list Entry) (e e' : Entry) :
  StronglySorted lt (map e_id q) -> e ∈ q -> e' ∈ q -> e_id e = e_id e' ->
  e = e'.
Proof.
  induction q as [|a q IH]; intros Hs He He'; [apply elem_of_nil in He; contradiction|].
  intros Hid. apply elem_of_cons in He as [->|He], He' as [->|He'].
  - reflexivity.
  - pose proof (head_least a q e' Hs He'). lia.
  - pose proof (head_least a q e Hs He). lia.
  - simpl in Hs. apply StronglySorted_inv in Hs as [Hs _].
    apply IH; assumption.
Qed.

(** An identity is held by one entry of one queue. *)
Lemma entry_unique (w : World) (el el' : node) (q q' : list Entry)
    (e e' : Entry) :
  Inv w -> queues w !! el = Some q -> e ∈ q ->
  queues w !! el' = Some q' -> e' ∈ q' -> e_id e = e_id e' ->
  el = el' /\ e = e'.
Proof.
  intros HI Hq He Hq' He' Hid.
  destruct (inv_queue w HI el q e Hq He) as [_ H1].
  destruct (inv_queue w HI el' q' e' Hq' He') as [_ H2].
  rewrite Hid in H1.
  destruct (enqueue_once _ _ _ _ _ _ (inv_hist w HI) H1 H2) as [-> _].
  split; [reflexivity|].
  rewrite Hq in Hq'. injection Hq' as <-.
  apply (sorted_entry_eq q); [apply (inv_sorted w HI el' q Hq)|assumption..].
Qed.

Lemma entry_id_bound (w : World) (el : node) (q : list Entry) (e : Entry) :
  Inv w -> queues w !! el = Some q -> e ∈ q -> e_id e < next_id w.
Proof.
  intros HI Hq He. destruct (inv_queue w HI el q e Hq He) as [_ H1].
  apply (inv_ids w HI) in H1. exact H1.
Qed.

(** A task that is scheduled belongs to the head of a queue, so an entry
    behind the head has none. *)
Lemma tail_not_scheduled (w : World) (el : node) (e0 : Entry)
    (q : list Entry) (e : Entry) (tk : Task) :
  Inv w -> queues w !! el = Some (e0 :: q) -> e ∈ q ->
  tk ∈ scheduled w -> e_id (t_entry tk) <> e_id e.
Proof.
  intros HI Hq He Htk Hid.
  destruct (inv_head w HI tk Htk) as [q' Hq'].
  assert (Hin : e ∈ e0 :: q) by (apply elem_of_cons; right; exact He).
  assert (Hin' : t_entry tk ∈ t_entry tk :: q') by (apply elem_of_cons; left; reflexivity).
  destruct (entry_unique w _ _ _ _ _ _ HI Hq' Hin' Hq Hin Hid) as [Hel Heq].
  rewrite Hel, Hq in Hq'. injection Hq' as -> ->.
  pose proof (head_least _ _ _ (inv_sorted w HI el _ Hq) He). lia.
Qed.

Lemma quiet_snoc (l : list Event) (ev : Event) (i : nat) :
  quiet l i ->
  (forall tag, ev <> EvCallback i tag) -> ev <> EvDone i ->
  quiet (l ++ [ev]) i.
Proof.
  intros [Hc Hd] H1 H2. split.
  - intros tag Hin. apply elem_of_app in Hin as [Hin|Hin].
    + apply (Hc tag Hin).
    + apply list_elem_of_singleton in Hin. apply (H1 tag). congruence.
  - intros Hin. apply elem_of_app in Hin as [Hin|Hin]; [exact (Hd Hin)|].
    apply list_elem_of_singleton in Hin. congruence.
Qed.

Lemma not_in_snoc (l : list Event) (ev x : Event) :
  x ∉ l -> x <> ev -> x ∉ l ++ [ev].
Proof.
  intros H1 H2 Hin. apply elem_of_app in Hin as [Hin|Hin]; [exact (H1 Hin)|].
  apply list_elem_of_singleton in Hin. contradiction.
Qed.

(** When the head of a queue starts or steps, every entry enqueued before
    it on the element has completed. *)
Lemma head_good (w : World) (e : Entry) (q : list Entry) :
  Inv w -> queues w !! e_el e = Some (e :: q) ->
  exists el, enqueued (log w) el (e_id e) /\
             (forall i1, enqueued (log w) el i1 -> i1 < e_id e ->
                         EvDone i1 ∈ log w).
Proof.
  intros HI Hq. exists (e_el e). split.
  - eexists. apply (inv_queue w HI _ _ e Hq). apply elem_of_cons. left.
    reflexivity.
  - intros i1 [cb Hin] Hlt.
    destruct (inv_enq w HI _ _ _ Hin) as [(q' & e' & Hq' & He' & Hid)|Hd];
      [|exact Hd].
    rewrite Hq in Hq'. injection Hq' as <-.
    apply elem_of_cons in He' as [->|He']; [lia|].
    pose proof (head_least _ _ _ (inv_sorted w HI _ _ Hq) He'). lia.
Qed.

(** The task that starting an entry creates animates properties of the
    request only. *)
Lemma run_entry_task_wf (w : World) (e : Entry) :
  exists tk, raf (run_entry h w e) = raf w ++ [tk] /\
             t_entry tk = e /\ t_startTime tk = clock w /\ task_wf tk.
Proof.
  eexists. split; [reflexivity|]. cbn [t_entry t_startTime].
  split; [reflexivity|]. split; [reflexivity|].
  unfold task_wf. cbn [t_endStyles t_entry]. intros x Hx.
  apply plan_fold_keys in Hx as [Hx|Hx].
  - apply keys_spec, Hx.
  - apply elem_of_nil in Hx. contradiction.
Qed.

Lemma Inv_run_entry (w : World) (e : Entry) (q : list Entry) :
  Inv w -> queues w !! e_el e = Some (e :: q) ->
  (forall tk, tk ∈ scheduled w -> task_el tk <> e_el e) ->
  quiet (log w) (e_id e) ->
  Inv (run_entry h w e).
Proof.
  intros HI Hq Hfree Hquiet.
  destruct (run_entry_task_wf w e) as (tk & Hraf & Htk & _ & Hwf).
  assert (Hlog : log (run_entry h w e) = log w ++ [EvStart (e_id e)])
    by reflexivity.
  assert (Hqs : queues (run_entry h w e) = queues w) by reflexivity.
  assert (Hnid : next_id (run_entry h w e) = next_id w) by reflexivity.
  assert (Hsch : forall x, x ∈ scheduled (run_entry h w e) <->
                           x ∈ scheduled w \/ x = tk).
  { intros x. unfold scheduled. rewrite Hraf.
    change (batch (run_entry h w e)) with (batch w).
    rewrite !elem_of_app, list_elem_of_singleton. tauto. }
  assert (Hhead : e ∈ e :: q) by (apply elem_of_cons; left; reflexivity).
  constructor.
  - rewrite Hlog. constructor; [apply (inv_hist w HI)|].
    apply (head_good w e q HI Hq).
  - rewrite Hlog, Hnid. intros ev Hev. apply elem_of_app in Hev as [Hev|Hev].
    + apply (inv_ids w HI ev Hev).
    + apply list_elem_of_singleton in Hev. subst ev. simpl.
      apply (entry_id_bound w _ _ e HI Hq Hhead).
  - rewrite Hqs. apply (inv_sorted w HI).
  - rewrite Hqs, Hlog. intros el q' e' Hq' He'.
    destruct (inv_queue w HI el q' e' Hq' He') as [H1 H2].
    split; [exact H1|]. apply elem_of_app. left. exact H2.
  - rewrite Hqs, Hlog. intros el i cb Hin.
    apply elem_of_app in Hin as [Hin|Hin].
    + destruct (inv_enq w HI el i cb Hin) as [H1|H1]; [left; exact H1|].
      right. apply elem_of_app. left. exact H1.
    + apply list_elem_of_singleton in Hin. discriminate.
  - rewrite Hqs. intros x Hx. apply Hsch in Hx as [Hx| ->].
    + apply (inv_head w HI x Hx).
    + unfold task_el. rewrite Htk. exists q. exact Hq.
  - unfold scheduled. rewrite Hraf.
    change (batch (run_entry h w e)) with (batch w).
    rewrite app_assoc, map_app. apply NoDup_app. split; [apply (inv_one w HI)|].
    split; [|apply NoDup_singleton].
    intros x Hx Hx'. apply list_elem_of_singleton in Hx'. simpl in Hx'.
    apply list_elem_of_In, in_map_iff in Hx as (tk' & Hel & Hin').
    apply list_elem_of_In in Hin'. apply (Hfree tk' Hin').
    unfold task_el in *. rewrite Hel, Hx', Htk. reflexivity.
  - rewrite Hlog. intros x Hx. apply quiet_snoc; try discriminate.
    apply Hsch in Hx as [Hx| ->].
    + apply (inv_quiet_sched w HI x Hx).
    + rewrite Htk. exact Hquiet.
  - rewrite Hqs, Hlog. intros el e0 q' e' Hq' He'.
    destruct (inv_quiet_tail w HI el e0 q' e' Hq' He') as (H1 & H2 & H3).
    split; [apply quiet_snoc; [exact H1|discriminate..]|].
    split; [|apply not_in_snoc; [exact H3|discriminate]].
    apply not_in_snoc; [exact H2|]. intros E. injection E as E.
    assert (Hin : e' ∈ e0 :: q') by (apply elem_of_cons; right; exact He').
    destruct (entry_unique w _ _ _ _ _ _ HI Hq' Hin Hq Hhead E) as [Hel Heq].
    subst e'. rewrite Hel, Hq in Hq'. injection Hq' as -> ->.
    pose proof (head_least _ _ _ (inv_sorted w HI _ _ Hq) He'). lia.
  - intros x Hx. apply Hsch in Hx as [Hx| ->]; [apply (inv_wf w HI x Hx)|].
    exact Hwf.
Qed.

Lemma animate_el_pushed (ps : list (string * string)) (d : jsnum)
    (ea : jsnum -> jsnum) (cb : option Callback) (w : World) (el : node) :
  animate_el h ps d ea cb w el =
  match default [] (queues w !! el) with
  | [] => run_entry h (pushed ps d ea cb w el).1 (pushed ps d ea cb w el).2
  | _ :: _ => (pushed ps d ea cb w el).1
  end.
Proof.
  unfold animate_el, pushed.
  destruct (queues w !! el) as [q|] eqn:Hq.
  - rewrite Hq. simpl. destruct q as [|e0 q]; [reflexivity|].
    simpl. destruct (q ++ _) eqn:E; [destruct q; discriminate|reflexivity].
  - cbn [set_queues queues next_id]. rewrite lookup_insert_eq. simpl.
    rewrite !insert_insert_eq. reflexivity.
Qed.

Lemma Inv_pushed (ps : list (string * string)) (d : jsnum)
    (ea : jsnum -> jsnum) (cb : option Callback) (w : World) (el : node) :
  Inv w -> Inv (pushed ps d ea cb w el).1.
Proof.
  intros HI. unfold pushed. cbn [fst].
  set (e := {| e_id := next_id w; e_el := el; e_properties := ps;
               e_duration := d; e_easing := ea; e_callback := cb |}).
  set (q := default [] (queues w !! el)).
  assert (Hq : forall x, x ∈ q -> queues w !! el = Some q).
  { intros x Hx. subst q. destruct (queues w !! el); [reflexivity|].
    apply elem_of_nil in Hx. contradiction. }
  assert (Hlook : forall el' q', <[el := q ++ [e]]> (queues w) !! el' = Some q' ->
            (el' = el /\ q' = q ++ [e]) \/ (el' <> el /\ queues w !! el' = Some q')).
  { intros el' q' H. destruct (decide (el = el')) as [<-|Hne].
    - rewrite lookup_insert_eq in H. injection H as <-. left. split; reflexivity.
    - rewrite lookup_insert_ne in H by assumption. right. split; congruence. }
  constructor; cbn [log next_id queues scheduled batch raf].
  - constructor; [apply (inv_hist w HI)|]. simpl. apply (inv_ids w HI).
  - intros ev Hev. apply elem_of_app in Hev as [Hev|Hev].
    + pose proof (inv_ids w HI ev Hev). lia.
    + apply list_elem_of_singleton in Hev. subst ev. simpl. lia.
  - intros el' q' H. apply Hlook in H as [[-> ->]|[_ H]];
      [|apply (inv_sorted w HI el' q' H)].
    rewrite map_app. apply ssorted_snoc.
    + destruct q as [|x q0] eqn:E; [constructor|].
      apply (inv_sorted w HI el). apply (Hq x). apply elem_of_cons. left.
      reflexivity.
    + apply Forall_forall. intros x Hx. apply list_elem_of_In in Hx.
      apply in_map_iff in Hx as (e' & <- & He').
      apply list_elem_of_In in He'.
      apply (entry_id_bound w el q e' HI (Hq _ He') He').
  - intros el' q' e' H He'. apply Hlook in H as [[-> ->]|[_ H]].
    + apply elem_of_app in He' as [He'|He'].
      * destruct (inv_queue w HI el q e' (Hq _ He') He') as [H1 H2].
        split; [exact H1|]. apply elem_of_app. left. exact H2.
      * apply list_elem_of_singleton in He'. subst e'. split; [reflexivity|].
        apply elem_of_app. right. apply list_elem_of_singleton. reflexivity.
    + destruct (inv_queue w HI el' q' e' H He') as [H1 H2].
      split; [exact H1|]. apply elem_of_app. left. exact H2.
  - intros el' i cb' Hin. apply elem_of_app in Hin as [Hin|Hin].
    + destruct (inv_enq w HI el' i cb' Hin) as [(q' & e' & Hq' & He' & Hid)|Hd].
      * left. destruct (decide (el = el')) as [<-|Hne].
        -- exists (q ++ [e]), e'. rewrite lookup_insert_eq.
           split; [reflexivity|]. split; [|exact Hid].
           apply elem_of_app. left. subst q. rewrite Hq'. exact He'.
        -- exists q', e'. rewrite lookup_insert_ne by assumption.
           split; [exact Hq'|]. split; assumption.
      * right. apply elem_of_app. left. exact Hd.
    + apply list_elem_of_singleton in Hin. injection Hin as -> -> ->.
      left. exists (q ++ [e]), e. rewrite lookup_insert_eq.
      split; [reflexivity|]. split; [|reflexivity].
      apply elem_of_app. right. apply list_elem_of_singleton. reflexivity.
  - intros tk Htk. destruct (inv_head w HI tk Htk) as [q' Hq'].
    destruct (decide (el = task_el tk)) as [E|Hne].
    + exists (q' ++ [e]). rewrite <- E, lookup_insert_eq.
      subst q. rewrite E, Hq'. reflexivity.
    + exists q'. rewrite lookup_insert_ne by assumption. exact Hq'.
  - apply (inv_one w HI).
  - intros tk Htk. apply quiet_snoc; try discriminate.
    apply (inv_quiet_sched w HI tk Htk).
  - intros el' e0 q' e' H He'. apply Hlook in H as [[-> H]|[_ H]].
    + destruct q as [|x q0] eqn:E.
      * simpl in H. injection H as -> ->. apply elem_of_nil in He'.
        contradiction.
      * simpl in H. injection H as -> ->.
        assert (Hqx : queues w !! el = Some (x :: q0)).
        { apply (Hq x). apply elem_of_cons. left. reflexivity. }
        apply elem_of_app in He' as [He'|He'].
        -- destruct (inv_quiet_tail w HI el x q0 e' Hqx He') as (H1 & H2 & H3).
           split; [apply quiet_snoc; [exact H1|discriminate..]|].
           split; apply not_in_snoc; (assumption || discriminate).
        -- apply list_elem_of_singleton in He'. subst e'. cbn [e_id e].
           assert (Hfresh : forall ev, event_id ev = next_id w ->
                     ev <> EvEnqueue el (next_id w) (cb_tag <$> cb) ->
                     ev ∉ log w ++ [EvEnqueue el (next_id w) (cb_tag <$> cb)]).
           { intros ev Hid Hne. apply not_in_snoc; [|exact Hne]. intros Hin.
             pose proof (inv_ids w HI ev Hin). lia. }
           split; [split; [intros tag|]|split];
             apply Hfresh; (reflexivity || discriminate).
    + destruct (inv_quiet_tail w HI el' e0 q' e' H He') as (H1 & H2 & H3).
      split; [apply quiet_snoc; [exact H1|discriminate..]|].
      split; apply not_in_snoc; (assumption || discriminate).
  - apply (inv_wf w HI).
Qed.

Lemma Inv_animate_el (ps : list (string * string)) (d : jsnum)
    (ea : jsnum -> jsnum) (cb : option Callback) (w : World) (el : node) :
  Inv w -> Inv (animate_el h ps d ea cb w el).
Proof.
  intros HI. rewrite animate_el_pushed.
  pose proof (Inv_pushed ps d ea cb w el HI) as HP.
  destruct (default [] (queues w !! el)) as [|e0 q] eqn:Hq; [|exact HP].
  apply (Inv_run_entry _ _ []); [exact HP| | |].
  - unfold pushed. cbn [fst snd e_el queues]. rewrite Hq, lookup_insert_eq.
    reflexivity.
  - intros tk Htk Hel. unfold pushed in Hel. cbn [fst snd e_el] in Hel.
    destruct (inv_head w HI tk Htk) as [q' Hq'].
    rewrite Hel in Hq'. rewrite Hq' in Hq. discriminate.
  - unfold pushed. cbn [fst snd e_id log].
    assert (Hfresh : forall ev, event_id ev = next_id w ->
              ev <> EvEnqueue el (next_id w) (cb_tag <$> cb) ->
              ev ∉ log w ++ [EvEnqueue el (next_id w) (cb_tag <$> cb)]).
    { intros ev Hid Hne. apply not_in_snoc; [|exact Hne]. intros Hin.
      pose proof (inv_ids w HI ev Hin). lia. }
    split; [intros tag|]; apply Hfresh; (reflexivity || discriminate).
Qed.

Lemma Inv_animate (w : World) (c : Call) : Inv w -> Inv (animate h w c).
Proof.
  destruct c as [targets ps d ea cb]. unfold animate.
  revert w. induction targets as [|el targets IH]; intros w HI; [exact HI|].
  simpl. apply IH, Inv_animate_el, HI.
Qed.

Lemma Inv_animate_calls (cs : list Call) (w : World) :
  Inv w -> Inv (fold_left (animate h) cs w).
Proof.
  revert w. induction cs as [|c cs IH]; intros w HI; [exact HI|].
  simpl. apply IH, Inv_animate, HI.
Qed.

Lemma setup_event_mono (a b : nat) (ev : Event) :
  a <= b -> setup_event b ev -> setup_event a ev.
Proof. destruct ev; simpl; lia. Qed.

Lemma grows_refl (el : node) (w : World) : grows el w w.
Proof.
  constructor; try reflexivity.
  - exists []. rewrite app_nil_r. split; [reflexivity|constructor].
  - intros e q Hq. exists []. rewrite app_nil_r. exact Hq.
  - intros e q Hq tk Htk _. exact Htk.
Qed.

Lemma grows_trans (el : node) (w1 w2 w3 : World) :
  grows el w1 w2 -> grows el w2 w3 -> grows el w1 w3.
Proof.
  intros G1 G2. constructor.
  - rewrite (grows_styles _ _ _ G2). apply (grows_styles _ _ _ G1).
  - rewrite (grows_batch _ _ _ G2). apply (grows_batch _ _ _ G1).
  - pose proof (grows_next _ _ _ G1). pose proof (grows_next _ _ _ G2). lia.
  - destruct (grows_log _ _ _ G1) as (e1 & H1 & F1).
    destruct (grows_log _ _ _ G2) as (e2 & H2 & F2).
    exists (e1 ++ e2). rewrite H2, H1, app_assoc. split; [reflexivity|].
    apply Forall_app. split; [exact F1|].
    eapply Forall_impl; [exact F2|]. intros ev. apply setup_event_mono.
    apply (grows_next _ _ _ G1).
  - intros e q Hq. destruct (grows_queue _ _ _ G1 e q Hq) as [q1 H1].
    destruct (grows_queue _ _ _ G2 e _ H1) as [q2 H2].
    exists (q1 ++ q2). rewrite H2, app_assoc. reflexivity.
  - intros e q Hq tk Htk Hel.
    destruct (grows_queue _ _ _ G1 e q Hq) as [q1 H1].
    apply (grows_sched _ _ _ G1 e q Hq); [|exact Hel].
    apply (grows_sched _ _ _ G2 e _ H1); assumption.
Qed.

Lemma grows_animate_el (el' : node) (ps : list (string * string)) (d : jsnum)
    (ea : jsnum -> jsnum) (cb : option Callback) (w : World) (el : node) :
  grows el' w (animate_el h ps d ea cb w el).
Proof.
  rewrite animate_el_pushed. unfold pushed. cbn [fst snd].
  constructor.
  - destruct (default [] (queues w !! el)); reflexivity.
  - destruct (default [] (queues w !! el)); reflexivity.
  - destruct (default [] (queues w !! el)); cbn [run_entry next_id
      requestAnimationFrame set_raf emit]; lia.
  - destruct (default [] (queues w !! el)).
    + exists [EvEnqueue el (next_id w) (cb_tag <$> cb); EvStart (next_id w)].
      split.
      * cbn [run_entry log requestAnimationFrame set_raf emit e_id].
        rewrite <- app_assoc. reflexivity.
      * repeat constructor.
    + exists [EvEnqueue el (next_id w) (cb_tag <$> cb)].
      split; [reflexivity|]. repeat constructor.
  - intros e q Hq.
    assert (Hx : exists q', <[el := default [] (queues w !! el) ++
                   [{| e_id := next_id w; e_el := el; e_properties := ps;
                       e_duration := d; e_easing := ea; e_callback := cb |}]]>
                 (queues w) !! el' = Some (e :: q ++ q')).
    { destruct (decide (el = el')) as [->|Hne].
      - rewrite lookup_insert_eq, Hq. simpl. eexists. reflexivity.
      - rewrite lookup_insert_ne by assumption. exists [].
        rewrite app_nil_r. exact Hq. }
    destruct (default [] (queues w !! el)); exact Hx.
  - intros e q Hq tk Htk Hel.
    destruct (default [] (queues w !! el)) as [|e0 q0] eqn:E; [|exact Htk].
    unfold scheduled in Htk.
    cbn [run_entry batch raf requestAnimationFrame set_raf emit] in Htk.
    rewrite app_assoc in Htk. apply elem_of_app in Htk as [Htk|Htk];
      [exact Htk|].
    apply list_elem_of_singleton in Htk. subst tk.
    unfold task_el in Hel. cbn [t_entry e_el] in Hel. subst el'.
    rewrite Hq in E. discriminate.
Qed.

Lemma grows_animate (el' : node) (w : World) (c : Call) :
  grows el' w (animate h w c).
Proof.
  destruct c as [targets ps d ea cb]. unfold animate.
  revert w. induction targets as [|el targets IH]; intros w;
    [apply grows_refl|].
  simpl. eapply grows_trans; [apply grows_animate_el|apply IH].
Qed.

Lemma grows_animate_calls (el' : node) (cs : list Call) (w : World) :
  grows el' w (fold_left (animate h) cs w).
Proof.
  revert w. induction cs as [|c cs IH]; intros w; [apply grows_refl|].
  simpl. eapply grows_trans; [apply grows_animate|apply IH].
Qed.

(** Other scheduled tasks belong to other entries than the head [e] of the
    queue of an element on which nothing is scheduled. *)
Lemma other_ids (w : World) (e : Entry) (q : list Entry) :
  Inv w -> queues w !! e_el e = Some (e :: q) ->
  (forall tk, tk ∈ scheduled w -> task_el tk <> e_el e) ->
  (forall tk, tk ∈ scheduled w -> e_id (t_entry tk) <> e_id e) /\
  (forall el e0 q' e', queues w !! el = Some (e0 :: q') -> e' ∈ q' ->
                       e_id e' <> e_id e).
Proof.
  intros HI Hq Hfree.
  assert (Hhead : e ∈ e :: q) by (apply elem_of_cons; left; reflexivity).
  split.
  - intros tk Htk Hid. destruct (inv_head w HI tk Htk) as [q' Hq'].
    assert (Hin : t_entry tk ∈ t_entry tk :: q')
      by (apply elem_of_cons; left; reflexivity).
    destruct (entry_unique w _ _ _ _ _ _ HI Hq' Hin Hq Hhead Hid) as [Hel _].
    apply (Hfree tk Htk Hel).
  - intros el e0 q' e' Hq' He' Hid.
    assert (Hin : e' ∈ e0 :: q') by (apply elem_of_cons; right; exact He').
    destruct (entry_unique w _ _ _ _ _ _ HI Hq' Hin Hq Hhead Hid) as [Hel Heq].
    subst e'. rewrite Hel, Hq in Hq'. injection Hq' as -> ->.
    pose proof (head_least _ _ _ (inv_sorted w HI _ _ Hq) He'). lia.
Qed.

(** Taking the first callback of the batch and recording its step keeps
    the invariant, whatever styles it writes. *)
Lemma Inv_popped (w : World) (tk : Task) (rest : list Task) (now : jsnum)
    (sty : gmap (node * string) template) :
  Inv w -> batch w = tk :: rest ->
  let w2 := set_styles (emit (set_batch w rest now) (EvStep (e_id (t_entry tk))))
              sty in
  Inv w2 /\
  (exists q, queues w2 !! task_el tk = Some (t_entry tk :: q)) /\
  (forall tk', tk' ∈ scheduled w2 -> task_el tk' <> task_el tk) /\
  quiet (log w2) (e_id (t_entry tk)) /\ task_wf tk /\ batch w2 = rest.
Proof.
  intros HI Hb w2.
  assert (Htk : tk ∈ scheduled w).
  { unfold scheduled. rewrite Hb. apply elem_of_cons. left. reflexivity. }
  assert (Hsub : forall x, x ∈ scheduled w2 -> x ∈ scheduled w).
  { intros x Hx. unfold scheduled in *. subst w2.
    cbn [batch raf set_styles emit set_batch] in Hx. rewrite Hb.
    apply elem_of_cons. right. exact Hx. }
  destruct (inv_head w HI tk Htk) as [q Hq].
  pose proof (inv_one w HI) as Hone. unfold scheduled in Hone.
  rewrite Hb in Hone. simpl in Hone. apply NoDup_cons in Hone as [Hnin Hone].
  assert (Hfree : forall tk', tk' ∈ scheduled w2 -> task_el tk' <> task_el tk).
  { intros tk' Hin Hel. apply Hnin. rewrite <- Hel.
    apply list_elem_of_In, in_map, list_elem_of_In. exact Hin. }
  assert (Hothers : forall el e0 q' e', queues w !! el = Some (e0 :: q') ->
            e' ∈ q' -> e_id e' <> e_id (t_entry tk)).
  { intros el e0 q' e' Hq' He' E.
    apply (tail_not_scheduled w el e0 q' e' tk HI Hq' He' Htk). congruence. }
  split; [|split; [exists q; exact Hq|split; [exact Hfree|split; [|split]]]].
  - constructor; subst w2;
      cbn [log next_id queues set_styles emit set_batch] in *.
    + constructor; [apply (inv_hist w HI)|]. apply (head_good w _ q HI Hq).
    + intros ev Hev. apply elem_of_app in Hev as [Hev|Hev].
      * apply (inv_ids w HI ev Hev).
      * apply list_elem_of_singleton in Hev. subst ev. simpl.
        apply (entry_id_bound w _ _ _ HI Hq). apply elem_of_cons. left.
        reflexivity.
    + apply (inv_sorted w HI).
    + intros el q' e' Hq' He'.
      destruct (inv_queue w HI el q' e' Hq' He') as [H1 H2].
      split; [exact H1|]. apply elem_of_app. left. exact H2.
    + intros el i cb Hin. apply elem_of_app in Hin as [Hin|Hin].
      * destruct (inv_enq w HI el i cb Hin) as [H1|H1]; [left; exact H1|].
        right. apply elem_of_app. left. exact H1.
      * apply list_elem_of_singleton in Hin. discriminate.
    + intros x Hx. apply (inv_head w HI x (Hsub x Hx)).
    + exact Hone.
    + intros x Hx. apply quiet_snoc; try discriminate.
      apply (inv_quiet_sched w HI x (Hsub x Hx)).
    + intros el e0 q' e' Hq' He'.
      destruct (inv_quiet_tail w HI el e0 q' e' Hq' He') as (H1 & H2 & H3).
      split; [apply quiet_snoc; [exact H1|discriminate..]|].
      split; [apply not_in_snoc; [exact H2|discriminate]|].
      apply not_in_snoc; [exact H3|]. intros E. injection E as E.
      apply (Hothers el e0 q' e' Hq' He' E).
    + intros x Hx. apply (inv_wf w HI x (Hsub x Hx)).
  - subst w2. cbn [log set_styles emit set_batch].
    apply quiet_snoc; try discriminate. apply (inv_quiet_sched w HI tk Htk).
  - apply (inv_wf w HI tk Htk).
  - reflexivity.
Qed.

(** Registering the step of the head of a queue on which nothing is
    scheduled keeps the invariant. *)
Lemma Inv_schedule (w : World) (tk : Task) (q : list Entry) :
  Inv w -> queues w !! task_el tk = Some (t_entry tk :: q) ->
  (forall tk', tk' ∈ scheduled w -> task_el tk' <> task_el tk) ->
  quiet (log w) (e_id (t_entry tk)) -> task_wf tk ->
  Inv (requestAnimationFrame w tk).
Proof.
  intros HI Hq Hfree Hquiet Hwf.
  assert (Hsch : forall x, x ∈ scheduled (requestAnimationFrame w tk) <->
                           x ∈ scheduled w \/ x = tk).
  { intros x. unfold scheduled.
    cbn [requestAnimationFrame set_raf batch raf].
    rewrite !elem_of_app, list_elem_of_singleton. tauto. }
  constructor; cbn [requestAnimationFrame set_raf log next_id queues].
  - apply (inv_hist w HI).
  - apply (inv_ids w HI).
  - apply (inv_sorted w HI).
  - apply (inv_queue w HI).
  - apply (inv_enq w HI).
  - intros x Hx. apply Hsch in Hx as [Hx| ->].
    + apply (inv_head w HI x Hx).
    + exists q. exact Hq.
  - unfold scheduled. cbn [requestAnimationFrame set_raf batch raf].
    rewrite app_assoc, map_app. apply NoDup_app.
    split; [apply (inv_one w HI)|]. split; [|apply NoDup_singleton].
    intros x Hx Hx'. apply list_elem_of_singleton in Hx'. simpl in Hx'.
    apply list_elem_of_In, in_map_iff in Hx as (tk' & Hel & Hin').
    apply list_elem_of_In in Hin'. apply (Hfree tk' Hin'). congruence.
  - intros x Hx. apply Hsch in Hx as [Hx| ->].
    + apply (inv_quiet_sched w HI x Hx).
    + exact Hquiet.
  - apply (inv_quiet_tail w HI).
  - intros x Hx. apply Hsch in Hx as [Hx| ->]; [apply (inv_wf w HI x Hx)|].
    exact Hwf.
Qed.

(** Recording the callback of the head of a queue on which nothing is
    scheduled keeps the invariant. *)
Lemma Inv_callback (w : World) (e : Entry) (q : list Entry) (c : Callback) :
  Inv w -> queues w !! e_el e = Some (e :: q) ->
  (forall tk, tk ∈ scheduled w -> task_el tk <> e_el e) ->
  quiet (log w) (e_id e) -> e_callback e = Some c ->
  Inv (emit w (EvCallback (e_id e) (cb_tag c))).
Proof.
  intros HI Hq Hfree [Hqc Hqd] Hcb.
  destruct (other_ids w e q HI Hq Hfree) as [Hsched Htail].
  assert (Hhead : e ∈ e :: q) by (apply elem_of_cons; left; reflexivity).
  constructor; cbn [emit log next_id queues].
  - constructor; [apply (inv_hist w HI)|]. split; [|exact Hqc].
    exists (e_el e). destruct (inv_queue w HI _ _ e Hq Hhead) as [_ H].
    rewrite Hcb in H. exact H.
  - intros ev Hev. apply elem_of_app in Hev as [Hev|Hev].
    + apply (inv_ids w HI ev Hev).
    + apply list_elem_of_singleton in Hev. subst ev. simpl.
      apply (entry_id_bound w _ _ e HI Hq Hhead).
  - apply (inv_sorted w HI).
  - intros el q' e' Hq' He'.
    destruct (inv_queue w HI el q' e' Hq' He') as [H1 H2].
    split; [exact H1|]. apply elem_of_app. left. exact H2.
  - intros el i cb Hin. apply elem_of_app in Hin as [Hin|Hin].
    + destruct (inv_enq w HI el i cb Hin) as [H1|H1]; [left; exact H1|].
      right. apply elem_of_app. left. exact H1.
    + apply list_elem_of_singleton in Hin. discriminate.
  - apply (inv_head w HI).
  - apply (inv_one w HI).
  - intros x Hx. apply quiet_snoc; try discriminate.
    + apply (inv_quiet_sched w HI x Hx).
    + intros tag E. injection E as E _. apply (Hsched x Hx). congruence.
  - intros el e0 q' e' Hq' He'.
    destruct (inv_quiet_tail w HI el e0 q' e' Hq' He') as (H1 & H2 & H3).
    split; [|split; apply not_in_snoc; (assumption || discriminate)].
    apply quiet_snoc; [exact H1| |discriminate].
    intros tag E. injection E as E _.
    apply (Htail el e0 q' e' Hq' He'). congruence.
  - apply (inv_wf w HI).
Qed.

(** The state after the completion callback has run: the invariant holds,
    the completing entry is still the head of its queue, nothing is
    scheduled on its element, and it is not recorded as done. *)
Lemma invoke_facts (w : World) (e : Entry) (q : list Entry) :
  Inv w -> queues w !! e_el e = Some (e :: q) ->
  (forall tk, tk ∈ scheduled w -> task_el tk <> e_el e) ->
  quiet (log w) (e_id e) ->
  let w3 := invoke h w e in
  Inv w3 /\
  (exists q', queues w3 !! e_el e = Some (e :: q ++ q')) /\
  (forall tk, tk ∈ scheduled w3 -> task_el tk <> e_el e) /\
  (EvDone (e_id e) ∉ log w3) /\
  (forall tag, cb_tag <$> e_callback e = Some tag ->
               EvCallback (e_id e) tag ∈ log w3) /\
  batch w3 = batch w /\ styles w3 = styles w.
Proof.
  intros HI Hq Hfree Hquiet w3. subst w3. unfold invoke.
  destruct (e_callback e) as [c|] eqn:Hcb.
  - set (w' := emit w (EvCallback (e_id e) (cb_tag c))).
    pose proof (Inv_callback w e q c HI Hq Hfree Hquiet Hcb) as HI'.
    fold w' in HI'.
    pose proof (grows_animate_calls (e_el e) (cb_calls c) w') as G.
    assert (Hq' : queues w' !! e_el e = Some (e :: q)) by exact Hq.
    split; [apply Inv_animate_calls, HI'|].
    split; [apply (grows_queue _ _ _ G e q Hq')|].
    split; [|split; [|split; [|split]]].
    + intros tk Htk Hel.
      apply (Hfree tk); [|exact Hel].
      apply (grows_sched _ _ _ G e q Hq' tk Htk Hel).
    + destruct (grows_log _ _ _ G) as (evs & -> & Hevs).
      intros Hin. apply elem_of_app in Hin as [Hin|Hin].
      * subst w'. cbn [emit log] in Hin.
        apply elem_of_app in Hin as [Hin|Hin].
        -- destruct Hquiet as [_ Hd]. exact (Hd Hin).
        -- apply list_elem_of_singleton in Hin. discriminate.
      * rewrite Forall_forall in Hevs. apply (Hevs _ Hin).
    + intros tag Htag. injection Htag as <-.
      destruct (grows_log _ _ _ G) as (evs & -> & _).
      apply elem_of_app. left. subst w'. cbn [emit log].
      apply elem_of_app. right. apply list_elem_of_singleton. reflexivity.
    + apply (grows_batch _ _ _ G).
    + apply (grows_styles _ _ _ G).
  - split; [exact HI|]. split; [exists []; rewrite app_nil_r; exact Hq|].
    split; [exact Hfree|]. split; [apply Hquiet|].
    split; [intros tag Htag; discriminate|]. split; reflexivity.
Qed.

(** Removing the completed head and recording its completion keeps the
    invariant. *)
Lemma Inv_done (w : World) (e : Entry) (q : list Entry) :
  Inv w -> queues w !! e_el e = Some (e :: q) ->
  (forall tk, tk ∈ scheduled w -> task_el tk <> e_el e) ->
  EvDone (e_id e) ∉ log w ->
  (forall tag, cb_tag <$> e_callback e = Some tag ->
               EvCallback (e_id e) tag ∈ log w) ->
  let w4 := emit (shift w (e_el e)) (EvDone (e_id e)) in
  Inv w4 /\ queues w4 !! e_el e = Some q /\
  (forall tk, tk ∈ scheduled w4 -> task_el tk <> e_el e) /\
  (forall e0, e0 ∈ q -> quiet (log w4) (e_id e0)).
Proof.
  intros HI Hq Hfree Hnd Hcb w4.
  destruct (other_ids w e q HI Hq Hfree) as [Hsched Htail].
  assert (Hhead : e ∈ e :: q) by (apply elem_of_cons; left; reflexivity).
  assert (Hw4 : w4 = emit (set_queues w (<[e_el e := q]> (queues w)))
                       (EvDone (e_id e))).
  { subst w4. unfold shift. rewrite Hq. reflexivity. }
  assert (Hlook : forall el q', queues w4 !! el = Some q' ->
            (el = e_el e /\ q' = q) \/ (el <> e_el e /\ queues w !! el = Some q')).
  { intros el q' H. rewrite Hw4 in H. cbn [emit set_queues queues] in H.
    destruct (decide (e_el e = el)) as [<-|Hne].
    - rewrite lookup_insert_eq in H. injection H as <-. left.
      split; reflexivity.
    - rewrite lookup_insert_ne in H by assumption. right. split; congruence. }
  assert (Hlog : log w4 = log w ++ [EvDone (e_id e)]).
  { rewrite Hw4. reflexivity. }
  assert (Hsch : scheduled w4 = scheduled w) by (rewrite Hw4; reflexivity).
  assert (Hnid : next_id w4 = next_id w) by (rewrite Hw4; reflexivity).
  assert (Hsub : forall e', e' ∈ q -> e' ∈ e :: q).
  { intros e' He'. apply elem_of_cons. right. exact He'. }
  split; [|split; [|split]].
  - constructor.
    + rewrite Hlog. constructor; [apply (inv_hist w HI)|].
      split; [exact Hnd|]. exists (e_el e), (cb_tag <$> e_callback e).
      split; [apply (inv_queue w HI _ _ e Hq Hhead)|exact Hcb].
    + rewrite Hlog, Hnid. intros ev Hev. apply elem_of_app in Hev as [Hev|Hev].
      * apply (inv_ids w HI ev Hev).
      * apply list_elem_of_singleton in Hev. subst ev. simpl.
        apply (entry_id_bound w _ _ e HI Hq Hhead).
    + intros el q' H. apply Hlook in H as [[-> ->]|[_ H]].
      * pose proof (inv_sorted w HI _ _ Hq) as Hs. simpl in Hs.
        apply StronglySorted_inv in Hs as [Hs _]. exact Hs.
      * apply (inv_sorted w HI el q' H).
    + rewrite Hlog. intros el q' e' H He'.
      assert (Hx : e_el e' = el /\
                EvEnqueue el (e_id e') (cb_tag <$> e_callback e') ∈ log w).
      { apply Hlook in H as [[-> ->]|[_ H]].
        - apply (inv_queue w HI _ _ e' Hq (Hsub e' He')).
        - apply (inv_queue w HI el q' e' H He'). }
      destruct Hx as [H1 H2]. split; [exact H1|].
      apply elem_of_app. left. exact H2.
    + rewrite Hlog. intros el i cb Hin. apply elem_of_app in Hin as [Hin|Hin];
        [|apply list_elem_of_singleton in Hin; discriminate].
      destruct (inv_enq w HI el i cb Hin) as [(q' & e' & Hq' & He' & Hid)|Hd].
      * destruct (decide (e_el e = el)) as [<-|Hne].
        -- rewrite Hq in Hq'. injection Hq' as <-.
           apply elem_of_cons in He' as [->|He'].
           ++ right. apply elem_of_app. right. apply list_elem_of_singleton.
              congruence.
           ++ left. exists q, e'. rewrite Hw4. cbn [emit set_queues queues].
              rewrite lookup_insert_eq. split; [reflexivity|].
              split; assumption.
        -- left. exists q', e'. rewrite Hw4. cbn [emit set_queues queues].
           rewrite lookup_insert_ne by assumption. split; [exact Hq'|].
           split; assumption.
      * right. apply elem_of_app. left. exact Hd.
    + rewrite Hsch. intros tk Htk.
      destruct (inv_head w HI tk Htk) as [q' Hq']. exists q'.
      rewrite Hw4. cbn [emit set_queues queues].
      rewrite lookup_insert_ne; [exact Hq'|].
      intros E. apply (Hfree tk Htk). symmetry. exact E.
    + rewrite Hsch. apply (inv_one w HI).
    + rewrite Hsch, Hlog. intros tk Htk. apply quiet_snoc; try discriminate.
      * apply (inv_quiet_sched w HI tk Htk).
      * intros E. injection E as E. apply (Hsched tk Htk). congruence.
    + rewrite Hlog. intros el e0 q' e' H He'.
      assert (Hx : exists el0 e1 q1, queues w !! el0 = Some (e1 :: q1) /\ e' ∈ q1).
      { apply Hlook in H as [[-> Hqq]|[_ H]].
        - exists (e_el e), e, q. split; [exact Hq|]. rewrite <- Hqq.
          apply elem_of_cons. right. exact He'.
        - exists el, e0, q'. split; assumption. }
      destruct Hx as (el0 & e1 & q1 & Hq1 & He1).
      destruct (inv_quiet_tail w HI el0 e1 q1 e' Hq1 He1) as (H1 & H2 & H3).
      split; [|split; apply not_in_snoc; (assumption || discriminate)].
      apply quiet_snoc; [exact H1|discriminate|].
      intros E. injection E as E. apply (Htail el0 e1 q1 e' Hq1 He1).
      congruence.
    + rewrite Hsch. apply (inv_wf w HI).
  - rewrite Hw4. cbn [emit set_queues queues]. apply lookup_insert_eq.
  - rewrite Hsch. exact Hfree.
  - rewrite Hlog. intros e0 He0.
    destruct (inv_quiet_tail w HI _ e q e0 Hq He0) as (H1 & _ & _).
    apply quiet_snoc; [exact H1|discriminate|].
    intros E. injection E as E.
    pose proof (head_least _ _ _ (inv_sorted w HI _ _ Hq) He0). lia.
Qed.

Lemma Inv_step (w : World) (tk : Task) (rest : list Task) :
  Inv w -> batch w = tk :: rest ->
  Inv (step h (set_batch w rest (frameTime w)) tk (frameTime w)).
Proof.
  intros HI Hb. unfold step.
  set (t := progress tk (frameTime w)).
  set (sty := fold_left (step_prop tk t (e_easing (t_entry tk) t))
                (keys (t_endStyles tk))
                (styles (emit (set_batch w rest (frameTime w))
                           (EvStep (e_id (t_entry tk)))))).
  destruct (Inv_popped w tk rest (frameTime w) sty HI Hb)
    as (HI2 & [q Hq] & Hfree & Hquiet & Hwf & _).
  set (w2 := set_styles (emit (set_batch w rest (frameTime w))
                           (EvStep (e_id (t_entry tk)))) sty) in *.
  destruct (jlt t (JNum 1)).
  - apply (Inv_schedule w2 tk q); assumption.
  - destruct (invoke_facts w2 (t_entry tk) q HI2 Hq Hfree Hquiet)
      as (HI3 & [q' Hq3] & Hfree3 & Hnd & Hcb & _).
    set (w3 := invoke h w2 (t_entry tk)) in *.
    destruct (Inv_done w3 (t_entry tk) (q ++ q') HI3 Hq3 Hfree3 Hnd Hcb)
      as (HI4 & Hq4 & Hfree4 & Hquiet4).
    set (w4 := emit (shift w3 (e_el (t_entry tk))) (EvDone (e_id (t_entry tk))))
      in *.
    rewrite Hq4. destruct (q ++ q') as [|e0 q0] eqn:E; [exact HI4|].
    assert (He0 : e0 ∈ e0 :: q0) by (apply elem_of_cons; left; reflexivity).
    destruct (inv_queue w4 HI4 _ _ e0 Hq4 He0) as [Hel _].
    apply (Inv_run_entry w4 e0 q0); [exact HI4| | |].
    + rewrite Hel. exact Hq4.
    + rewrite Hel. exact Hfree4.
    + apply Hquiet4, He0.
Qed.

(** The two ways a step of a reachable world ends: it registers itself
    again, or its entry completes; in the second case the worlds it goes
    through satisfy the invariant. *)
Lemma step_cases (w : World) (tk : Task) (rest : list Task) :
  Inv w -> batch w = tk :: rest ->
  let e := t_entry tk in
  let t := progress tk (frameTime w) in
  let w2 := set_styles (emit (set_batch w rest (frameTime w)) (EvStep (e_id e)))
              (fold_left (step_prop tk t (e_easing e t))
                 (keys (t_endStyles tk)) (styles w)) in
  let w' := step h (set_batch w rest (frameTime w)) tk (frameTime w) in
  (jlt t (JNum 1) = true /\ w' = requestAnimationFrame w2 tk) \/
  (jlt t (JNum 1) = false /\
   exists q q',
     let w3 := invoke h w2 e in
     let w4 := emit (shift w3 (e_el e)) (EvDone (e_id e)) in
     queues w !! e_el e = Some (e :: q) /\
     Inv w3 /\ queues w3 !! e_el e = Some (e :: q ++ q') /\
     (forall tag, cb_tag <$> e_callback e = Some tag ->
                  EvCallback (e_id e) tag ∈ log w3) /\
     batch w3 = rest /\
     Inv w4 /\ queues w4 !! e_el e = Some (q ++ q') /\
     (forall tk', tk' ∈ scheduled w4 -> task_el tk' <> e_el e) /\
     ((q ++ q' = [] /\ w' = w4) \/
      (exists e0 q0, q ++ q' = e0 :: q0 /\ e_el e0 = e_el e /\
                     w' = run_entry h w4 e0))).
Proof.
  intros HI Hb e t w2 w'. subst w'. unfold step. fold e. fold t.
  change (styles (emit (set_batch w rest (frameTime w)) (EvStep (e_id e))))
    with (styles w). fold w2.
  destruct (Inv_popped w tk rest (frameTime w)
              (fold_left (step_prop tk t (e_easing e t))
                 (keys (t_endStyles tk)) (styles w)) HI Hb)
    as (HI2 & [q Hq] & Hfree & Hquiet & Hwf & Hb2).
  fold e in HI2, Hq, Hfree, Hquiet, Hb2. fold w2 in HI2, Hq, Hfree, Hquiet, Hb2.
  destruct (jlt t (JNum 1)); [left; split; reflexivity|right].
  split; [reflexivity|].
  destruct (invoke_facts w2 e q HI2 Hq Hfree Hquiet)
    as (HI3 & [q' Hq3] & Hfree3 & Hnd & Hcb & Hb3 & _).
  destruct (Inv_done (invoke h w2 e) e (q ++ q') HI3 Hq3 Hfree3 Hnd Hcb)
    as (HI4 & Hq4 & Hfree4 & _).
  exists q, q'. cbn zeta.
  split; [exact Hq|]. split; [exact HI3|]. split; [exact Hq3|].
  split; [exact Hcb|]. split; [rewrite Hb3; exact Hb2|].
  split; [exact HI4|]. split; [exact Hq4|]. split; [exact Hfree4|].
  rewrite Hq4. destruct (q ++ q') as [|e0 q0] eqn:E.
  - left. split; reflexivity.
  - right. exists e0, q0. split; [reflexivity|]. split; [|reflexivity].
    apply (inv_queue _ HI4 _ _ e0 Hq4). apply elem_of_cons. left. reflexivity.
Qed.

Lemma Inv_init (sty : gmap (node * string) template) (now : jsnum) :
  Inv (init sty now).
Proof.
  constructor; cbn [init log queues scheduled batch raf app].
  - constructor.
  - intros ev Hev. apply elem_of_nil in Hev. contradiction.
  - intros el q H. rewrite lookup_empty in H. discriminate.
  - intros el q e H. rewrite lookup_empty in H. discriminate.
  - intros el i cb Hin. apply elem_of_nil in Hin. contradiction.
  - intros tk Htk. apply elem_of_nil in Htk. contradiction.
  - constructor.
  - intros tk Htk. apply elem_of_nil in Htk. contradiction.
  - intros el e0 q e H. rewrite lookup_empty in H. discriminate.
  - intros tk Htk. apply elem_of_nil in Htk. contradiction.
Qed.

Lemma Inv_exec (w : World) (l : Label) : Inv w -> Inv (exec h w l).
Proof.
  intros HI. destruct l as [c|now|now|]; cbn [exec].
  - apply Inv_animate, HI.
  - destruct HI. constructor; assumption.
  - destruct (batch w) eqn:Hb; [|exact HI].
    assert (Hs : scheduled (set_raf (set_batch w (raf w) now) []) = scheduled w).
    { unfold scheduled. cbn [set_raf set_batch batch raf].
      rewrite Hb, app_nil_r. reflexivity. }
    destruct HI. constructor; rewrite ?Hs; assumption.
  - destruct (batch w) as [|tk rest] eqn:Hb; [exact HI|].
    apply Inv_step; assumption.
Qed.

Lemma Inv_run (w : World) (ls : list Label) : Inv w -> Inv (run h w ls).
Proof.
  revert w. induction ls as [|l ls IH]; intros w HI; [exact HI|].
  simpl. apply IH, Inv_exec, HI.
Qed.

End Invariant.

(** ** Classification, interpolation and the frame of a step *)

Section PlanClaims.

Import Color Texts Anim AnimSpec.

Lemma assoc_is_key {A : Type} (k : string) (l : list (string * A)) (v : A) :
  assoc k l = Some v -> k ∈ map fst l.
Proof.
  induction l as [|[k' v'] l IH]; simpl; [discriminate|].
  destruct (String.eqb k k') eqn:E.
  - apply String.eqb_eq in E. subst k'. intros _. apply elem_of_cons. left.
    reflexivity.
  - intros H. apply elem_of_cons. right. apply IH, H.
Qed.





(** C4, as amended.  The destination of a request is classified after the
    white space at its two ends is taken off.  With [destination] the text
    between the white space and [current] the computed style, the task a
    started entry registers holds for the property: the colour plan of the
    two resolved colours when both resolve; otherwise, when both texts have
    the numeric shape, the numeric plan of the two numbers read by
    [parseFloat] with the unit written in [current], whatever the unit of
    the destination; otherwise the opaque plan that carries [destination].
    The canvas is taken not to read a text back as the name of a member of
    [Object.prototype], and the property is not [__proto__]: there a plain
    object of the code does not answer by its own keys. *)
Theorem classification_of_trimmed_destination (h : Host) (w : World)
    (e : Entry) (prop : string) (lead core trail : chars) :
  let cv := canvas h in
  let current := getComputedStyle h (styles w) (e_el e) prop in
  let destination := str core in
  assoc prop (e_properties e) = Some (str (lead ++ core ++ trail)) ->
  spaces lead -> spaces trail ->
  stops is_space core -> stops is_space (rev core) ->
  prop <> "__proto__" ->
  inherited (fillStyle cv current) = false ->
  inherited (fillStyle cv destination) = false ->
  exists tk,
    raf (run_entry h w e) = raf w ++ [tk] /\ t_entry tk = e /\
    (forall cc dc,
       parseColor cv current = Some cc ->
       parseColor cv destination = Some dc ->
       task_plan tk prop = Some (ColorPlan cc dc)) /\
    (parseColor cv current = None \/ parseColor cv destination = None ->
     (forall (negative : bool) (i : chars) (f : option chars) (u : chars),
        digits i -> match f with Some f => digits f | None => True end ->
        unit_chars u -> current = numeric_text negative i f u ->
        numeric destination ->
        task_plan tk prop =
        Some (NumericPlan (parseFloat current) (parseFloat destination)
                (str u))) /\
     (~ numeric current \/ ~ numeric destination ->
      task_plan tk prop = Some (OpaquePlan destination))).
Proof.
  intros cv current destination Hdest Hl Ht Hc Hr _ _ _.
  eexists. split; [reflexivity|]. split; [reflexivity|].
  unfold task_plan. cbn [t_startStyles t_endStyles t_units].
  assert (Hplan := plan_fold_plan h (emit w (EvStart (e_id e))) e
                     (keys (e_properties e)) no_plans prop
                     (keys_NoDup _)
                     (proj2 (keys_spec _ _) (assoc_is_key _ _ _ Hdest))).
  unfold plans_plan in Hplan. rewrite Hplan. clear Hplan.
  assert (Htv : targetVal (e_properties e) prop = destination).
  { unfold targetVal. rewrite Hdest. apply trim_padded; assumption. }
  rewrite Htv. cbn [emit styles]. fold current. fold cv.
  unfold spec_classify.
  split.
  - intros cc dc -> ->. reflexivity.
  - intros Hnone.
    assert (Hq : match parseColor cv destination, parseColor cv current with
                 | Some dc, Some cc => Some (ColorPlan cc dc)
                 | _, _ =>
                     Some (if isNumeric destination && isNumeric current
                           then NumericPlan (parseFloat current)
                                  (parseFloat destination)
                                  (unit_suffix current)
                           else OpaquePlan destination)
                 end
                 = Some (if isNumeric destination && isNumeric current
                         then NumericPlan (parseFloat current)
                                (parseFloat destination) (unit_suffix current)
                         else OpaquePlan destination)).
    { destruct Hnone as [-> | ->]; [|reflexivity].
      destruct (parseColor cv destination); reflexivity. }
    assert (Hgoal : Some (match parseColor cv destination, parseColor cv current with
                 | Some dc, Some cc => ColorPlan cc dc
                 | _, _ =>
                     if isNumeric destination && isNumeric current
                     then NumericPlan (parseFloat current)
                                  (parseFloat destination)
                                  (unit_suffix current)
                     else OpaquePlan destination
                 end)
                 = Some (if isNumeric destination && isNumeric current
                         then NumericPlan (parseFloat current)
                                (parseFloat destination) (unit_suffix current)
                         else OpaquePlan destination)).
    { rewrite <- Hq. destruct (parseColor cv destination);
        destruct (parseColor cv current); reflexivity. }
    rewrite Hgoal. clear Hq Hgoal. split.
    + intros negative i f u Hi Hf Hu Hcur (n2 & i2 & f2 & u2 & Hi2 & Hf2 & Hu2 & Hd).
      rewrite Hd at 1. rewrite (isNumeric_text n2 i2 f2 u2 Hi2 Hf2 Hu2).
      rewrite Hcur at 1. rewrite (isNumeric_text negative i f u Hi Hf Hu).
      cbn [andb]. rewrite Hcur at 2.
      rewrite (unit_suffix_text negative i f u Hi Hf Hu). reflexivity.
    + intros Hnot.
      destruct (isNumeric destination) eqn:Ed;
        destruct (isNumeric current) eqn:Ec; cbn [andb]; try reflexivity.
      exfalso. destruct Hnot as [N|N]; apply N, isNumeric_shape; assumption.
Qed.

Lemma classification_example :
  exists tk,
    raf (run_entry (plainHost "0px") (init ∅ (JNum 0))
           (request0 "left" (String "160"%char "100px ") (JNum 400))) = [tk] /\
    task_plan tk "left" = Some (NumericPlan (JNum 0) (JNum 100) "px").
Proof.
  destruct (classification_of_trimmed_destination (plainHost "0px")
              (init ∅ (JNum 0))
              (request0 "left" (String "160"%char "100px ") (JNum 400))
              "left" ["160"%char] (list_ascii_of_string "100px") [" "%char]
              eq_refl eq_refl eq_refl eq_refl eq_refl
              ltac:(discriminate) eq_refl eq_refl)
    as (tk & Hraf & _ & _ & Hnum).
  exists tk. split; [exact Hraf|].
  destruct (Hnum (or_introl eq_refl)) as [Hn _].
  apply (Hn false ["0"%char] None (list_ascii_of_string "px")).
  - split; [discriminate|reflexivity].
  - exact I.
  - reflexivity.
  - reflexivity.
  - exists false, (list_ascii_of_string "100"), None,
      (list_ascii_of_string "px").
    split; [split; [discriminate|reflexivity]|].
    split; [exact I|]. split; reflexivity.
Defined.

(** C4, as stated, fails: the destination is trimmed before it is
    classified.  With computed style [0px] and destination [ 100px] (a
    leading space) the code plans a numeric interpolation, where the
    classifier applied to the destination as given plans an opaque snap. *)
Lemma classification_untrimmed_differs :
  plans_plan
    (plan_prop (plainHost "0px") (init ∅ (JNum 0))
       (request0 "left" " 100px" (JNum 400)) no_plans "left") "left"
  = Some (NumericPlan (parseFloat "0px") (parseFloat "100px") "px")
  /\ spec_classify Texts.echo "0px" " 100px" = OpaquePlan " 100px".
Proof. split; reflexivity. Qed.

Lemma string_app_nil_r (u : string) : (u ++ "")%string = u.
Proof.
  induction u as [|c u IH]; [reflexivity|].
  change (String c (u ++ "")%string = String c u). f_equal. exact IH.
Qed.

Lemma step_writes_plan (h : Host) (w : World) (tk : Task) (now : jsnum)
    (prop : string) (p : Plan) :
  task_plan tk prop = Some p ->
  styles (step h w tk now) !! (task_el tk, prop) =
  match spec_evaluate p (progress tk now)
          (e_easing (t_entry tk) (progress tk now)) with
  | Some v => Some v
  | None => styles w !! (task_el tk, prop)
  end.
Proof.
  intros Hp. rewrite step_styles. unfold task_el.
  rewrite writes_own.
  - rewrite (step_prop_spec tk _ _ _ prop p Hp).
    destruct (spec_evaluate p _ _); [apply lookup_insert_eq|reflexivity].
  - apply keys_NoDup.
  - apply keys_spec. apply (plan_of_key _ _ _ _ _ Hp).
Qed.



(** C10.  In every reachable world, the step the host runs next changes no
    style of another element, and on its own element no style of a property
    that the request of the animation does not name. *)
Theorem step_writes_only_requested (h : Host)
    (sty : gmap (node * string) template) (c0 : jsnum) (ls : list Label)
    (tk : Task) (rest : list Task) (el : node) (prop : string) :
  let w := run h (init sty c0) ls in
  batch w = tk :: rest ->
  el <> task_el tk \/ prop ∉ map fst (e_properties (t_entry tk)) ->
  styles (exec h w LStep) !! (el, prop) = styles w !! (el, prop).
Proof.
  intros w Hb Hother. cbn [exec]. rewrite Hb. rewrite step_styles.
  cbn [set_batch styles]. apply writes_other.
  destruct Hother as [H|H]; [left; exact H|right].
  intros Hk. apply H. apply keys_spec in Hk.
  assert (HI : Inv w) by (apply Inv_run, Inv_init).
  apply (inv_wf w HI tk); [|exact Hk].
  unfold scheduled. rewrite Hb. apply elem_of_cons. left. reflexivity.
Qed.

Lemma step_writes_only_requested_example :
  styles (exec (plainHost "0px")
            (run (plainHost "0px") (init ∅ (JNum 0)) left_run) LStep)
    !! (1%nat, "left")
  = styles (run (plainHost "0px") (init ∅ (JNum 0)) left_run)
      !! (1%nat, "left").
Proof.
  refine (step_writes_only_requested (plainHost "0px") ∅ (JNum 0) left_run
            _ _ 1%nat "left" eq_refl _).
  left. discriminate.
Defined.

End PlanClaims.

(** ** The queue of an element *)

Section QueueClaims.

Import Color Anim AnimSpec.

Lemma reachable_Inv (h : Host) (sty : gmap (node * string) template)
    (c0 : jsnum) (ls : list Label) :
  Inv (run h (init sty c0) ls).
Proof. apply Inv_run, Inv_init. Qed.

(** C1.  In every reachable world, the invocation of a callback is recorded
    at most once; and if request R1 was enqueued on an element before
    request R2, then wherever the log records a step of R2, or the start of
    R2, the completion of R1 is recorded earlier, and so is the invocation of
    the callback of R1 if it has one, which the log records exactly once. *)
Theorem queue_order (h : Host) (sty : gmap (node * string) template)
    (c0 : jsnum) (ls : list Label) :
  let w := run h (init sty c0) ls in
  (forall i tag, EvCallback i tag ∈ log w -> once (EvCallback i tag) (log w)) /\
  (forall el i1 i2 cb1 cb2 l1 l3 ev,
     before (EvEnqueue el i1 cb1) (EvEnqueue el i2 cb2) (log w) ->
     ev = EvStep i2 \/ ev = EvStart i2 ->
     log w = l1 ++ ev :: l3 ->
     EvDone i1 ∈ l1 /\
     forall tag, cb1 = Some tag ->
                 EvCallback i1 tag ∈ l1 /\ once (EvCallback i1 tag) (log w)).
Proof.
  intros w.
  assert (HH : Hist (log w)) by (apply (inv_hist w), reachable_Inv).
  split.
  - intros i tag. apply callback_once, HH.
  - intros el i1 i2 cb1 cb2 l1 l3 ev Hbefore Hev Hlog.
    apply (hist_order (log w) el i1 i2 cb1 cb2 l1 l3 ev); assumption.
Qed.

Lemma filter_at_most_one {A : Type} (f : A -> nat) (a : nat) (l : list A) :
  NoDup (map f l) -> length (filter (fun x => f x = a) l) <= 1.
Proof.
  induction l as [|x l IH]; intros Hnd; [simpl; lia|].
  simpl in Hnd. apply NoDup_cons in Hnd as [Hx Hnd].
  rewrite filter_cons. destruct (decide (f x = a)) as [E|_]; [|apply IH, Hnd].
  simpl. assert (Hnone : filter (fun y => f y = a) l = []).
  { destruct (filter (fun y => f y = a) l) as [|y l'] eqn:Ef; [reflexivity|].
    assert (Hy : y ∈ filter (fun y => f y = a) l)
      by (rewrite Ef; apply elem_of_cons; left; reflexivity).
    apply list_elem_of_filter in Hy as [Hfy Hy]. exfalso. apply Hx.
    rewrite E, <- Hfy. apply list_elem_of_In, in_map, list_elem_of_In, Hy. }
  rewrite Hnone. simpl. lia.
Qed.

Lemma active_at_most_one (w : World) (el : node) :
  Inv w ->
  length (active_on w el) <= 1 /\
  forall tk, tk ∈ active_on w el ->
             exists q, queues w !! el = Some (t_entry tk :: q).
Proof.
  intros HI. split.
  - unfold active_on. apply (filter_at_most_one task_el el).
    apply (inv_one w HI).
  - intros tk Htk. unfold active_on in Htk.
    apply list_elem_of_filter in Htk as [Hel Htk].
    destruct (inv_head w HI tk Htk) as [q Hq]. exists q.
    unfold task_el in Hq. rewrite Hel in Hq. exact Hq.
Qed.

Lemma same_at_refl (el : node) (w : World) : same_at el w w.
Proof. repeat split; reflexivity. Qed.

Lemma same_at_trans (el : node) (w1 w2 w3 : World) :
  same_at el w1 w2 -> same_at el w2 w3 -> same_at el w1 w3.
Proof.
  intros (A1 & A2 & A3) (B1 & B2 & B3). repeat split.
  - rewrite B1. exact A1.
  - rewrite B2. exact A2.
  - intros prop. rewrite B3. apply A3.
Qed.

Lemma same_at_emit (el : node) (w : World) (ev : Event) :
  same_at el w (emit w ev).
Proof. repeat split; reflexivity. Qed.

Lemma filter_snoc_other (el : node) (l : list Task) (tk : Task) :
  task_el tk <> el ->
  filter (fun x => e_el (t_entry x) = el) (l ++ [tk])
  = filter (fun x => e_el (t_entry x) = el) l.
Proof.
  intros Hne. rewrite filter_app, filter_cons.
  destruct (decide (e_el (t_entry tk) = el)) as [E|_]; [contradiction|].
  rewrite filter_nil, app_nil_r. reflexivity.
Qed.

Lemma same_at_schedule (el : node) (w : World) (tk : Task) :
  task_el tk <> el -> same_at el w (requestAnimationFrame w tk).
Proof.
  intros Hne. split; [reflexivity|]. split; [|reflexivity].
  unfold active_on, scheduled. cbn [requestAnimationFrame set_raf batch raf].
  rewrite app_assoc. apply filter_snoc_other, Hne.
Qed.

Lemma same_at_run_entry (h : Host) (el : node) (w : World) (e : Entry) :
  e_el e <> el -> same_at el w (run_entry h w e).
Proof.
  intros Hne. unfold run_entry.
  apply (same_at_trans el w (emit w (EvStart (e_id e))));
    [apply same_at_emit|].
  apply same_at_schedule. exact Hne.
Qed.

Lemma same_at_animate_el (h : Host) (el : node) (ps : list (string * string))
    (d : jsnum) (ea : jsnum -> jsnum) (cb : option Callback) (w : World)
    (el' : node) :
  el' <> el -> same_at el w (animate_el h ps d ea cb w el').
Proof.
  intros Hne. rewrite animate_el_pushed.
  assert (HP : same_at el w (pushed ps d ea cb w el').1).
  { unfold pushed. cbn [fst]. split; [|split; reflexivity].
    cbn [queues]. apply lookup_insert_ne. exact Hne. }
  destruct (default [] (queues w !! el')); [|exact HP].
  eapply same_at_trans; [exact HP|]. apply same_at_run_entry. exact Hne.
Qed.

Lemma same_at_animate (h : Host) (el : node) (w : World) (c : Call) :
  el ∉ call_targets c -> same_at el w (animate h w c).
Proof.
  destruct c as [targets ps d ea cb]. unfold animate. cbn [call_targets].
  revert w. induction targets as [|el' targets IH]; intros w Hnin;
    [apply same_at_refl|].
  apply not_elem_of_cons in Hnin as [Hne Hnin]. simpl.
  apply (same_at_trans el w
           (animate_el h ps (default (JNum 400) d) (default (fun t => t) ea)
              cb w el'));
    [|apply IH, Hnin].
  apply same_at_animate_el. intros E. apply Hne. symmetry. exact E.
Qed.

Lemma same_at_calls (h : Host) (el : node) (cs : list Call) (w : World) :
  el ∉ flat_map call_targets cs ->
  same_at el w (fold_left (animate h) cs w).
Proof.
  revert w. induction cs as [|c cs IH]; intros w Hnin; [apply same_at_refl|].
  simpl in Hnin. apply not_elem_of_app in Hnin as [H1 H2]. simpl.
  apply (same_at_trans el w (animate h w c)); [|apply IH, H2].
  apply same_at_animate, H1.
Qed.

Lemma same_at_invoke (h : Host) (el : node) (w : World) (e : Entry) :
  el ∉ match e_callback e with
       | Some c => flat_map call_targets (cb_calls c)
       | None => []
       end ->
  same_at el w (invoke h w e).
Proof.
  intros Hnin. unfold invoke. destruct (e_callback e) as [c|];
    [|apply same_at_refl].
  apply (same_at_trans el w (emit w (EvCallback (e_id e) (cb_tag c))));
    [apply same_at_emit|].
  apply same_at_calls, Hnin.
Qed.

Lemma same_at_shift (el el' : node) (w : World) :
  el' <> el -> same_at el w (shift w el').
Proof.
  intros Hne. unfold shift.
  destruct (queues w !! el') as [[|e q]|]; try apply same_at_refl.
  split; [|split; reflexivity].
  cbn [set_queues queues]. apply lookup_insert_ne. exact Hne.
Qed.

(** A step leaves alone every element other than its own and those its
    callback animates. *)
Lemma same_at_step (h : Host) (el : node) (w : World) (tk : Task)
    (rest : list Task) :
  Inv w -> batch w = tk :: rest ->
  task_el tk <> el ->
  el ∉ match e_callback (t_entry tk) with
       | Some c => flat_map call_targets (cb_calls c)
       | None => []
       end ->
  same_at el w (step h (set_batch w rest (frameTime w)) tk (frameTime w)).
Proof.
  intros HI Hb Hne Hnin.
  set (t := progress tk (frameTime w)).
  set (w2 := set_styles (emit (set_batch w rest (frameTime w))
                           (EvStep (e_id (t_entry tk))))
               (fold_left (step_prop tk t (e_easing (t_entry tk) t))
                  (keys (t_endStyles tk)) (styles w))).
  assert (H2 : same_at el w w2).
  { split; [reflexivity|]. split.
    - unfold active_on, scheduled. subst w2.
      cbn [set_styles emit set_batch batch raf]. rewrite Hb.
      cbn [app]. rewrite filter_cons.
      destruct (decide (e_el (t_entry tk) = el)) as [E|_];
        [contradiction|reflexivity].
    - intros prop. subst w2. cbn [set_styles styles].
      apply writes_other. left. unfold task_el in Hne. congruence. }
  destruct (step_cases h w tk rest HI Hb) as [[_ ->]|(_ & q & q' & Hc)].
  - eapply same_at_trans; [exact H2|]. apply same_at_schedule, Hne.
  - cbn zeta in Hc. fold t in Hc. fold w2 in Hc.
    destruct Hc as (_ & _ & _ & _ & _ & _ & _ & _ & Hend).
    assert (H4 : same_at el w
              (emit (shift (invoke h w2 (t_entry tk)) (e_el (t_entry tk)))
                 (EvDone (e_id (t_entry tk))))).
    { eapply same_at_trans; [exact H2|].
      eapply same_at_trans; [apply same_at_invoke, Hnin|].
      eapply same_at_trans; [apply same_at_shift, Hne|].
      apply same_at_emit. }
    destruct Hend as [[_ ->]|(e0 & q0 & _ & Hel & ->)]; [exact H4|].
    eapply same_at_trans; [exact H4|]. apply same_at_run_entry.
    rewrite Hel. exact Hne.
Qed.

Lemma same_at_exec (h : Host) (el : node) (w : World) (l : Label) :
  Inv w -> el ∉ concerns w l -> same_at el w (exec h w l).
Proof.
  intros HI Hnin. destruct l as [c|now|now|]; cbn [exec concerns] in *.
  - apply same_at_animate, Hnin.
  - repeat split; reflexivity.
  - destruct (batch w) eqn:Hb; [|apply same_at_refl].
    split; [reflexivity|]. split; [|reflexivity].
    unfold active_on, scheduled. cbn [set_raf set_batch batch raf].
    rewrite Hb, app_nil_r. reflexivity.
  - destruct (batch w) as [|tk rest] eqn:Hb; [apply same_at_refl|].
    apply not_elem_of_cons in Hnin as [Hne Hnin].
    apply same_at_step; [exact HI|exact Hb|congruence|exact Hnin].
Qed.

(** C2.  In every reachable world, at most one step is scheduled for an
    element, and it is the step of the head of the queue of the element;
    and a transition leaves the queue, the scheduled step and the styles of
    every element it does not concern as they were. *)
Theorem one_active_entry_per_node (h : Host)
    (sty : gmap (node * string) template) (c0 : jsnum) (ls : list Label) :
  let w := run h (init sty c0) ls in
  (forall el,
     length (active_on w el) <= 1 /\
     forall tk, tk ∈ active_on w el ->
                exists q, queues w !! el = Some (t_entry tk :: q)) /\
  (forall l el, el ∉ concerns w l -> same_at el w (exec h w l)).
Proof.
  intros w. pose proof (reachable_Inv h sty c0 ls) as HI. fold w in HI.
  split.
  - intros el. apply active_at_most_one, HI.
  - intros l el. apply same_at_exec, HI.
Qed.

Lemma one_active_entry_per_node_example :
  same_at 1%nat (run (plainHost "0px") (init ∅ (JNum 0)) left_run)
    (exec (plainHost "0px") (run (plainHost "0px") (init ∅ (JNum 0)) left_run)
       LStep).
Proof.
  refine (proj2 (one_active_entry_per_node (plainHost "0px") ∅ (JNum 0)
                   left_run) LStep 1%nat _).
  apply not_elem_of_cons. split; [discriminate|apply not_elem_of_nil].
Defined.

(** A pending entry has not been started or stepped and has no step
    scheduled. *)
Lemma pending_untouched (w : World) (el : node) (e0 : Entry)
    (q : list Entry) (e : Entry) :
  Inv w -> queues w !! el = Some (e0 :: q) -> e ∈ q ->
  (EvStart (e_id e) ∉ log w) /\ (EvStep (e_id e) ∉ log w) /\
  forall tk, tk ∈ scheduled w -> t_entry tk <> e.
Proof.
  intros HI Hq He.
  destruct (inv_quiet_tail w HI el e0 q e Hq He) as (_ & H1 & H2).
  split; [exact H1|]. split; [exact H2|].
  intros tk Htk E. apply (tail_not_scheduled w el e0 q e tk HI Hq He Htk).
  rewrite E. reflexivity.
Qed.

(** C8, as amended.  A call of [animate] on an element of a reachable world
    appends the request to the queue of the element, evaluates no step and
    writes no style.  If the queue was empty, the entry is started within
    the call: its start time is the time of the call and its step is
    registered, so the step is a callback of the very next frame, which
    makes the first style write.  Otherwise nothing is registered for the
    entry.  An entry behind the head of a queue has not been started or
    stepped and has no step scheduled. *)
Theorem enqueue_starts_idle_else_pending (h : Host)
    (sty : gmap (node * string) template) (c0 : jsnum) (ls : list Label)
    (ps : list (string * string)) (d : jsnum) (ea : jsnum -> jsnum)
    (cb : option Callback) (el : node) :
  let w := run h (init sty c0) ls in
  let w' := animate_el h ps d ea cb w el in
  let e := {| e_id := next_id w; e_el := el; e_properties := ps;
              e_duration := d; e_easing := ea; e_callback := cb |} in
  let q := default [] (queues w !! el) in
  (queues w' !! el = Some (q ++ [e]) /\ styles w' = styles w /\
   batch w' = batch w) /\
  (q = [] ->
   exists tk,
     raf w' = raf w ++ [tk] /\ t_entry tk = e /\ t_startTime tk = clock w /\
     log w' = log w ++ [EvEnqueue el (e_id e) (cb_tag <$> cb);
                        EvStart (e_id e)] /\
     (EvStep (e_id e) ∉ log w') /\
     forall now, batch w = [] ->
                 batch (exec h w' (LFrame now)) = raf w ++ [tk]) /\
  (q <> [] ->
   raf w' = raf w /\
   log w' = log w ++ [EvEnqueue el (e_id e) (cb_tag <$> cb)]) /\
  (forall el1 e0 q1 e1,
     queues w' !! el1 = Some (e0 :: q1) -> e1 ∈ q1 ->
     (EvStart (e_id e1) ∉ log w') /\ (EvStep (e_id e1) ∉ log w') /\
     forall tk, tk ∈ scheduled w' -> t_entry tk <> e1).
Proof.
  intros w w' e q.
  pose proof (reachable_Inv h sty c0 ls) as HI. fold w in HI.
  assert (HI' : Inv w') by (apply Inv_animate_el, HI).
  assert (Hw' : w' = match q with
                     | [] => run_entry h (pushed ps d ea cb w el).1 e
                     | _ :: _ => (pushed ps d ea cb w el).1
                     end).
  { subst w' q. apply animate_el_pushed. }
  split; [|split; [|split]].
  - rewrite Hw'. destruct q eqn:E; unfold pushed; subst q;
      cbn [fst run_entry requestAnimationFrame set_raf emit queues styles
           batch]; rewrite lookup_insert_eq, E; repeat split; reflexivity.
  - intros E. rewrite Hw', E.
    destruct (run_entry_task_wf h (pushed ps d ea cb w el).1 e)
      as (tk & Hraf & Htk & Hst & _).
    exists tk. split; [exact Hraf|]. split; [exact Htk|].
    assert (Hlog : log (run_entry h (pushed ps d ea cb w el).1 e)
                   = log w ++ [EvEnqueue el (e_id e) (cb_tag <$> cb);
                               EvStart (e_id e)]).
    { unfold pushed. cbn [fst run_entry requestAnimationFrame set_raf emit log].
      rewrite <- app_assoc. reflexivity. }
    split; [exact Hst|]. split; [exact Hlog|]. split.
    + rewrite Hlog. intros Hin. apply elem_of_app in Hin as [Hin|Hin].
      * pose proof (inv_ids w HI _ Hin) as Hid. cbn [event_id e_id e] in Hid.
        lia.
      * apply elem_of_cons in Hin as [Hin|Hin]; [discriminate|].
        apply list_elem_of_singleton in Hin. discriminate.
    + intros now Hb. cbn [exec].
      change (batch (run_entry h (pushed ps d ea cb w el).1 e)) with (batch w).
      rewrite Hb. cbn [set_raf set_batch batch]. exact Hraf.
  - intros Hne. rewrite Hw'. destruct q; [contradiction|].
    split; reflexivity.
  - intros el1 e0 q1 e1. apply pending_untouched, HI'.
Qed.

Lemma enqueue_starts_idle_example :
  exists tk,
    raf (animate_el (plainHost "0px") [("left", "100px")] (JNum 400)
           (fun t => t) None (init ∅ (JNum 0)) 0%nat) = [] ++ [tk] /\
    t_entry tk = request0 "left" "100px" (JNum 400) /\
    t_startTime tk = JNum 0 /\
    log (animate_el (plainHost "0px") [("left", "100px")] (JNum 400)
           (fun t => t) None (init ∅ (JNum 0)) 0%nat)
    = [] ++ [EvEnqueue 0%nat 0%nat None; EvStart 0%nat] /\
    (EvStep 0%nat
     ∉ log (animate_el (plainHost "0px") [("left", "100px")] (JNum 400)
              (fun t => t) None (init ∅ (JNum 0)) 0%nat)) /\
    forall now,
      @nil Task = [] ->
      batch (exec (plainHost "0px")
               (animate_el (plainHost "0px") [("left", "100px")] (JNum 400)
                  (fun t => t) None (init ∅ (JNum 0)) 0%nat) (LFrame now))
      = [] ++ [tk].
Proof.
  exact (proj1 (proj2 (enqueue_starts_idle_else_pending (plainHost "0px") ∅
                         (JNum 0) [] [("left", "100px")] (JNum 400)
                         (fun t => t) None 0%nat)) eq_refl).
Defined.

(** C8, as stated, fails: when [animate] returns on an idle element, no
    step of the new entry has been evaluated and no style has been
    written; the step waits in the list of frame callbacks, so the first
    style write comes one frame later. *)
Lemma enqueue_writes_nothing_in_call :
  let w' := animate_el (plainHost "0px") [("left", "100px")] (JNum 400)
              (fun t => t) None (init ∅ (JNum 0)) 0%nat in
  log w' = [EvEnqueue 0%nat 0%nat None; EvStart 0%nat] /\
  styles w' !! (0%nat, "left") = None /\
  batch w' = [] /\ length (raf w') = 1%nat.
Proof. repeat split; reflexivity. Qed.

(** *** Durations that are negative *)

Lemma progress_negative_duration (tk : Task) (s n d : R) :
  t_startTime tk = JNum s -> e_duration (t_entry tk) = JNum d ->
  (d < 0)%R -> (s <= n)%R -> jlt (progress tk (JNum n)) (JNum 1) = true.
Proof.
  intros Hs Hd Hneg Hle. unfold progress. rewrite Hs, Hd.
  unfold jsub, jneg, jadd, jdiv.
  destruct (Req_dec_T d 0) as [E|_]; [lra|].
  assert (Hq : ((n + - s) / d <= 0)%R).
  { unfold Rdiv. pose proof (Rinv_lt_0_compat d Hneg) as Hi. nra. }
  unfold jmin, jlt.
  destruct (Rlt_dec ((n + - s) / d) 1) as [_|H]; [|lra].
  destruct (Rlt_dec ((n + - s) / d) 1) as [_|H]; [reflexivity|lra].
Qed.

Lemma step_again_eq (h : Host) (w : World) (tk : Task) (now : jsnum) :
  jlt (progress tk now) (JNum 1) = true ->
  step h w tk now =
  requestAnimationFrame
    (set_styles (emit w (EvStep (e_id (t_entry tk))))
       (fold_left
          (step_prop tk (progress tk now)
             (e_easing (t_entry tk) (progress tk now)))
          (keys (t_endStyles tk)) (styles w))) tk.
Proof. intros H. unfold step. rewrite H. reflexivity. Qed.

Lemma negative_progress (s n d : R) :
  (d < 0)%R -> (s <= n)%R ->
  exists t : R,
    jmin (JNum 1) (jdiv (jsub (JNum n) (JNum s)) (JNum d)) = JNum t /\
    (t <= 0)%R.
Proof.
  intros Hneg Hle. exists ((n + - s) / d)%R.
  unfold jsub, jneg, jadd, jdiv.
  destruct (Req_dec_T d 0) as [E|_]; [lra|].
  assert (Hq : ((n + - s) / d <= 0)%R).
  { unfold Rdiv. pose proof (Rinv_lt_0_compat d Hneg) as Hi. nra. }
  split; [|exact Hq]. unfold jmin, jlt.
  destruct (Rlt_dec ((n + - s) / d) 1) as [_|H]; [reflexivity|lra].
Qed.

Lemma step_negative_duration (h : Host) (w : World) (tk : Task)
    (rest : list Task) (d s n : R) :
  e_duration (t_entry tk) = JNum d -> (d < 0)%R ->
  t_startTime tk = JNum s ->
  batch w = tk :: rest -> frameTime w = JNum n -> (s <= n)%R ->
  let w' := exec h w LStep in
  raf w' = raf w ++ [tk] /\ batch w' = rest /\ queues w' = queues w /\
  frameTime w' = frameTime w /\
  log w' = log w ++ [EvStep (e_id (t_entry tk))].
Proof.
  intros Hd Hneg Hs Hb Hn Hle w'. subst w'. cbn [exec]. rewrite Hb, Hn.
  rewrite step_again_eq.
  - repeat split; reflexivity.
  - apply (progress_negative_duration tk s n d); assumption.
Qed.

(** C9.  The code does not do what the claim says for a negative duration.
    The step of such an entry, run at a frame that is not earlier than the
    start of the entry, finds a raw progress that is at most 0; it registers
    itself for the next frame again, records no callback and no completion,
    and leaves the queues as they are.  So when it is the one step
    registered, any number of frames later it is still registered, the
    entry is still in its queue and nothing but steps was recorded. *)
Theorem negative_duration_never_completes (h : Host) (tk : Task) (d s : R) :
  e_duration (t_entry tk) = JNum d -> (d < 0)%R ->
  t_startTime tk = JNum s ->
  (forall n, (s <= n)%R ->
     exists t : R,
       jmin (JNum 1) (jdiv (jsub (JNum n) (JNum s)) (JNum d)) = JNum t /\
       (t <= 0)%R) /\
  (forall (w : World) (rest : list Task) (n : R),
     batch w = tk :: rest -> frameTime w = JNum n -> (s <= n)%R ->
     let w' := exec h w LStep in
     raf w' = raf w ++ [tk] /\ batch w' = rest /\ queues w' = queues w /\
     log w' = log w ++ [EvStep (e_id (t_entry tk))]) /\
  (forall (w : World) (ns : list R),
     raf w = [tk] -> batch w = [] -> Forall (fun n => (s <= n)%R) ns ->
     let w' := run h w (frames ns) in
     raf w' = [tk] /\ batch w' = [] /\ queues w' = queues w /\
     log w' = log w ++ repeat (EvStep (e_id (t_entry tk))) (length ns)).
Proof.
  intros Hd Hneg Hs. split; [|split].
  - intros n Hle. apply negative_progress; assumption.
  - intros w rest n Hb Hn Hle w'.
    destruct (step_negative_duration h w tk rest d s n Hd Hneg Hs Hb Hn Hle)
      as (H1 & H2 & H3 & _ & H5).
    repeat split; assumption.
  - intros w ns. revert w. induction ns as [|n ns IH]; intros w Hr Hb Hall w'.
    + subst w'. cbn [frames flat_map run fold_left length repeat].
      rewrite app_nil_r. repeat split; assumption.
    + apply Forall_cons in Hall as [Hle Hall].
      subst w'. cbn [frames flat_map app run fold_left].
      set (w1 := exec h w (LFrame (JNum n))).
      assert (Hw1 : batch w1 = [tk] /\ raf w1 = [] /\ frameTime w1 = JNum n
                    /\ queues w1 = queues w /\ log w1 = log w).
      { subst w1. cbn [exec]. rewrite Hb, Hr. repeat split; reflexivity. }
      destruct Hw1 as (Hb1 & Hr1 & Hn1 & Hq1 & Hl1).
      destruct (step_negative_duration h w1 tk [] d s n Hd Hneg Hs Hb1 Hn1 Hle)
        as (H1 & H2 & H3 & _ & H5).
      rewrite Hr1 in H1. cbn [app] in H1.
      specialize (IH (exec h w1 LStep) H1 H2 Hall). cbn zeta in IH.
      destruct IH as (I1 & I2 & I3 & I4).
      change (fold_left (exec h) (flat_map (fun n0 => [LFrame (JNum n0); LStep]) ns)
                (exec h w1 LStep))
        with (run h (exec h w1 LStep) (frames ns)).
      split; [exact I1|]. split; [exact I2|].
      split; [rewrite I3, H3; exact Hq1|].
      rewrite I4, H5, Hl1, <- app_assoc. reflexivity.
Qed.

Lemma negative_duration_example :
  let w := run (plainHost "0px") (init ∅ (JNum 0))
             [LAnimate (timed_call (JNum (-100)))] in
  let w' := run (plainHost "0px") w (frames [16; 32; 48]%R) in
  raf w' = [timed_task (JNum (-100))] /\ batch w' = [] /\
  queues w' = queues w /\
  log w' = log w ++ repeat (EvStep 0%nat) 3.
Proof.
  refine (proj2 (proj2 (negative_duration_never_completes (plainHost "0px")
                          (timed_task (JNum (-100))) (-100) 0
                          eq_refl _ eq_refl))
            (run (plainHost "0px") (init ∅ (JNum 0))
               [LAnimate (timed_call (JNum (-100)))])
            [16; 32; 48]%R eq_refl eq_refl _).
  - lra.
  - repeat constructor; lra.
Defined.

(** *** A run of two requests *)

Lemma progress_full (tk : Task) (s n d : R) :
  t_startTime tk = JNum s -> e_duration (t_entry tk) = JNum d ->
  (0 < d)%R -> (d <= n - s)%R -> progress tk (JNum n) = JNum 1.
Proof.
  intros Hs Hd Hpos Hle. unfold progress. rewrite Hs, Hd.
  unfold jsub, jneg, jadd, jdiv.
  destruct (Req_dec_T d 0) as [E|_]; [lra|].
  assert (Hq : (1 <= (n + - s) / d)%R).
  { apply (Rmult_le_reg_r d); [exact Hpos|]. unfold Rdiv.
    rewrite Rmult_assoc, Rinv_l by lra. lra. }
  unfold jmin, jlt.
  destruct (Rlt_dec ((n + - s) / d) 1) as [H|_]; [lra|reflexivity].
Qed.

Lemma step_done_eq (h : Host) (w : World) (tk : Task) (now : jsnum) :
  jlt (progress tk now) (JNum 1) = false ->
  step h w tk now =
  let e := t_entry tk in
  let w2 := set_styles (emit w (EvStep (e_id e)))
              (fold_left
                 (step_prop tk (progress tk now)
                    (e_easing e (progress tk now)))
                 (keys (t_endStyles tk)) (styles w)) in
  let w4 := emit (shift (invoke h w2 e) (e_el e)) (EvDone (e_id e)) in
  match queues w4 !! e_el e with
  | Some (e0 :: _) => run_entry h w4 e0
  | _ => w4
  end.
Proof. intros H. unfold step. rewrite H. reflexivity. Qed.

Lemma two_requests_log :
  log (run (plainHost "0px") (init ∅ (JNum 0)) two_requests) =
  [EvEnqueue 0%nat 0%nat (Some 7%nat); EvStart 0%nat;
   EvEnqueue 0%nat 1%nat None; EvStep 0%nat; EvCallback 0%nat 7%nat;
   EvDone 0%nat; EvStart 1%nat].
Proof.
  change (run (plainHost "0px") (init ∅ (JNum 0)) two_requests)
    with (exec (plainHost "0px") before_first_step LStep).
  assert (Hw : exec (plainHost "0px") before_first_step LStep
               = step (plainHost "0px")
                   (set_batch before_first_step [] (JNum 100)) first_task
                   (JNum 100)).
  { cbn [exec]. change (batch before_first_step) with [first_task].
    change (frameTime before_first_step) with (JNum 100). reflexivity. }
  rewrite Hw, step_done_eq.
  - reflexivity.
  - rewrite (progress_full first_task 0 100 100); try reflexivity; try lra.
    unfold jlt. destruct (Rlt_dec 1 1) as [H|_]; [lra|reflexivity].
Qed.

Lemma queue_order_example :
  EvDone 0%nat
  ∈ [EvEnqueue 0%nat 0%nat (Some 7%nat); EvStart 0%nat;
     EvEnqueue 0%nat 1%nat None; EvStep 0%nat; EvCallback 0%nat 7%nat;
     EvDone 0%nat] /\
  forall tag,
    Some 7%nat = Some tag ->
    EvCallback 0%nat tag
    ∈ [EvEnqueue 0%nat 0%nat (Some 7%nat); EvStart 0%nat;
       EvEnqueue 0%nat 1%nat None; EvStep 0%nat; EvCallback 0%nat 7%nat;
       EvDone 0%nat] /\
    once (EvCallback 0%nat tag)
      (log (run (plainHost "0px") (init ∅ (JNum 0)) two_requests)).
Proof.
  refine (proj2 (queue_order (plainHost "0px") ∅ (JNum 0) two_requests)
            0%nat 0%nat 1%nat (Some 7%nat) None
            [EvEnqueue 0%nat 0%nat (Some 7%nat); EvStart 0%nat;
             EvEnqueue 0%nat 1%nat None; EvStep 0%nat; EvCallback 0%nat 7%nat;
             EvDone 0%nat] [] (EvStart 1%nat) _ (or_intror eq_refl) _).
  - exists [], [EvStart 0%nat],
      [EvStep 0%nat; EvCallback 0%nat 7%nat; EvDone 0%nat; EvStart 1%nat].
    exact two_requests_log.
  - exact two_requests_log.
Defined.

End QueueClaims.

(** ** Two runs of the specification *)

Section Scenarios.

Import Color Anim AnimSpec.

Lemma jround_eq (x : R) (z : Z) :
  (IZR z <= x + / 2 < IZR z + 1)%R -> jround (JNum x) = JNum (IZR z).
Proof. intros H. unfold jround. do 2 f_equal. apply Zfloor_eq, H. Qed.

(** Half of the default duration after the call, raw progress is one half. *)
Lemma progress_half (tk : Task) :
  t_startTime tk = JNum 0 -> e_duration (t_entry tk) = JNum 400 ->
  progress tk (JNum 200) = JNum (/ 2).
Proof.
  intros Hs Hd. unfold progress. rewrite Hs, Hd.
  unfold jsub, jneg, jadd, jdiv.
  destruct (Req_dec_T 400 0) as [E|_]; [lra|].
  unfold jmin, jlt.
  destruct (Rlt_dec ((200 + - 0) / 400) 1) as [_|H]; [|lra].
  f_equal. lra.
Qed.

(** From a computed [left: 0px] towards [{left: "100px"}], 200 ms into the
    default 400 ms with the default easing, the step writes the number 50
    followed by [px]. *)
Lemma left_half_way :
  exists v,
    styles (run (plainHost "0px") (init ∅ (JNum 0))
              (half_way_run [("left", "100px")]))
      !! (0%nat, "left") = Some [Num (JNum v); Lit "px"] /\ v = 50%R.
Proof.
  set (w2 := run (plainHost "0px") (init ∅ (JNum 0))
               (firstn 2 (half_way_run [("left", "100px")]))).
  assert (Hb : exists tk, batch w2 = [tk] /\ t_startTime tk = JNum 0 /\
             t_entry tk = request0 "left" "100px" (JNum 400) /\
             task_plan tk "left" = Some (NumericPlan (JNum 0) (JNum 100) "px")).
  { eexists. split; [reflexivity|]. repeat split; reflexivity. }
  destruct Hb as (tk & Hb & Hs & He & Hp).
  assert (Hw : run (plainHost "0px") (init ∅ (JNum 0))
                 (half_way_run [("left", "100px")])
               = step (plainHost "0px") (set_batch w2 [] (JNum 200)) tk
                   (JNum 200)).
  { change (run (plainHost "0px") (init ∅ (JNum 0))
              (half_way_run [("left", "100px")]))
      with (exec (plainHost "0px") w2 LStep).
    cbn [exec]. rewrite Hb. reflexivity. }
  rewrite Hw.
  pose proof (step_writes_plan (plainHost "0px") (set_batch w2 [] (JNum 200))
                tk (JNum 200) "left" _ Hp) as Hst.
  unfold task_el in Hst. rewrite He in Hst. cbn [request0 e_el e_easing] in Hst.
  rewrite progress_half in Hst by (rewrite ?He; reflexivity || assumption).
  cbn [spec_evaluate jadd jsub jneg jmul] in Hst.
  eexists. split; [exact Hst|]. lra.
Qed.

(** From a computed [rgb(255, 0, 0)] towards [blue], at one half the step
    writes [rgb(128, 0, 128, 1)]. *)
Lemma red_to_blue_half_way :
  styles (run (plainHost "rgb(255, 0, 0)") (init ∅ (JNum 0))
            (half_way_run [("color", "blue")]))
    !! (0%nat, "color")
  = Some [Lit "rgb("; Num (JNum 128); Lit ", "; Num (JNum 0); Lit ", ";
          Num (JNum 128); Lit ", "; Num (JNum 1); Lit ")"].
Proof.
  set (w2 := run (plainHost "rgb(255, 0, 0)") (init ∅ (JNum 0))
               (firstn 2 (half_way_run [("color", "blue")]))).
  assert (Hb : exists tk, batch w2 = [tk] /\ t_startTime tk = JNum 0 /\
             t_entry tk = request0 "color" "blue" (JNum 400) /\
             task_plan tk "color"
             = Some (ColorPlan [JNum 255; JNum 0; JNum 0; JNum 1]
                       [JNum 0; JNum 0; JNum 255; JNum 1])).
  { eexists. split; [reflexivity|]. repeat split; reflexivity. }
  destruct Hb as (tk & Hb & Hs & He & Hp).
  assert (Hw : run (plainHost "rgb(255, 0, 0)") (init ∅ (JNum 0))
                 (half_way_run [("color", "blue")])
               = step (plainHost "rgb(255, 0, 0)")
                   (set_batch w2 [] (JNum 200)) tk (JNum 200)).
  { change (run (plainHost "rgb(255, 0, 0)") (init ∅ (JNum 0))
              (half_way_run [("color", "blue")]))
      with (exec (plainHost "rgb(255, 0, 0)") w2 LStep).
    cbn [exec]. rewrite Hb. reflexivity. }
  rewrite Hw.
  pose proof (step_writes_plan (plainHost "rgb(255, 0, 0)")
                (set_batch w2 [] (JNum 200)) tk (JNum 200) "color" _ Hp)
    as Hst.
  unfold task_el in Hst. rewrite He in Hst. cbn [request0 e_el e_easing] in Hst.
  rewrite progress_half in Hst by (rewrite ?He; reflexivity || assumption).
  cbn [spec_evaluate jadd jsub jneg jmul nth] in Hst.
  refine (eq_trans Hst _). clear.
  repeat match goal with
         | |- context [jround (JNum ?x)] =>
             first [rewrite (jround_eq x 128) by lra
                   |rewrite (jround_eq x 0) by lra]
         end.
  repeat f_equal. lra.
Qed.

End Scenarios.

(** ** More of the colour resolver *)

Section ResolverMore.

Import Color Texts.

Lemma assoc_In {A : Type} (k : string) (l : list (string * A)) (v : A) :
  assoc k l = Some v -> In (k, v) l.
Proof.
  induction l as [|[k' v'] l IH]; [discriminate|]. cbn [assoc].
  destruct (String.eqb k k') eqn:E.
  - intros [= <-]. apply String.eqb_eq in E as <-. left. reflexivity.
  - intros H. right. apply IH, H.
Qed.

(** Every entry of the table has four components, and its key is none of
    the other forms and is in lower case. *)
Lemma colorNames_entries :
  forallb
    (fun kv =>
       (length (snd kv) =? 4)%nat &&
       match match_rgb (fst kv), match_rgba (fst kv), match_hex (fst kv) with
       | None, None, None => String.eqb (toLowerCase (fst kv)) (fst kv)
       | _, _, _ => false
       end)
    colorNames = true.
Proof. vm_compute. reflexivity. Qed.

Lemma colorNames_entry (k : string) (v : list jsnum) :
  assoc k colorNames = Some v ->
  length v = 4%nat /\ match_rgb k = None /\ match_rgba k = None /\
  match_hex k = None /\ toLowerCase k = k.
Proof.
  intros H. apply assoc_In in H.
  pose proof (proj1 (forallb_forall _ _) colorNames_entries _ H) as E.
  cbn [fst snd] in E. apply andb_prop in E as [E1 E2].
  apply Nat.eqb_eq in E1.
  destruct (match_rgb k); [discriminate|].
  destruct (match_rgba k); [discriminate|].
  destruct (match_hex k); [discriminate|].
  apply String.eqb_eq in E2. auto.
Qed.

(** X1.  A colour that resolves has exactly four components, whatever the
    canvas reads back, the names of the members of [Object.prototype]
    apart: for those [colorNames[computed]] finds an inherited member, not
    an entry of the table. *)
Theorem parseColor_four_components (cv : Canvas) (color : string)
    (res : list jsnum) :
  inherited (fillStyle cv color) = false ->
  parseColor cv color = Some res -> length res = 4%nat.
Proof.
  intros _. unfold parseColor.
  destruct (negb (getContext2d cv)); [discriminate|].
  destruct (pixelAlpha cv color =? 0)%Z; [intros [= <-]; reflexivity|].
  destruct (match_rgb (fillStyle cv color)) as [[[m1 m2] m3]|];
    [intros [= <-]; reflexivity|].
  destruct (match_rgba (fillStyle cv color)) as [[[[m1 m2] m3] m4]|];
    [intros [= <-]; reflexivity|].
  destruct (match_hex (fillStyle cv color)) as [m0|];
    [intros [= <-]; reflexivity|].
  destruct (assoc (fillStyle cv color) colorNames) as [v|] eqn:E;
    [|discriminate].
  intros H. apply colorNames_entry in H. apply H.
Qed.

Lemma parseColor_four_components_example :
  length [hex_value "a" "a"; hex_value "b" "b"; hex_value "c" "c"; JNum 1]
  = 4%nat.
Proof.
  apply (parseColor_four_components echo "#abc"); [reflexivity|].
  apply (parseColor_hex3 echo "#abc" "a" "b" "c");
    reflexivity || discriminate.
Defined.

(** X2.  A canvas that reads the colour back as [rgb(r, g, b)] makes it resolve
    to the three numbers written and alpha 1, when none of the three is
    above 2^53: up to there [parseInt] gives the number written. *)
Theorem parseColor_rgb_opaque (cv : Canvas) (color : string)
    (r g b w1 w2 : chars) :
  getContext2d cv = true ->
  fillStyle cv color = rgb_text r g b w1 w2 ->
  pixelAlpha cv color <> 0%Z ->
  digits r -> digits g -> digits b -> spaces w1 -> spaces w2 ->
  (digits_val 10 r <= 2 ^ 53)%Z -> (digits_val 10 g <= 2 ^ 53)%Z ->
  (digits_val 10 b <= 2 ^ 53)%Z ->
  parseColor cv color =
  Some [nat_value r; nat_value g; nat_value b; JNum 1].
Proof.
  intros Hctx Hfill Hpx Hr Hg Hb Hw1 Hw2 _ _ _. unfold parseColor.
  rewrite Hctx, Hfill. cbn [negb]. apply Z.eqb_neq in Hpx. rewrite Hpx.
  rewrite match_rgb_text by assumption.
  rewrite !parseInt_digits by assumption.
  change "1" with (str ["1"%char]).
  rewrite parseInt_digits by (split; [discriminate|reflexivity]).
  reflexivity.
Qed.

Lemma parseColor_rgb_example :
  parseColor echo "rgb(300, 20,7)" = Some [JNum 300; JNum 20; JNum 7; JNum 1].
Proof.
  refine (parseColor_rgb_opaque echo "rgb(300, 20,7)"
            (list_ascii_of_string "300") (list_ascii_of_string "20")
            (list_ascii_of_string "7") [" "%char] []
            eq_refl eq_refl _ _ _ _ eq_refl eq_refl _ _ _);
    try discriminate; split; (discriminate || reflexivity).
Defined.

(** X3.  The short form [#rgb] resolves to what the long form [#rrggbb] with
    each digit doubled resolves to: the bytes [rr], [gg], [bb] and
    alpha 1. *)
Theorem parseColor_hex_short_doubles (r g b : ascii) (a a' : Z)
    (color color' : string) :
  is_hex r = true -> is_hex g = true -> is_hex b = true ->
  a <> 0%Z -> a' <> 0%Z ->
  parseColor (reading (hex_text [r; g; b]) a) color
  = parseColor (reading (hex_text [r; r; g; g; b; b]) a') color' /\
  parseColor (reading (hex_text [r; g; b]) a) color
  = Some [hex_value r r; hex_value g g; hex_value b b; JNum 1].
Proof.
  intros Hr Hg Hb Ha Ha'.
  rewrite (parseColor_hex3 _ color r g b) by (assumption || reflexivity).
  rewrite (parseColor_hex6 _ color' r r g g b b);
    [split; reflexivity|reflexivity|reflexivity|assumption|].
  cbn [forallb]. rewrite Hr, Hg, Hb. reflexivity.
Qed.

Lemma parseColor_hex_short_example :
  parseColor (reading "#1af" 255) "x" = parseColor (reading "#11aaff" 255) "y"
  /\ parseColor (reading "#1af" 255) "x"
     = Some [hex_value "1" "1"; hex_value "a" "a"; hex_value "f" "f"; JNum 1].
Proof.
  apply (parseColor_hex_short_doubles "1" "a" "f" 255 255 "x" "y");
    reflexivity || discriminate.
Defined.

(** X4.  A canvas that reads the colour back as a name of the table makes it
    resolve to the entry of that name. *)
Theorem parseColor_named (cv : Canvas) (color name : string)
    (v : list jsnum) :
  getContext2d cv = true ->
  fillStyle cv color = name ->
  pixelAlpha cv color <> 0%Z ->
  assoc name colorNames = Some v ->
  parseColor cv color = Some v.
Proof.
  intros Hctx Hfill Hpx Hv. unfold parseColor.
  rewrite Hctx, Hfill. cbn [negb]. apply Z.eqb_neq in Hpx. rewrite Hpx.
  destruct (colorNames_entry name v Hv) as (_ & -> & -> & -> & ->).
  rewrite Hv. reflexivity.
Qed.

Lemma parseColor_named_example :
  parseColor echo "rebeccapurple" = Some [JNum 102; JNum 51; JNum 153; JNum 1].
Proof.
  apply (parseColor_named echo "rebeccapurple" "rebeccapurple");
    reflexivity || discriminate.
Defined.

End ResolverMore.
(** ** More of the OKLCH pipeline of the earlier revision *)

Section OklchMore.

Import Color Legacy.

(** X6.  A colour of chroma 0 converts to the same RGB whatever its hue,
    for hues of magnitude at most 10^300, where [h * Math.PI] is finite:
    the products [0 * cos] and [0 * sin] are then 0. *)
Theorem oklch2rgb_grey_ignores_hue (L H H' : R) :
  (Rabs H <= 1e300)%R -> (Rabs H' <= 1e300)%R ->
  oklch2rgb [JNum L; JNum 0; JNum H] = oklch2rgb [JNum L; JNum 0; JNum H'].
Proof.
  intros _ _. unfold oklch2rgb. f_equal. f_equal. f_equal.
  unfold oklch2oklab, at_. cbn [nth jisNaN]. rewrite !radians_num.
  cbn [jcos jsin jmul]. rewrite !Rmult_0_l. reflexivity.
Qed.

Lemma oklch2rgb_grey_ignores_hue_example :
  oklch2rgb [JNum 0.5; JNum 0; JNum 30] = oklch2rgb [JNum 0.5; JNum 0; JNum 200].
Proof.
  apply (oklch2rgb_grey_ignores_hue 0.5 30 200);
    apply Rabs_le; lra.
Defined.

End OklchMore.


(** ** More of the frame loop *)

Section FrameLoopMore.

Import Color Anim AnimSpec Examples.

Lemma jround_int (z : Z) : jround (of_Z z) = of_Z z.
Proof.
  unfold jround, of_Z. do 2 f_equal. apply Zfloor_eq. lra.
Qed.

Lemma blend_full (s e : Z) :
  jadd (of_Z s) (jmul (jsub (of_Z e) (of_Z s)) (JNum 1)) = of_Z e.
Proof. unfold of_Z. cbn [jsub jneg jadd jmul]. f_equal. lra. Qed.

(** X9.  The step that runs once the duration has elapsed, for an easing
    that maps 1 to 1, leaves the destination in the style: the destination
    text of an opaque plan and, for start and destination values that are
    integers of magnitude at most 2^52, as pixel counts and colour channels
    are, the destination number with the unit and the destination colour.
    (On such integers the blend is computed without rounding.) *)
Theorem completion_writes_destination (h : Host) (w : World) (tk : Task)
    (prop : string) (st d now : R) :
  t_startTime tk = JNum st -> e_duration (t_entry tk) = JNum d ->
  (0 < d)%R -> (st + d <= now)%R ->
  e_easing (t_entry tk) (JNum 1) = JNum 1 ->
  let written := styles (step h w tk (JNum now)) !! (task_el tk, prop) in
  let exact (z : Z) := (Z.abs z <= 2 ^ 52)%Z in
  (forall (s e : Z) (u : string),
     exact s -> exact e ->
     task_plan tk prop = Some (NumericPlan (of_Z s) (of_Z e) u) ->
     written = Some [Num (of_Z e); Lit u]) /\
  (forall s0 s1 s2 s3 e0 e1 e2 e3 : Z,
     Forall exact [s0; s1; s2; s3; e0; e1; e2; e3] ->
     task_plan tk prop
     = Some (ColorPlan [of_Z s0; of_Z s1; of_Z s2; of_Z s3]
               [of_Z e0; of_Z e1; of_Z e2; of_Z e3]) ->
     written = Some [Lit "rgb("; Num (of_Z e0); Lit ", "; Num (of_Z e1);
                     Lit ", "; Num (of_Z e2); Lit ", "; Num (of_Z e3);
                     Lit ")"]) /\
  (forall e,
     task_plan tk prop = Some (OpaquePlan e) -> written = Some [Lit e]).
Proof.
  intros Hs Hd Hpos Hle Hease written exact. subst written.
  assert (Hfull : progress tk (JNum now) = JNum 1)
    by (apply (progress_full tk st now d); assumption || lra).
  split; [|split].
  - intros s e u _ _ Hp.
    refine (eq_trans (step_writes_plan h w tk (JNum now) prop _ Hp) _).
    rewrite Hfull, Hease.
    cbn [spec_evaluate]. rewrite blend_full. reflexivity.
  - intros s0 s1 s2 s3 e0 e1 e2 e3 _ Hp.
    refine (eq_trans (step_writes_plan h w tk (JNum now) prop _ Hp) _).
    rewrite Hfull, Hease.
    cbn [spec_evaluate nth]. rewrite !blend_full, !jround_int. reflexivity.
  - intros e Hp.
    refine (eq_trans (step_writes_plan h w tk (JNum now) prop _ Hp) _).
    rewrite Hfull, Hease.
    cbn [spec_evaluate jeq].
    destruct (Req_dec_T 1 1) as [_|N]; [reflexivity|contradiction].
Qed.

Lemma completion_writes_destination_example :
  styles (step (plainHost "0px") (init ∅ (JNum 0)) left_task (JNum 450))
    !! (0%nat, "left") = Some [Num (JNum 100); Lit "px"].
Proof.
  refine (proj1 (completion_writes_destination (plainHost "0px")
                   (init ∅ (JNum 0)) left_task "left" 0 400 450
                   eq_refl eq_refl _ _ eq_refl) 0%Z 100%Z "px" _ _ eq_refl);
    try lra; apply Z.leb_le; reflexivity.
Defined.

Lemma animate_el_queues (h : Host) (ps : list (string * string)) (d : jsnum)
    (ea : jsnum -> jsnum) (cb : option Callback) (w : World) (el : node) :
  let w' := animate_el h ps d ea cb w el in
  queues w' =
  <[el := default [] (queues w !! el)
          ++ [{| e_id := next_id w; e_el := el; e_properties := ps;
                 e_duration := d; e_easing := ea; e_callback := cb |}]]>
    (queues w) /\
  next_id w' = S (next_id w).
Proof.
  cbn zeta. rewrite animate_el_pushed. unfold pushed. cbn [fst snd].
  destruct (default [] (queues w !! el)); split; reflexivity.
Qed.

(** X10.  A call of [animate] on a selection appends to the queue of every
    element one entry for each time the element occurs in the selection;
    each entry carries the properties, duration, easing and callback of the
    call, so a callback is queued once for every selected element. *)
Theorem animate_queues_one_entry_per_element (h : Host) (w : World)
    (targets : list node) (ps : list (string * string)) (d : option jsnum)
    (ea : option (jsnum -> jsnum)) (cb : option Callback) (el : node) :
  let w' := animate h w (MkCall targets ps d ea cb) in
  next_id w' = next_id w + length targets /\
  exists added,
    default [] (queues w' !! el) = default [] (queues w !! el) ++ added /\
    length added = length (filter (fun x => x = el) targets) /\
    Forall (fun e => e_el e = el /\ e_properties e = ps /\
                     e_duration e = default (JNum 400) d /\
                     e_easing e = default (fun t => t) ea /\
                     e_callback e = cb /\
                     next_id w <= e_id e < next_id w')
           added.
Proof.
  cbn zeta. revert w. induction targets as [|x ts IH]; intros w.
  - cbn [animate fold_left length]. split; [lia|].
    exists []. rewrite app_nil_r. repeat split. constructor.
  - change (animate h w (MkCall (x :: ts) ps d ea cb))
      with (animate h (animate_el h ps (default (JNum 400) d)
                         (default (fun t => t) ea) cb w x)
              (MkCall ts ps d ea cb)).
    destruct (animate_el_queues h ps (default (JNum 400) d)
                (default (fun t => t) ea) cb w x) as [Hq Hn].
    cbn zeta in Hq, Hn.
    set (w1 := animate_el h ps (default (JNum 400) d)
                 (default (fun t => t) ea) cb w x) in *.
    destruct (IH w1) as (Hnext & added & Hadd & Hlen & Hall).
    split; [rewrite Hnext, Hn; cbn [length]; lia|].
    rewrite Hadd, Hq.
    assert (Hall' : Forall (fun e => e_el e = el /\ e_properties e = ps /\
                     e_duration e = default (JNum 400) d /\
                     e_easing e = default (fun t => t) ea /\
                     e_callback e = cb /\
                     next_id w <= e_id e
                     < next_id (animate h w1 (MkCall ts ps d ea cb)))
                   added).
    { eapply Forall_impl; [exact Hall|].
      intros e (? & ? & ? & ? & ? & ?). repeat split; try assumption; lia. }
    destruct (decide (x = el)) as [->|Hne].
    + rewrite lookup_insert_eq. cbn [from_option].
      match goal with
      | |- context [default [] (queues w !! el) ++ [?e1]] =>
          exists (e1 :: added)
      end.
      split; [unfold Datatypes.id at 1; rewrite <- app_assoc; reflexivity|].
      rewrite filter_cons_True by reflexivity. cbn [length].
      split; [f_equal; exact Hlen|].
      constructor; [|exact Hall'].
      cbn [e_el e_properties e_duration e_easing e_callback e_id].
      repeat split; lia.
    + rewrite lookup_insert_ne by exact Hne.
      exists added. split; [reflexivity|].
      rewrite filter_cons_False by exact Hne.
      split; [exact Hlen|exact Hall'].
Qed.

(** X11.  When an entry completes and its callback calls [animate] on the
    same element, the request of the callback is queued behind the entries
    that were already waiting, and only after the completed entry has left
    the queue is the entry now at the head started, in the same frame
    callback, with the clock of that moment as its start time. *)
Theorem callback_request_goes_behind (h : Host) (w : World) (tk : Task)
    (now : jsnum) (q : list Entry) (tag : nat) (ps : list (string * string))
    (d : option jsnum) (ea : option (jsnum -> jsnum)) (cb : option Callback) :
  let e := t_entry tk in
  let el := e_el e in
  let e' := {| e_id := next_id w; e_el := el; e_properties := ps;
               e_duration := default (JNum 400) d;
               e_easing := default (fun t => t) ea; e_callback := cb |} in
  let e0 := hd e' q in
  let w' := step h w tk now in
  queues w !! el = Some (e :: q) ->
  e_callback e = Some (Cb tag [MkCall [el] ps d ea cb]) ->
  jlt (progress tk now) (JNum 1) = false ->
  queues w' !! el = Some (q ++ [e']) /\
  log w' = log w ++ [EvStep (e_id e); EvCallback (e_id e) tag;
                     EvEnqueue el (next_id w) (cb_tag <$> cb);
                     EvDone (e_id e); EvStart (e_id e0)] /\
  exists tk', raf w' = raf w ++ [tk'] /\ t_entry tk' = e0 /\
              t_startTime tk' = clock w.
Proof.
  intros e el e' e0 w' Hq Hcb Hdone. subst w'. unfold step.
  fold e. rewrite Hdone. unfold invoke. rewrite Hcb.
  cbn [cb_calls cb_tag fold_left animate]. fold el.
  match goal with
  | |- context [animate_el h _ _ _ _ ?ww el] => set (w2 := ww)
  end.
  assert (Hq2 : queues w2 !! el = Some (e :: q)) by exact Hq.
  assert (Hn2 : next_id w2 = next_id w) by reflexivity.
  assert (Hl2 : log w2 = log w ++ [EvStep (e_id e); EvCallback (e_id e) tag]).
  { subst w2. cbn [log emit set_styles]. rewrite <- app_assoc. reflexivity. }
  assert (Hr2 : raf w2 = raf w) by reflexivity.
  assert (Hc2 : clock w2 = clock w) by reflexivity.
  clearbody w2.
  rewrite animate_el_pushed, Hq2.
  change (default [] (Some (e :: q))) with (e :: q). cbv beta iota.
  unfold pushed. cbn [fst]. rewrite Hq2, Hn2.
  change (default [] (Some (e :: q))) with (e :: q). fold e'.
  match goal with
  | |- context [shift ?ww el] => set (w3 := ww)
  end.
  assert (Hq3 : queues w3 !! el = Some (e :: q ++ [e']))
    by apply lookup_insert_eq.
  unfold shift. rewrite Hq3.
  match goal with
  | |- context [run_entry h ?ww _] => set (w4 := ww)
  end.
  assert (Hq4 : queues w4 !! el = Some (q ++ [e']))
    by apply lookup_insert_eq.
  rewrite Hq4.
  assert (Hhd : q ++ [e'] = e0 :: tl (q ++ [e'])).
  { subst e0. destruct q; reflexivity. }
  rewrite Hhd. rewrite <- Hhd.
  unfold run_entry, requestAnimationFrame.
  cbn [set_raf emit queues log raf clock styles]. rewrite Hq4.
  split; [reflexivity|]. split.
  - subst w4 w3. cbn [log emit set_queues]. rewrite Hl2.
    rewrite <- !app_assoc. reflexivity.
  - eexists. split; [subst w4 w3; cbn [raf emit set_queues]; rewrite Hr2;
                     reflexivity|].
    split; [reflexivity|]. cbn [t_startTime]. exact Hc2.
Qed.

Lemma callback_request_goes_behind_example :
  queues (step (plainHost "0px") chaining_world chaining_task (JNum 100))
    !! 0%nat
  = Some [{| e_id := 1; e_el := 0%nat; e_properties := [("left", "10px")];
             e_duration := JNum 400; e_easing := fun t => t;
             e_callback := None |}].
Proof.
  refine (proj1 (callback_request_goes_behind (plainHost "0px")
                   chaining_world chaining_task (JNum 100) [] 7
                   [("left", "10px")] None None None _ _ _)).
  - reflexivity.
  - reflexivity.
  - rewrite (progress_full chaining_task 0 100 100) by (reflexivity || lra).
    unfold jlt. destruct (Rlt_dec 1 1); [lra|reflexivity].
Defined.

End FrameLoopMore.

(** ** The document tree *)

Section DocumentTree.

Import Anim Dom.

Lemma Tree_induction (P : Tree -> Prop) :
  (forall i h ks, Forall P ks -> P (Elem i h ks)) -> forall t, P t.
Proof.
  intros H. fix IH 1. intros [i h ks]. apply H.
  induction ks as [|k ks IHks]; constructor; [apply IH|exact IHks].
Qed.

Lemma first_some_Some {A B : Type} (f : A -> option B) (l : list A) (y : B) :
  first_some f l = Some y ->
  exists l1 x l2, l = l1 ++ x :: l2 /\ f x = Some y /\
                  Forall (fun z => f z = None) l1.
Proof.
  induction l as [|x l IH]; [discriminate|]. cbn [first_some].
  destruct (f x) as [y'|] eqn:E.
  - intros [= <-]. exists [], x, l. repeat split; [exact E|constructor].
  - intros H. destruct (IH H) as (l1 & x' & l2 & -> & Hx & Hall).
    exists (x :: l1), x', l2. repeat split; [exact Hx|].
    constructor; assumption.
Qed.

Lemma first_some_skip {A B : Type} (f : A -> option B) (l1 l2 : list A) :
  Forall (fun z => f z = None) l1 ->
  first_some f (l1 ++ l2) = first_some f l2.
Proof.
  induction 1 as [|x l1 Hx _ IH]; [reflexivity|].
  cbn [app first_some]. rewrite Hx. exact IH.
Qed.

Lemma locate_eq (i : node) (h : bool) (ks : list Tree) (el : node) :
  locate (Elem i h ks) el =
  if (i =? el)%nat then Some [Elem i h ks]
  else match first_some (fun k => locate k el) ks with
       | Some p => Some (p ++ [Elem i h ks])
       | None => None
       end.
Proof. reflexivity. Qed.

Lemma subtrees_eq (t : Tree) :
  subtrees t = t :: flat_map subtrees (t_kids t).
Proof. destruct t. reflexivity. Qed.

Lemma subtrees_self (t : Tree) : t ∈ subtrees t.
Proof. rewrite subtrees_eq. apply elem_of_cons. left. reflexivity. Qed.

Lemma subtrees_kid (t k x : Tree) :
  k ∈ t_kids t -> x ∈ subtrees k -> x ∈ flat_map subtrees (t_kids t).
Proof.
  intros Hk Hx. apply list_elem_of_In, in_flat_map. exists k.
  split; apply list_elem_of_In; assumption.
Qed.

Lemma subtrees_below (t k x : Tree) :
  k ∈ t_kids t -> x ∈ subtrees k -> x ∈ subtrees t.
Proof.
  intros Hk Hx. rewrite subtrees_eq. apply elem_of_cons. right.
  apply (subtrees_kid t k x Hk Hx).
Qed.

Lemma subtrees_trans (t s x : Tree) :
  s ∈ subtrees t -> x ∈ subtrees s -> x ∈ subtrees t.
Proof.
  revert s x. induction t as [i h ks IH] using Tree_induction.
  intros s x Hs Hx. rewrite subtrees_eq in Hs.
  apply elem_of_cons in Hs as [->|Hs]; [exact Hx|].
  apply list_elem_of_In, in_flat_map in Hs as (k & Hk & Hs).
  apply list_elem_of_In in Hk, Hs.
  apply (subtrees_below _ k); [exact Hk|].
  rewrite Forall_forall in IH. apply (IH k Hk s x Hs Hx).
Qed.

Lemma Path_last (t : Tree) (p : list Tree) :
  Path t p -> exists p', p = p' ++ [t].
Proof.
  intros [t'|t' k p' _ _]; [exists []; reflexivity|exists p'; reflexivity].
Qed.

Lemma Path_head (t : Tree) (p : list Tree) :
  Path t p -> exists s rest, p = s :: rest.
Proof.
  intros H. destruct (Path_last t p H) as [[|s p'] ->]; eexists _, _;
    reflexivity.
Qed.

Lemma Path_single (t s : Tree) : Path t [s] -> s = t.
Proof.
  intros H. destruct (Path_last t _ H) as [[|x [|y p']] E]; try discriminate.
  injection E as ->. reflexivity.
Qed.

Lemma Path_subtrees (t : Tree) (p : list Tree) :
  Path t p -> forall x, x ∈ p -> x ∈ subtrees t.
Proof.
  induction 1 as [t|t k p Hk Hp IH]; intros x Hx.
  - apply list_elem_of_singleton in Hx as ->. apply subtrees_self.
  - apply elem_of_app in Hx as [Hx|Hx].
    + apply (subtrees_below t k); [exact Hk|]. apply IH, Hx.
    + apply list_elem_of_singleton in Hx as ->. apply subtrees_self.
Qed.

(** In a path a tree is a child of the tree that follows it, and what
    follows a tree is a path as well. *)
Lemma Path_step (t a b : Tree) (rest : list Tree) :
  Path t (a :: b :: rest) -> a ∈ t_kids b /\ Path t (b :: rest).
Proof.
  remember (a :: b :: rest) as p eqn:E. intros H. revert a b rest E.
  induction H as [t|t k p Hk Hp IH]; intros a b rest E; [discriminate|].
  destruct (Path_head k p Hp) as (s & p' & ->).
  injection E as <- E.
  destruct p' as [|b' p'].
  - injection E as <- <-. apply Path_single in Hp as ->.
    split; [exact Hk|constructor].
  - injection E as <- <-.
    destruct (IH s b' p' eq_refl) as [Ha Hb].
    split; [exact Ha|]. apply (Path_below t k (b' :: p') Hk Hb).
Qed.

Lemma Path_extend (t s k : Tree) (rest : list Tree) :
  Path t (s :: rest) -> k ∈ t_kids s -> Path t (k :: s :: rest).
Proof.
  remember (s :: rest) as p eqn:E. intros H. revert s rest E.
  induction H as [t|t k0 p Hk0 Hp IH]; intros s rest E Hk.
  - injection E as <- <-.
    apply (Path_below t k [k] Hk (Path_here k)).
  - destruct (Path_head k0 p Hp) as (s' & p' & ->).
    injection E as <- <-.
    apply (Path_below t k0 (k :: s' :: p') Hk0).
    apply (IH s' p' eq_refl Hk).
Qed.

Lemma Path_compose (s : Tree) (q : list Tree) :
  Path s q -> forall t rest, Path t (s :: rest) -> Path t (q ++ rest).
Proof.
  induction 1 as [s|s k p Hk Hp IH]; intros t rest Ht; [exact Ht|].
  rewrite <- app_assoc. apply IH. apply Path_extend; assumption.
Qed.

Lemma Path_to (t s : Tree) :
  s ∈ subtrees t -> exists rest, Path t (s :: rest).
Proof.
  revert s. induction t as [i h ks IH] using Tree_induction. intros s Hs.
  rewrite subtrees_eq in Hs. apply elem_of_cons in Hs as [->|Hs].
  - exists []. constructor.
  - apply list_elem_of_In, in_flat_map in Hs as (k & Hk & Hs).
    apply list_elem_of_In in Hk, Hs. rewrite Forall_forall in IH.
    destruct (IH k Hk s Hs) as [rest Hp].
    exists (rest ++ [Elem i h ks]).
    apply (Path_below (Elem i h ks) k (s :: rest) Hk Hp).
Qed.

(** What [locate] finds is a path that starts at the element. *)
Lemma locate_sound (t : Tree) (el : node) (p : list Tree) :
  locate t el = Some p ->
  Path t p /\ exists s rest, p = s :: rest /\ t_id s = el.
Proof.
  revert el p. induction t as [i h ks IH] using Tree_induction.
  intros el p. rewrite locate_eq. destruct (i =? el)%nat eqn:E.
  - intros [= <-]. apply Nat.eqb_eq in E.
    split; [constructor|]. exists (Elem i h ks), []. split; [reflexivity|exact E].
  - destruct (first_some _ ks) as [p0|] eqn:F; [|discriminate].
    intros [= <-].
    apply first_some_Some in F as (l1 & k & l2 & -> & Hk & _).
    rewrite Forall_forall in IH.
    assert (Hin : k ∈ l1 ++ k :: l2)
      by (apply elem_of_app; right; apply elem_of_cons; left; reflexivity).
    destruct (IH k Hin el p0 Hk) as (Hp & s & rest & -> & Hs).
    split.
    + apply (Path_below (Elem i h (l1 ++ k :: l2)) k (s :: rest) Hin Hp).
    + exists s, (rest ++ [Elem i h (l1 ++ k :: l2)]).
      split; [reflexivity|exact Hs].
Qed.

Lemma locate_in (t : Tree) (el : node) (p : list Tree) :
  locate t el = Some p -> el ∈ ids t.
Proof.
  intros H. destruct (locate_sound t el p H) as (Hp & s & rest & -> & <-).
  unfold ids. apply list_elem_of_In, in_map, list_elem_of_In.
  apply (Path_subtrees t _ Hp). apply elem_of_cons. left. reflexivity.
Qed.

Lemma ids_eq (t : Tree) : ids t = t_id t :: flat_map ids (t_kids t).
Proof.
  destruct t as [i h ks]. unfold ids. cbn [subtrees map t_id t_kids].
  f_equal. induction ks as [|k ks IH]; [reflexivity|].
  cbn [flat_map]. rewrite map_app, IH. reflexivity.
Qed.

Lemma ids_kid (t k : Tree) (x : node) :
  k ∈ t_kids t -> x ∈ ids k -> x ∈ flat_map ids (t_kids t).
Proof.
  intros Hk Hx. apply list_elem_of_In, in_flat_map. exists k.
  split; apply list_elem_of_In; assumption.
Qed.

Lemma NoDup_flat_map_split {A B : Type} (f : A -> list B) (l1 l2 : list A)
    (k : A) :
  NoDup (flat_map f (l1 ++ k :: l2)) ->
  NoDup (f k) /\ (forall x, x ∈ f k -> forall z, z ∈ (l1 ++ l2) -> x ∉ f z).
Proof.
  rewrite flat_map_app. cbn [flat_map]. intros H.
  apply NoDup_app in H as (H1 & H12 & H2).
  apply NoDup_app in H2 as (Hk & Hk2 & H3).
  split; [exact Hk|]. intros x Hx z Hz Hxz.
  apply elem_of_app in Hz as [Hz|Hz].
  - apply (H12 x).
    + apply list_elem_of_In, in_flat_map. exists z.
      split; apply list_elem_of_In; assumption.
    + apply elem_of_app. left. exact Hx.
  - apply (Hk2 x Hx). apply list_elem_of_In, in_flat_map. exists z.
    split; apply list_elem_of_In; assumption.
Qed.

Lemma distinct_kid (t k : Tree) :
  NoDup (ids t) -> k ∈ t_kids t -> NoDup (ids k).
Proof.
  rewrite ids_eq. intros H Hk. apply NoDup_cons in H as [_ H].
  apply list_elem_of_split in Hk as (l1 & l2 & E). rewrite E in H.
  apply (NoDup_flat_map_split ids l1 l2 k H).
Qed.

(** Among distinct elements [locate] finds every path. *)
Lemma locate_complete (t : Tree) (p : list Tree) :
  Path t p -> NoDup (ids t) ->
  forall s rest, p = s :: rest -> locate t (t_id s) = Some p.
Proof.
  induction 1 as [t|t k p Hk Hp IH]; intros Hnd s rest E.
  - injection E as <- <-. destruct t as [i h ks]. rewrite locate_eq.
    cbn [t_id]. rewrite Nat.eqb_refl. reflexivity.
  - destruct (Path_head k p Hp) as (s' & p' & ->).
    injection E as <- <-.
    assert (Hs : t_id s' ∈ ids k).
    { unfold ids. apply list_elem_of_In, in_map, list_elem_of_In.
      apply (Path_subtrees k _ Hp). apply elem_of_cons. left. reflexivity. }
    pose proof (IH (distinct_kid t k Hnd Hk) s' p' eq_refl) as Hloc.
    destruct t as [i h ks]. cbn [t_kids] in Hk. rewrite locate_eq.
    rewrite ids_eq in Hnd. cbn [t_id t_kids] in Hnd.
    apply NoDup_cons in Hnd as [Hi Hnd].
    assert (Hne : (i =? t_id s')%nat = false).
    { apply Nat.eqb_neq. intros ->. apply Hi.
      apply (ids_kid (Elem (t_id s') h ks) k); assumption. }
    rewrite Hne.
    pose proof Hk as Hk'.
    apply list_elem_of_split in Hk' as (l1 & l2 & E).
    rewrite E in Hnd.
    destruct (NoDup_flat_map_split ids l1 l2 k Hnd) as [_ Hother].
    assert (Hskip : Forall (fun z => locate z (t_id s') = None) l1).
    { apply Forall_forall. intros z Hz.
      destruct (locate z (t_id s')) as [pz|] eqn:Ez; [|reflexivity].
      exfalso. apply (Hother (t_id s') Hs z).
      - apply elem_of_app. left. exact Hz.
      - apply (locate_in z _ pz Ez). }
    rewrite E at 1. rewrite (first_some_skip _ l1 (k :: l2) Hskip).
    cbn [first_some]. rewrite Hloc. reflexivity.
Qed.

Lemma Path_suffix (t b : Tree) (pre a2 : list Tree) :
  Path t (pre ++ b :: a2) -> Path t (b :: a2).
Proof.
  induction pre as [|a pre IH]; [trivial|]. cbn [app]. intros H. apply IH.
  destruct (pre ++ b :: a2) as [|c r] eqn:E; [destruct pre; discriminate|].
  apply (Path_step t a c r H).
Qed.

Lemma Path_above (t b : Tree) (pre a2 : list Tree) :
  Path t (pre ++ b :: a2) ->
  forall z, z ∈ pre -> z ∈ flat_map subtrees (t_kids b).
Proof.
  induction pre as [|a pre IH]; intros H z Hz.
  - apply elem_of_nil in Hz. contradiction.
  - cbn [app] in H. destruct pre as [|c r]; cbn [app] in H.
    + apply list_elem_of_singleton in Hz as ->.
      destruct (Path_step t a b a2 H) as [Ha _].
      apply (subtrees_kid b a a Ha (subtrees_self a)).
    + destruct (Path_step t a c (r ++ b :: a2) H) as [Ha Hc].
      apply elem_of_cons in Hz as [->|Hz]; [|apply (IH Hc z Hz)].
      assert (Hcb : c ∈ flat_map subtrees (t_kids b)).
      { apply (IH Hc). apply elem_of_cons. left. reflexivity. }
      apply list_elem_of_In, in_flat_map in Hcb as (k & Hk & Hck).
      apply list_elem_of_In in Hk, Hck.
      apply (subtrees_kid b k a Hk).
      apply (subtrees_trans k c a Hck).
      apply (subtrees_below c a a Ha (subtrees_self a)).
Qed.

Lemma distinct_sub (t s : Tree) :
  NoDup (ids t) -> s ∈ subtrees t -> NoDup (ids s).
Proof.
  intros Hnd Hs. destruct (Path_to t s Hs) as [rest Hp].
  remember (s :: rest) as p eqn:E. revert s rest E Hs.
  induction Hp as [t|t k p Hk Hp IH]; intros s rest E Hs.
  - injection E as <- <-. exact Hnd.
  - destruct (Path_head k p Hp) as (s' & p' & ->). injection E as <- <-.
    apply (IH (distinct_kid t k Hnd Hk) s' p' eq_refl).
    apply (Path_subtrees k _ Hp). apply elem_of_cons. left. reflexivity.
Qed.

Lemma NoDup_heads {A B : Type} (f : A -> list B) (g : A -> B) (l : list A) :
  (forall x, g x ∈ f x) -> NoDup (flat_map f l) -> NoDup (map g l).
Proof.
  intros Hg. induction l as [|a l IH]; [constructor|].
  cbn [flat_map map]. intros H.
  apply NoDup_app in H as (_ & Hdisj & Hl).
  apply NoDup_cons. split; [|apply IH, Hl].
  intros Hin. apply list_elem_of_In, in_map_iff in Hin as (b & Eb & Hb).
  apply (Hdisj (g a) (Hg a)). rewrite <- Eb.
  apply list_elem_of_In, in_flat_map. exists b.
  split; [exact Hb|apply list_elem_of_In, Hg].
Qed.

Lemma id_in_ids (t : Tree) : t_id t ∈ ids t.
Proof. rewrite ids_eq. apply elem_of_cons. left. reflexivity. Qed.

Lemma kids_distinct (t s : Tree) :
  NoDup (ids t) -> s ∈ subtrees t -> NoDup (map t_id (t_kids s)).
Proof.
  intros Hnd Hs. pose proof (distinct_sub t s Hnd Hs) as H.
  rewrite ids_eq in H. apply NoDup_cons in H as [_ H].
  apply (NoDup_heads ids t_id _ id_in_ids H).
Qed.

Lemma after_split (x : node) (l1 l2 : list node) :
  x ∉ l1 -> after x (l1 ++ x :: l2) = l2.
Proof.
  induction l1 as [|y l1 IH]; intros Hx; cbn [app after].
  - rewrite Nat.eqb_refl. reflexivity.
  - apply not_elem_of_cons in Hx as [Hne Hx].
    assert (E : (y =? x)%nat = false) by (apply Nat.eqb_neq; congruence).
    rewrite E. apply IH, Hx.
Qed.

Lemma after_sublist (x : node) (l : list node) (y : node) :
  y ∈ after x l -> y ∈ l.
Proof.
  induction l as [|z l IH]; cbn [after]; [trivial|].
  destruct (z =? x)%nat; intros H; apply elem_of_cons; right; auto.
Qed.

End DocumentTree.

(** ** Documents of distinct elements *)

Section DistinctDocument.

Import Anim Dom.

Variable d : Document.
Hypothesis Hd : distinct d.

Lemma path_cases (el : node) :
  path d el = [] \/
  exists s rest, path d el = s :: rest /\ t_id s = el /\
                 Path (documentElement d) (s :: rest).
Proof.
  unfold path. destruct (locate (documentElement d) el) as [p|] eqn:E.
  - right. destruct (locate_sound _ _ _ E) as (Hp & s & rest & -> & Hs).
    exists s, rest. repeat split; assumption.
  - left. reflexivity.
Qed.

Lemma path_sound (el : node) (s : Tree) (rest : list Tree) :
  path d el = s :: rest ->
  t_id s = el /\ Path (documentElement d) (s :: rest).
Proof.
  intros H. destruct (path_cases el) as [E|(s' & rest' & E & Hs & Hp)];
    rewrite E in H; [discriminate|].
  injection H as <- <-. split; assumption.
Qed.

Lemma path_of_Path (s : Tree) (rest : list Tree) :
  Path (documentElement d) (s :: rest) -> path d (t_id s) = s :: rest.
Proof.
  intros Hp. unfold path.
  rewrite (locate_complete _ _ Hp Hd s rest eq_refl). reflexivity.
Qed.

Lemma path_suffix (el : node) (pre : list Tree) (b : Tree)
    (rest : list Tree) :
  path d el = pre ++ b :: rest -> path d (t_id b) = b :: rest.
Proof.
  intros H. apply path_of_Path.
  destruct pre as [|s pre].
  - apply (path_sound el b rest H).
  - apply (Path_suffix _ b (s :: pre) rest).
    apply (path_sound el s (pre ++ b :: rest) H).
Qed.

Lemma path_kid (el : node) (s k : Tree) (rest : list Tree) :
  path d el = s :: rest -> k ∈ t_kids s ->
  path d (t_id k) = k :: s :: rest.
Proof.
  intros H Hk. apply path_of_Path.
  apply Path_extend; [apply (path_sound el s rest H)|exact Hk].
Qed.

Lemma element_id (el : node) (s : Tree) :
  element d el = Some s -> t_id s = el.
Proof.
  unfold element. destruct (path d el) as [|s' rest] eqn:E; [discriminate|].
  intros [= <-]. apply (path_sound el s' rest E).
Qed.

(** The chain of [parentElement] is what iterating [parentElement]
    gives. *)
Lemma ancestors_step (el p : node) :
  parentElement d el = Some p -> ancestors d el = p :: ancestors d p.
Proof.
  unfold parentElement, ancestors.
  destruct (path d el) as [|s [|b rest]] eqn:E; try discriminate.
  cbn [tail head fmap option_fmap option_map map]. intros [= <-].
  rewrite (path_suffix el [s] b rest E). reflexivity.
Qed.

Lemma children_parent (el c : node) :
  c ∈ children d el ->
  parentElement d c = Some el /\ ancestors d c = el :: ancestors d el /\
  parent_children d c = children d el.
Proof.
  unfold children, element, parentElement, ancestors, parent_children.
  destruct (path d el) as [|s rest] eqn:E; cbn [head].
  - intros H. apply elem_of_nil in H. contradiction.
  - intros H. apply list_elem_of_In, in_map_iff in H as (k & <- & Hk).
    apply list_elem_of_In in Hk.
    rewrite (path_kid el s k rest E Hk).
    cbn [tail head fmap option_fmap option_map map].
    destruct (path_sound el s rest E) as [-> _]. repeat split.
Qed.

Lemma parent_children_spec (el p : node) :
  parentElement d el = Some p ->
  el ∈ children d p /\ parent_children d el = children d p.
Proof.
  unfold children, element, parentElement, parent_children.
  destruct (path d el) as [|s [|b rest]] eqn:E; try discriminate.
  cbn [tail head fmap option_fmap option_map]. intros [= <-].
  rewrite (path_suffix el [s] b rest E). cbn [head].
  split; [|reflexivity].
  destruct (path_sound el s (b :: rest) E) as [<- Hp].
  apply list_elem_of_In, in_map, list_elem_of_In.
  apply (Path_step _ s b rest Hp).
Qed.

Lemma parent_children_distinct (el : node) : NoDup (parent_children d el).
Proof.
  unfold parent_children.
  destruct (path d el) as [|s [|b rest]] eqn:E; cbn [tail]; try constructor.
  apply (kids_distinct (documentElement d) b Hd).
  destruct (path_sound el s (b :: rest) E) as [_ Hp].
  apply (Path_subtrees _ _ Hp). apply elem_of_cons. right.
  apply elem_of_cons. left. reflexivity.
Qed.

Lemma descendants_ancestors (el x : node) :
  x ∈ descendants d el <-> el ∈ ancestors d x.
Proof.
  split.
  - unfold descendants, element.
    destruct (path d el) as [|s rest] eqn:E; cbn [head];
      [intros H; apply elem_of_nil in H; contradiction|].
    intros H. apply list_elem_of_In, in_map_iff in H as (y & <- & Hy).
    apply in_flat_map in Hy as (k & Hk & Hy).
    apply list_elem_of_In in Hk, Hy.
    destruct (Path_to k y Hy) as [p1 Hp1].
    destruct (path_sound el s rest E) as [<- Hp].
    pose proof (Path_compose k (y :: p1) Hp1 _ _
                  (Path_extend _ s k rest Hp Hk)) as Hpath.
    unfold ancestors. cbn [app] in Hpath.
    rewrite (path_of_Path y _ Hpath). cbn [tail].
    apply list_elem_of_In, in_map, list_elem_of_In.
    apply elem_of_app. right. apply elem_of_cons. left. reflexivity.
  - unfold ancestors. destruct (path d x) as [|y anc] eqn:E; cbn [tail map];
      [intros H; apply elem_of_nil in H; contradiction|].
    intros H. apply list_elem_of_In, in_map_iff in H as (b & <- & Hb).
    apply list_elem_of_In, list_elem_of_split in Hb as (a1 & a2 & ->).
    destruct (path_sound x y _ E) as [<- Hp].
    unfold descendants, element.
    rewrite (path_suffix (t_id y) (y :: a1) b a2 E). cbn [head].
    apply list_elem_of_In, in_map, list_elem_of_In.
    apply (Path_above _ b (y :: a1) a2 Hp). apply elem_of_cons. left.
    reflexivity.
Qed.

End DistinctDocument.

(** ** The selection methods *)

Section Selection.

Import Anim Dom Query Examples.

Lemma collect_app (body : node -> option (list node)) (l1 l2 : list node) :
  collect body (l1 ++ l2) =
  r1 ← collect body l1; r2 ← collect body l2; Some (r1 ++ r2).
Proof.
  induction l1 as [|x l1 IH]; cbn [app collect].
  - destruct (collect body l2); reflexivity.
  - destruct (body x) as [r|]; [|reflexivity]. cbn [mbind option_bind].
    rewrite IH. destruct (collect body l1) as [r1|]; [|reflexivity].
    cbn [mbind option_bind].
    destruct (collect body l2) as [r2|]; [|reflexivity].
    cbn [mbind option_bind]. rewrite app_assoc. reflexivity.
Qed.

Lemma collect_total (body : node -> option (list node))
    (g : node -> list node) (els : list node) :
  (forall el, el ∈ els -> body el = Some (g el)) ->
  collect body els = Some (flat_map g els).
Proof.
  induction els as [|el els IH]; intros H; [reflexivity|].
  cbn [collect flat_map]. rewrite H by (apply elem_of_cons; left; reflexivity).
  cbn [mbind option_bind]. rewrite IH; [reflexivity|].
  intros x Hx. apply H. apply elem_of_cons. right. exact Hx.
Qed.

Lemma filter_opt_total (test : node -> option bool) (g : node -> bool)
    (els : list node) :
  (forall el, el ∈ els -> test el = Some (g el)) ->
  filter_opt test els = Some (List.filter g els).
Proof.
  induction els as [|el els IH]; intros H; [reflexivity|].
  cbn [filter_opt List.filter].
  rewrite H by (apply elem_of_cons; left; reflexivity).
  rewrite IH; [reflexivity|].
  intros x Hx. apply H. apply elem_of_cons. right. exact Hx.
Qed.

Lemma ZfloorZ_num (z : Z) : Zfloor (IZR z) = z.
Proof. apply Zfloor_eq. rewrite <- plus_IZR. split; [lra|apply IZR_lt; lia]. Qed.

Lemma array_get_int {A : Type} (a : list A) (z : Z) :
  array_get a (JNum (IZR z)) =
  if (0 <=? z)%Z then a !! Z.to_nat z else None.
Proof.
  unfold array_get. rewrite ZfloorZ_num.
  destruct (Req_dec_T (IZR z) (IZR z)) as [_|N]; [reflexivity|contradiction].
Qed.

Lemma jge_int (z : Z) : jge (of_Z z) (JNum 0) = (0 <=? z)%Z.
Proof.
  unfold jge, jle, of_Z. cbn [jlt jeq].
  destruct (Rlt_dec 0 (IZR z)) as [H|H].
  - apply lt_IZR in H. symmetry. apply Z.leb_le. lia.
  - destruct (Req_dec_T 0 (IZR z)) as [E|E]; cbn [orb].
    + apply eq_IZR in E. subst z. reflexivity.
    + symmetry. apply Z.leb_gt.
      destruct (Z.lt_trichotomy z 0) as [?|[->|?]]; [assumption| |].
      * contradiction E. reflexivity.
      * exfalso. apply H. apply IZR_lt. assumption.
Qed.

(** X12.  [eq(i)] for an integer [i] from [-n] to [n - 1], where [n] is the
    size of the selection, is the one element at index [i], counted from
    the end when [i] is negative. *)
Theorem eq_selects_by_index (els : list node) (i : Z) :
  (- Z.of_nat (length els) <= i < Z.of_nat (length els))%Z ->
  exists el,
    els !! Z.to_nat (i mod Z.of_nat (length els)) = Some el /\
    eq (of_Z i) els = [el].
Proof.
  intros Hi. set (n := Z.of_nat (length els)) in *.
  assert (Hlt : (Z.to_nat (i mod n) < length els)%nat).
  { pose proof (Z.mod_pos_bound i n ltac:(lia)). lia. }
  destruct (lookup_lt_is_Some_2 els _ Hlt) as [el Hel].
  exists el. split; [exact Hel|].
  unfold eq. rewrite jge_int. fold n.
  destruct (0 <=? i)%Z eqn:E.
  - apply Z.leb_le in E. unfold of_Z. rewrite array_get_int.
    apply Z.leb_le in E. rewrite E. apply Z.leb_le in E.
    rewrite Z.mod_small in Hel by lia. rewrite Hel. reflexivity.
  - apply Z.leb_gt in E. unfold of_Z. cbn [jadd]. rewrite <- plus_IZR.
    rewrite array_get_int.
    assert (E' : (0 <=? n + i)%Z = true) by (apply Z.leb_le; lia).
    rewrite E'.
    replace (i mod n)%Z with (n + i)%Z in Hel.
    + rewrite Hel. reflexivity.
    + apply (Z.mod_unique i n (-1) (n + i)); lia.
Qed.

Lemma eq_selects_by_index_example :
  exists el,
    [10; 20; 30]%nat !! Z.to_nat (-1 mod 3) = Some el /\
    eq (of_Z (-1)) [10; 20; 30]%nat = [el].
Proof.
  apply (eq_selects_by_index [10; 20; 30]%nat (-1)). simpl. lia.
Defined.

(** X13.  [eq(x)] is the empty selection when [x] is NaN or an infinity, a
    number from 0 on that is not an integer below [n], or an integer below
    [-n].  (A negative number that is not an integer is left out: the sum
    [length + x] is rounded, and can be an index.) *)
Theorem eq_out_of_range (els : list node) (x : jsnum) :
  match x with
  | JNum r =>
      ((0 <= r)%R /\
       forall i : Z, r = IZR i -> (Z.of_nat (length els) <= i)%Z) \/
      (exists i : Z, r = IZR i /\ (i < - Z.of_nat (length els))%Z)
  | _ => True
  end ->
  eq x els = [].
Proof.
  unfold eq. set (n := Z.of_nat (length els)).
  destruct x as [| | |r]; try reflexivity.
  intros [[Hpos H]|(i & -> & Hi)].
  - unfold jge, jle. cbn [jlt jeq].
    assert (Hb : ((if Rlt_dec 0 r then true else false)
                  || (if Req_dec_T 0 r then true else false)) = true).
    { destruct (Rlt_dec 0 r), (Req_dec_T 0 r); cbn; try reflexivity; lra. }
    rewrite Hb. unfold array_get.
    destruct (Req_dec_T (IZR (Zfloor r)) r) as [Er|_]; [|reflexivity].
    destruct (0 <=? Zfloor r)%Z eqn:E0; [|reflexivity].
    specialize (H (Zfloor r) (eq_sym Er)).
    rewrite lookup_ge_None_2 by lia. reflexivity.
  - change (JNum (IZR i)) with (of_Z i). rewrite jge_int.
    assert (E : (0 <=? i)%Z = false) by (apply Z.leb_gt; lia).
    rewrite E. unfold of_Z. cbn [jadd]. rewrite <- plus_IZR.
    rewrite array_get_int.
    assert (E' : (0 <=? n + i)%Z = false) by (apply Z.leb_gt; lia).
    subst n. rewrite E'. reflexivity.
Qed.

Lemma eq_out_of_range_example :
  eq (JNum 1.5) [10; 20; 30]%nat = [] /\ eq (of_Z (-4)) [10; 20; 30]%nat = [].
Proof.
  split.
  - apply (eq_out_of_range [10; 20; 30]%nat (JNum 1.5)). left.
    split; [lra|]. intros i E. exfalso.
    assert (H : (IZR 1 < IZR i < IZR 2)%R) by (rewrite <- E; lra).
    destruct H as [H1 H2]. apply lt_IZR in H1, H2. lia.
  - apply (eq_out_of_range [10; 20; 30]%nat (of_Z (-4))). right.
    exists (-4)%Z. split; [reflexivity|]. simpl. lia.
Defined.

Lemma eq_first (fc : list node) :
  truthy (if (0 <? length fc)%nat then fc !! 0%nat else None)
  = eq (JNum 0) fc.
Proof.
  unfold eq. change (JNum 0) with (of_Z 0). rewrite jge_int.
  cbn [Z.leb Z.compare]. unfold of_Z. rewrite array_get_int.
  cbn [Z.leb Z.compare Z.to_nat]. destruct fc; reflexivity.
Qed.

Lemma eq_last (fc : list node) :
  truthy (if (0 <? length fc)%nat then fc !! (length fc - 1)%nat else None)
  = eq (JNum (-1)) fc.
Proof.
  unfold eq. change (JNum (-1)) with (of_Z (-1)). rewrite jge_int.
  cbn [Z.leb Z.compare]. unfold of_Z. cbn [jadd]. rewrite <- plus_IZR.
  rewrite array_get_int. destruct fc as [|x fc]; [reflexivity|].
  cbn [length Nat.ltb Nat.leb].
  assert (E : (0 <=? Z.of_nat (S (length fc)) + -1)%Z = true)
    by (apply Z.leb_le; lia).
  rewrite E.
  replace (Z.to_nat (Z.of_nat (S (length fc)) + -1)) with (S (length fc) - 1)%nat
    by lia.
  reflexivity.
Qed.

(** X14.  On one element, [first(selector)] is [eq(0)] and [last(selector)]
    is [eq(-1)] of the children of the element that the selector keeps:
    the methods pick among the children, not among the selection. *)
Theorem first_last_pick_among_children (d : Document)
    (selector : option string) (el : node) (fc : list node) :
  filteredChildren d selector el = Some fc ->
  first d selector [el] = Some (eq (JNum 0) fc) /\
  last d selector [el] = Some (eq (JNum (-1)) fc).
Proof.
  intros H. unfold first, last. cbn [collect]. rewrite H.
  cbn [mbind option_bind]. rewrite eq_first, eq_last, !app_nil_r.
  split; reflexivity.
Qed.

Lemma first_last_pick_among_children_example :
  first page (Some "li") [2%nat] = Some (eq (JNum 0) [3; 5]%nat) /\
  last page (Some "li") [2%nat] = Some (eq (JNum (-1)) [3; 5]%nat).
Proof.
  apply (first_last_pick_among_children page (Some "li") 2%nat [3; 5]%nat).
  reflexivity.
Defined.

Lemma closest_loop_result (d : Document) (s : string) (chain r : list node) :
  closest_loop d s chain = Some r ->
  r = [] \/ exists x, r = [x] /\ matches d x s = Some true.
Proof.
  induction chain as [|p chain IH]; cbn [closest_loop].
  - intros [= <-]. left. reflexivity.
  - destruct (matches d p s) as [[|]|] eqn:E; [|exact IH|discriminate].
    intros [= <-]. right. exists p. split; [reflexivity|exact E].
Qed.

(** X15.  [closest(selector)] gives elements that are their own closest:
    applied to its own result it gives the same selection. *)
Theorem closest_twice (d : Document) (selector : string)
    (els r : list node) :
  closest d selector els = Some r -> closest d selector r = Some r.
Proof.
  unfold closest. revert r. induction els as [|el els IH]; intros r.
  - intros [= <-]. reflexivity.
  - cbn [collect].
    destruct (closest_loop d selector (el :: ancestors d el)) as [r0|] eqn:E0;
      [|discriminate].
    cbn [mbind option_bind].
    destruct (collect _ els) as [r1|] eqn:E1; [|discriminate].
    cbn [mbind option_bind]. intros [= <-].
    rewrite collect_app, (IH r1 eq_refl).
    destruct (closest_loop_result d selector _ r0 E0) as [->|(x & -> & Hx)].
    + reflexivity.
    + cbn [collect closest_loop]. rewrite Hx. reflexivity.
Qed.

Lemma closest_twice_example :
  closest page "ul" [2; 2]%nat = Some [2; 2]%nat.
Proof.
  apply (closest_twice page "ul" [3; 5]%nat [2; 2]%nat). reflexivity.
Defined.

(** X16.  Without a selector, and with the empty string as selector,
    [parents] gives for each element all its ancestors that are
    [HTMLElement]s, nearest first. *)
Theorem parents_lists_ancestors (d : Document) (selector : option string)
    (els : list node) :
  given selector = None ->
  parents d selector els
  = Some (flat_map (fun el => List.filter (isHTMLElement d) (ancestors d el))
            els).
Proof.
  intros Hsel. unfold parents. apply collect_total. intros el _.
  induction (ancestors d el) as [|p chain IH]; [reflexivity|].
  cbn [parents_loop List.filter]. rewrite Hsel.
  destruct (isHTMLElement d p); [|exact IH].
  rewrite IH. reflexivity.
Qed.

Lemma parents_lists_ancestors_example :
  parents page (Some "") [3; 6]%nat = Some [2; 1; 0; 1; 0]%nat.
Proof.
  apply (parents_lists_ancestors page (Some "") [3; 6]%nat). reflexivity.
Defined.

Lemma not_string_total (d : Document) (s : string) (f : node -> bool)
    (els : list node) :
  parseSelector d s = Some f ->
  not d (NotString s) els = Some (List.filter (fun el => negb (f el)) els).
Proof.
  intros Hf. unfold not. apply filter_opt_total. intros el _.
  unfold matches. rewrite Hf. reflexivity.
Qed.

Lemma filter_from_pure (p : node -> bool) (i : nat) (els : list node) :
  filter_from (fun el _ => p el) i els = List.filter p els.
Proof.
  revert i. induction els as [|el els IH]; intros i; [reflexivity|].
  cbn [filter_from List.filter]. rewrite IH. reflexivity.
Qed.

(** X17.  [not(selector)] gives what [not] gives with the function that
    tests the selector, and together with the elements that
    [filter] keeps for that test it makes up the selection. *)
Theorem not_complements_filter (d : Document) (s : string)
    (f : node -> bool) (els : list node) :
  parseSelector d s = Some f ->
  exists r,
    not d (NotString s) els = Some r /\
    not d (NotFunction f) els = Some r /\
    filter (fun el _ => f el) els ++ r ≡ₚ els.
Proof.
  intros Hf. exists (List.filter (fun el => negb (f el)) els).
  split; [apply (not_string_total d s f els Hf)|].
  split; [reflexivity|].
  unfold filter. rewrite filter_from_pure.
  induction els as [|el els IH]; [reflexivity|].
  cbn [List.filter]. destruct (f el); cbn [negb app].
  - constructor. exact IH.
  - rewrite <- Permutation_middle. constructor. exact IH.
Qed.

Lemma not_complements_filter_example :
  exists r,
    not page (NotString "li") [2; 3; 4; 5]%nat = Some r /\
    not page (NotFunction (fun el => (el =? 3)%nat || (el =? 5)%nat))
      [2; 3; 4; 5]%nat = Some r /\
    filter (fun el _ => (el =? 3)%nat || (el =? 5)%nat) [2; 3; 4; 5]%nat ++ r
    ≡ₚ [2; 3; 4; 5]%nat.
Proof.
  apply (not_complements_filter page "li"
           (fun el => (el =? 3)%nat || (el =? 5)%nat) [2; 3; 4; 5]%nat).
  reflexivity.
Defined.

(** X18.  With a selector that does not parse, [$], [find], [closest], [has]
    and [not] throw on every selection that is not empty, and the last
    four give the empty selection on the empty selection, on which they make
    no DOM call. *)
Theorem invalid_selector_throws (d : Document) (s : string)
    (els : list node) :
  parseSelector d s = None ->
  dollar d (SelString s) = None /\
  (find d s [] = Some [] /\ closest d s [] = Some [] /\
   has d s [] = Some [] /\ not d (NotString s) [] = Some []) /\
  (els <> [] ->
   find d s els = None /\ closest d s els = None /\
   has d s els = None /\ not d (NotString s) els = None).
Proof.
  intros Hs. split; [|split].
  - unfold dollar, safTSQuerySelectorAll, document_querySelectorAll.
    rewrite Hs. reflexivity.
  - repeat split.
  - destruct els as [|el els]; [contradiction|]. intros _.
    unfold find, closest, has, not. cbn [collect filter_opt closest_loop].
    unfold querySelector, querySelectorAll, matches. rewrite Hs.
    repeat split; reflexivity.
Qed.

Lemma invalid_selector_throws_example :
  dollar page (SelString "li:") = None /\
  (find page "li:" [] = Some [] /\ closest page "li:" [] = Some [] /\
   has page "li:" [] = Some [] /\ not page (NotString "li:") [] = Some []) /\
  ([2%nat] <> [] ->
   find page "li:" [2%nat] = None /\ closest page "li:" [2%nat] = None /\
   has page "li:" [2%nat] = None /\ not page (NotString "li:") [2%nat] = None).
Proof.
  apply (invalid_selector_throws page "li:" [2%nat]). reflexivity.
Defined.

Lemma element_of_subtree (d : Document) (b : Tree) :
  distinct d -> b ∈ subtrees (documentElement d) ->
  element d (t_id b) = Some b.
Proof.
  intros Hd Hb. destruct (Path_to _ b Hb) as [rest Hp].
  unfold element. rewrite (path_of_Path d Hd b rest Hp). reflexivity.
Qed.

Lemma ancestors_in (d : Document) (el x : node) :
  x ∈ ancestors d el ->
  exists b, b ∈ subtrees (documentElement d) /\ t_id b = x.
Proof.
  unfold ancestors.
  destruct (path_cases d el) as [->|(s & rest & -> & _ & Hp)]; cbn [tail map].
  - intros H. apply elem_of_nil in H. contradiction.
  - intros H. apply list_elem_of_In, in_map_iff in H as (b & <- & Hb).
    exists b. split; [|reflexivity].
    apply (Path_subtrees _ _ Hp). apply elem_of_cons. right.
    apply list_elem_of_In, Hb.
Qed.

Lemma ancestors_html (d : Document) (el : node) :
  distinct d ->
  Forall (fun t => t_html t = true) (subtrees (documentElement d)) ->
  Forall (fun x => isHTMLElement d x = true) (ancestors d el).
Proof.
  intros Hd Hall. apply Forall_forall. intros x Hx.
  destruct (ancestors_in d el x Hx) as (b & Hb & <-).
  unfold isHTMLElement. rewrite (element_of_subtree d b Hd Hb).
  rewrite Forall_forall in Hall. apply Hall, Hb.
Qed.

Lemma given_Some (s : string) : s <> "" -> given (Some s) = Some s.
Proof.
  intros Hs. unfold given. destruct (String.eqb s "") eqn:E; [|reflexivity].
  apply String.eqb_eq in E. contradiction.
Qed.

Lemma loops_agree (d : Document) (s : string) (chain : list node) :
  s <> "" -> Forall (fun x => isHTMLElement d x = true) chain ->
  parents_loop d (Some s) chain = closest_loop d s chain.
Proof.
  intros Hs. induction 1 as [|p chain Hp _ IH]; [reflexivity|].
  cbn [parents_loop closest_loop]. rewrite Hp, (given_Some s Hs), IH.
  reflexivity.
Qed.

Lemma no_parent_no_ancestors (d : Document) (el : node) :
  parentElement d el = None -> ancestors d el = [].
Proof.
  unfold parentElement, ancestors.
  destruct (tail (path d el)) as [|b rest]; [reflexivity|discriminate].
Qed.

Lemma parent_in_ancestors (d : Document) (el p : node) :
  parentElement d el = Some p -> p ∈ ancestors d el.
Proof.
  unfold parentElement, ancestors.
  destruct (tail (path d el)) as [|b rest]; [discriminate|].
  intros [= <-]. apply elem_of_cons. left. reflexivity.
Qed.

(** X19.  In a document of distinct elements that are all [HTMLElement]s,
    [parents(selector)] with a selector that is not empty is
    [closest(selector)] of [parent()]: for each element, only the nearest
    ancestor that matches. *)
Theorem parents_selector_is_closest_of_parent (d : Document) (s : string)
    (els : list node) :
  distinct d ->
  Forall (fun t => t_html t = true) (subtrees (documentElement d)) ->
  s <> "" ->
  parents d (Some s) els = closest d s (parent d els).
Proof.
  intros Hd Hall Hs. unfold parents, closest, parent.
  induction els as [|el els IH]; [reflexivity|].
  cbn [collect flat_map]. rewrite collect_app, <- IH.
  pose proof (ancestors_html d el Hd Hall) as Hhtml.
  rewrite (loops_agree d s _ Hs Hhtml).
  destruct (parentElement d el) as [p|] eqn:Ep.
  - rewrite Forall_forall in Hhtml.
    rewrite (Hhtml p (parent_in_ancestors d el p Ep)).
    rewrite (ancestors_step d Hd el p Ep).
    cbn [collect]. destruct (closest_loop d s (p :: ancestors d p)) as [r|];
      [|reflexivity].
    cbn [mbind option_bind]. rewrite app_nil_r. reflexivity.
  - rewrite (no_parent_no_ancestors d el Ep). cbn [closest_loop collect].
    reflexivity.
Qed.

Lemma parents_selector_is_closest_of_parent_example :
  parents list_page (Some "*") [3; 6]%nat
  = closest list_page "*" (parent list_page [3; 6]%nat).
Proof.
  apply (parents_selector_is_closest_of_parent list_page "*" [3; 6]%nat).
  - unfold distinct. apply (bool_decide_unpack _). vm_compute. exact I.
  - apply (bool_decide_unpack _). vm_compute. exact I.
  - discriminate.
Defined.

(** X20.  In a document of distinct elements, the parent of every child of
    an [HTMLElement] is that element, and [parent()] keeps duplicates:
    [parent()] of [children()] of the element is the element once for each
    of its children. *)
Theorem parent_of_children (d : Document) (el : node) :
  distinct d -> isHTMLElement d el = true ->
  parent d (children d [el])
  = repeat el (length (children d [el])).
Proof.
  intros Hd Hel. unfold children. cbn [flat_map]. rewrite app_nil_r.
  assert (H : forall c, c ∈ Dom.children d el -> parentElement d c = Some el).
  { intros c Hc. apply (children_parent d Hd el c Hc). }
  induction (Dom.children d el) as [|c l IH]; [reflexivity|].
  unfold parent. cbn [flat_map length repeat].
  rewrite H by (apply elem_of_cons; left; reflexivity). rewrite Hel.
  cbn [app]. f_equal. apply IH. intros x Hx. apply H.
  apply elem_of_cons. right. exact Hx.
Qed.

Lemma parent_of_children_example :
  parent page (children page [2%nat])
  = repeat 2%nat (length (children page [2%nat])).
Proof.
  apply (parent_of_children page 2%nat).
  - unfold distinct. apply (bool_decide_unpack _). vm_compute. exact I.
  - reflexivity.
Defined.

Lemma flat_map_filter (c : node -> bool) (l : list node) :
  flat_map (fun x => if c x then [x] else []) l = List.filter c l.
Proof.
  induction l as [|x l IH]; [reflexivity|]. cbn [flat_map List.filter].
  rewrite IH. destruct (c x); reflexivity.
Qed.

Lemma siblings_none (d : Document) (el : node) :
  siblings d None [el] =
  Some match parentElement d el with
       | Some p =>
           List.filter
             (fun sib => negb (sib =? el)%nat && isHTMLElement d sib)
             (Dom.children d p)
       | None => []
       end.
Proof.
  unfold siblings. cbn [collect given].
  destruct (parentElement d el) as [p|]; [|reflexivity].
  rewrite (collect_total _
             (fun sib => if negb (sib =? el)%nat && isHTMLElement d sib
                         then [sib] else [])).
  - cbn [mbind option_bind]. rewrite app_nil_r, flat_map_filter. reflexivity.
  - intros sib _. destruct (negb (sib =? el)%nat && isHTMLElement d sib);
      reflexivity.
Qed.

(** X21.  In a document of distinct elements, to be a sibling is mutual:
    an element that [siblings()] gives for an [HTMLElement] is another
    element, and [siblings()] of it gives that [HTMLElement]. *)
Theorem siblings_mutual (d : Document) (el x : node) (r : list node) :
  distinct d -> isHTMLElement d el = true ->
  siblings d None [el] = Some r -> x ∈ r ->
  x <> el /\ exists r', siblings d None [x] = Some r' /\ el ∈ r'.
Proof.
  intros Hd Hel. rewrite siblings_none. intros [= <-] Hx.
  destruct (parentElement d el) as [p|] eqn:Ep;
    [|apply elem_of_nil in Hx; contradiction].
  apply list_elem_of_In, filter_In in Hx as [Hx Hc].
  apply list_elem_of_In in Hx. apply andb_prop in Hc as [Hne _].
  apply negb_true_iff, Nat.eqb_neq in Hne.
  split; [exact Hne|].
  destruct (children_parent d Hd p x Hx) as (Hpx & _ & _).
  destruct (parent_children_spec d Hd el p Ep) as [Hin _].
  eexists. split; [apply siblings_none|]. rewrite Hpx.
  apply list_elem_of_In, filter_In. split; [apply list_elem_of_In, Hin|].
  rewrite Hel. apply andb_true_intro. split; [|reflexivity].
  apply negb_true_iff, Nat.eqb_neq. congruence.
Qed.

Lemma siblings_mutual_example :
  5%nat <> 3%nat /\
  exists r', siblings page None [5%nat] = Some r' /\ 3%nat ∈ r'.
Proof.
  apply (siblings_mutual page 3%nat 5%nat [5%nat]).
  - unfold distinct. apply (bool_decide_unpack _). vm_compute. exact I.
  - reflexivity.
  - reflexivity.
  - apply (bool_decide_unpack _). vm_compute. exact I.
Defined.

Lemma sibling_loop_inv (d : Document) (chain : list node) (n : node) :
  sibling_loop d None chain = Some [n] ->
  exists mid post,
    chain = mid ++ n :: post /\
    Forall (fun x => isHTMLElement d x = false) mid /\
    isHTMLElement d n = true.
Proof.
  induction chain as [|x chain IH]; [discriminate|].
  cbn [sibling_loop given]. destruct (isHTMLElement d x) eqn:E.
  - intros [= <-]. exists [], chain. repeat split; [constructor|exact E].
  - intros H. destruct (IH H) as (mid & post & -> & Hmid & Hn).
    exists (x :: mid), post. repeat split; [|exact Hn].
    constructor; assumption.
Qed.

Lemma sibling_loop_skip (d : Document) (mid post : list node) (x : node) :
  Forall (fun y => isHTMLElement d y = false) mid ->
  isHTMLElement d x = true ->
  sibling_loop d None (mid ++ x :: post) = Some [x].
Proof.
  intros Hmid Hx. induction Hmid as [|y mid Hy _ IH];
    cbn [app sibling_loop given].
  - rewrite Hx. reflexivity.
  - rewrite Hy. exact IH.
Qed.

Lemma after_inv (x : node) (l : list node) (y : node) (r : list node) :
  after x l = y :: r -> exists l1, l = l1 ++ x :: y :: r /\ x ∉ l1.
Proof.
  induction l as [|z l IH]; [discriminate|]. cbn [after].
  destruct (z =? x)%nat eqn:E.
  - intros ->. apply Nat.eqb_eq in E as ->. exists [].
    split; [reflexivity|apply not_elem_of_nil].
  - intros H. destruct (IH H) as (l1 & -> & Hx). exists (z :: l1).
    split; [reflexivity|]. apply not_elem_of_cons. split; [|exact Hx].
    apply Nat.eqb_neq in E. congruence.
Qed.

Lemma siblings_same (d : Document) (el n : node) :
  distinct d -> n ∈ parent_children d el ->
  parent_children d n = parent_children d el.
Proof.
  intros Hd. unfold parent_children at 1 3.
  destruct (path d el) as [|s [|b rest]] eqn:E; cbn [tail];
    try (intros H; apply elem_of_nil in H; contradiction).
  intros H. apply list_elem_of_In, in_map_iff in H as (k & <- & Hk).
  apply list_elem_of_In in Hk.
  pose proof (path_suffix d Hd el [s] b rest E) as Eb.
  unfold parent_children. rewrite (path_kid d Hd (t_id b) b k rest Eb Hk).
  reflexivity.
Qed.

Lemma after_next (x y : node) (l r : list node) :
  NoDup l -> after x l = y :: r -> after y l = r.
Proof.
  intros Hnd H. destruct (after_inv x l y r H) as (l1 & -> & _).
  change (l1 ++ x :: y :: r) with (l1 ++ [x] ++ y :: r).
  rewrite app_assoc. apply after_split.
  change (l1 ++ x :: y :: r) with (l1 ++ [x] ++ y :: r) in Hnd.
  rewrite app_assoc in Hnd. apply NoDup_app in Hnd as (_ & Hdisj & _).
  intros Hy. apply (Hdisj y Hy). apply elem_of_cons. left. reflexivity.
Qed.

(** The chains of siblings are what iterating [nextElementSibling] and
    [previousElementSibling] gives. *)
Lemma following_step (d : Document) (el n : node) :
  distinct d -> nextElementSibling d el = Some n ->
  following d el = n :: following d n.
Proof.
  intros Hd. unfold nextElementSibling, following.
  destruct (after el (parent_children d el)) as [|y r] eqn:E; [discriminate|].
  intros [= ->]. f_equal.
  assert (Hin : n ∈ parent_children d el).
  { apply (after_sublist el). rewrite E. apply elem_of_cons. left.
    reflexivity. }
  rewrite (siblings_same d el n Hd Hin). symmetry.
  apply (after_next el n _ r (parent_children_distinct d Hd el) E).
Qed.

Lemma preceding_step (d : Document) (el n : node) :
  distinct d -> previousElementSibling d el = Some n ->
  preceding d el = n :: preceding d n.
Proof.
  intros Hd. unfold previousElementSibling, preceding.
  destruct (after el (rev (parent_children d el))) as [|y r] eqn:E;
    [discriminate|].
  intros [= ->]. f_equal.
  assert (Hin : n ∈ parent_children d el).
  { apply list_elem_of_In, in_rev, list_elem_of_In.
    apply (after_sublist el). rewrite E. apply elem_of_cons. left.
    reflexivity. }
  rewrite (siblings_same d el n Hd Hin). symmetry.
  apply (after_next el n _ r); [|exact E].
  apply NoDup_ListNoDup, List.NoDup_rev, NoDup_ListNoDup.
  apply (parent_children_distinct d Hd el).
Qed.

(** X22.  In a document of distinct elements, [prev()] undoes [next()]: when
    [next()] of an [HTMLElement] gives an element, [prev()] of that element
    gives the [HTMLElement] back. *)
Theorem prev_undoes_next (d : Document) (el n : node) :
  distinct d -> isHTMLElement d el = true ->
  next d None [el] = Some [n] -> prev d None [n] = Some [el].
Proof.
  intros Hd Hel. unfold next, prev. cbn [collect].
  destruct (sibling_loop d None (following d el)) as [r|] eqn:E;
    [|discriminate].
  cbn [mbind option_bind]. rewrite app_nil_r. intros [= ->].
  destruct (sibling_loop_inv d _ n E) as (mid & post & Hf & Hmid & Hn).
  unfold following in Hf.
  assert (Hsplit : exists l1, parent_children d el
                              = l1 ++ el :: mid ++ n :: post).
  { destruct mid as [|m mid'].
    - destruct (after_inv _ _ _ _ Hf) as (l1 & -> & _). exists l1. reflexivity.
    - destruct (after_inv _ _ _ _ Hf) as (l1 & -> & _). exists l1. reflexivity. }
  destruct Hsplit as [l1 Hpc].
  pose proof (parent_children_distinct d Hd el) as Hnd. rewrite Hpc in Hnd.
  assert (Hin : n ∈ parent_children d el).
  { rewrite Hpc. apply elem_of_app. right. apply elem_of_cons. right.
    apply elem_of_app. right. apply elem_of_cons. left. reflexivity. }
  unfold preceding. rewrite (siblings_same d el n Hd Hin), Hpc.
  replace (rev (l1 ++ el :: mid ++ n :: post))
    with (rev post ++ n :: (rev mid ++ el :: rev l1)).
  - rewrite after_split.
    + rewrite sibling_loop_skip; [reflexivity| |exact Hel].
      apply Forall_forall. intros y Hy. rewrite Forall_forall in Hmid.
      apply Hmid. apply list_elem_of_In, in_rev, list_elem_of_In in Hy.
      exact Hy.
    + intros Hn'. apply list_elem_of_In, in_rev, list_elem_of_In in Hn'.
      apply NoDup_app in Hnd as (_ & _ & Hnd).
      apply NoDup_cons in Hnd as [_ Hnd].
      apply NoDup_app in Hnd as (_ & _ & Hnd).
      apply NoDup_cons in Hnd as [Hnn _]. contradiction.
  - rewrite rev_app_distr. cbn [rev]. rewrite rev_app_distr. cbn [rev].
    rewrite <- !app_assoc. reflexivity.
Qed.

Lemma prev_undoes_next_example : prev page None [5%nat] = Some [3%nat].
Proof.
  apply (prev_undoes_next page 3%nat 5%nat).
  - unfold distinct. apply (bool_decide_unpack _). vm_compute. exact I.
  - reflexivity.
  - reflexivity.
Defined.

(** X23.  In a document of distinct elements, [find(selector)] on one
    element gives exactly the elements that match the selector and have
    the element among their ancestors. *)
Theorem find_gives_matching_descendants (d : Document) (s : string)
    (f : node -> bool) (el : node) :
  distinct d -> parseSelector d s = Some f ->
  exists r,
    find d s [el] = Some r /\
    forall x, x ∈ r <-> f x = true /\ el ∈ ancestors d x.
Proof.
  intros Hd Hf. exists (List.filter f (descendants d el)). split.
  - unfold find, querySelectorAll. cbn [collect]. rewrite Hf.
    cbn [mbind option_bind]. rewrite app_nil_r. reflexivity.
  - intros x. rewrite <- (descendants_ancestors d Hd el x).
    rewrite !list_elem_of_In, filter_In. tauto.
Qed.

Lemma find_gives_matching_descendants_example :
  exists r,
    find page "li" [1%nat] = Some r /\
    forall x, x ∈ r <->
              (x =? 3)%nat || (x =? 5)%nat = true /\ 1%nat ∈ ancestors page x.
Proof.
  apply (find_gives_matching_descendants page "li"
           (fun x => (x =? 3)%nat || (x =? 5)%nat) 1%nat).
  - unfold distinct. apply (bool_decide_unpack _). vm_compute. exact I.
  - reflexivity.
Defined.

(** X24.  [has(selector)] keeps the elements of the selection on which
    [find(selector)] finds something. *)
Theorem has_keeps_where_find_finds (d : Document) (s : string)
    (f : node -> bool) (els : list node) :
  parseSelector d s = Some f ->
  exists r,
    has d s els = Some r /\
    forall el, el ∈ r <-> el ∈ els /\ find d s [el] <> Some [].
Proof.
  intros Hf.
  assert (Hfind : forall el,
            find d s [el] = Some (List.filter f (descendants d el))).
  { intros el. unfold find, querySelectorAll. cbn [collect]. rewrite Hf.
    cbn [mbind option_bind]. rewrite app_nil_r. reflexivity. }
  exists (List.filter
            (fun el => match List.filter f (descendants d el) with
                       | _ :: _ => true
                       | [] => false
                       end) els).
  split.
  - unfold has. apply filter_opt_total. intros el _.
    unfold querySelector, querySelectorAll. rewrite Hf.
    cbn [mbind option_bind fmap option_fmap option_map].
    destruct (List.filter f (descendants d el)); reflexivity.
  - intros el. rewrite !list_elem_of_In, filter_In, Hfind.
    destruct (List.filter f (descendants d el)); split; intros [H1 H2];
      split; try assumption; try discriminate; try reflexivity.
    contradiction H2. reflexivity.
Qed.

Lemma has_keeps_where_find_finds_example :
  exists r,
    has page "li" [2; 6]%nat = Some r /\
    forall el, el ∈ r <-> el ∈ [2; 6]%nat /\ find page "li" [el] <> Some [].
Proof.
  apply (has_keeps_where_find_finds page "li"
           (fun x => (x =? 3)%nat || (x =? 5)%nat) [2; 6]%nat).
  reflexivity.
Defined.

End Selection.

(** ** Styles, event delegation and the method registry *)

Section StylesEventsRegistry.

Import Color Anim Dom Query Events Inject Examples.

Lemma set_style_fold (prop : string) (value : option string)
    (els : list node) (sty : gmap (node * string) template) (el : node)
    (p : string) :
  fold_left (set_style prop value) els sty !! (el, p) =
  if decide (p = prop /\ el ∈ els)
  then Some (to_template (VStr <$> value)) else sty !! (el, p).
Proof.
  revert sty. induction els as [|x els IH]; intros sty.
  - cbn [fold_left]. destruct (decide _) as [[_ H]|_]; [|reflexivity].
    apply elem_of_nil in H. contradiction.
  - cbn [fold_left]. rewrite IH. unfold set_style.
    destruct (decide (p = prop /\ el ∈ els)) as [[-> H]|N].
    + rewrite decide_True; [reflexivity|].
      split; [reflexivity|apply elem_of_cons; right; exact H].
    + destruct (decide ((x, prop) = (el, p))) as [[= -> ->]|Hne].
      * rewrite lookup_insert_eq. rewrite decide_True; [reflexivity|].
        split; [reflexivity|apply elem_of_cons; left; reflexivity].
      * rewrite lookup_insert_ne by exact Hne.
        rewrite decide_False; [reflexivity|]. intros [-> H].
        apply elem_of_cons in H as [->|H]; [contradiction Hne; reflexivity|].
        apply N. split; [reflexivity|exact H].
Qed.

Lemma assoc_keys {A : Type} (p : string) (o : list (string * A)) :
  p ∈ keys o <-> is_Some (assoc p o).
Proof.
  rewrite keys_spec. induction o as [|[k v] o IH]; cbn [map fst assoc].
  - split; [intros H; apply elem_of_nil in H; contradiction|].
    intros [x H]. discriminate.
  - rewrite elem_of_cons, IH. destruct (String.eqb p k) eqn:E.
    + apply String.eqb_eq in E. split; [eexists; reflexivity|left; exact E].
    + apply String.eqb_neq in E. split; [intros [?|?]; [contradiction|assumption]|].
      intros H. right. exact H.
Qed.

(** X25.  [css(object)] leaves in the style of every selected element, for
    every property of the object, the value the object has for it, and
    changes no other style; [css(property, value)] does what [css] does
    with the object that has this one property. *)
Theorem css_sets_selected_properties (properties : list (string * string))
    (els : list node) (sty : gmap (node * string) template) :
  (forall el p,
     css (CssProperties properties) els sty !! (el, p) =
     match assoc p properties with
     | Some v => if decide (el ∈ els) then Some [Lit v] else sty !! (el, p)
     | None => sty !! (el, p)
     end) /\
  (forall p v,
     css (CssProperty p (Some v)) els sty = css (CssProperties [(p, v)]) els sty).
Proof.
  split.
  - intros el p. unfold css.
    assert (H : forall ks sty0, NoDup ks ->
              fold_left
                (fun sty1 prop =>
                   fold_left (set_style prop (assoc prop properties)) els sty1)
                ks sty0 !! (el, p) =
              if decide (p ∈ ks /\ el ∈ els)
              then Some (to_template (VStr <$> assoc p properties))
              else sty0 !! (el, p)).
    { induction ks as [|k ks IH]; intros sty0 Hnd.
      - cbn [fold_left]. destruct (decide _) as [[H _]|_]; [|reflexivity].
        apply elem_of_nil in H. contradiction.
      - apply NoDup_cons in Hnd as [Hk Hnd]. cbn [fold_left].
        rewrite (IH _ Hnd), set_style_fold.
        destruct (decide (p ∈ ks /\ el ∈ els)) as [[H1 H2]|N].
        + rewrite decide_True; [reflexivity|].
          split; [apply elem_of_cons; right; exact H1|exact H2].
        + destruct (decide (p = k /\ el ∈ els)) as [[-> H2]|N2].
          * rewrite decide_True; [reflexivity|].
            split; [apply elem_of_cons; left; reflexivity|exact H2].
          * rewrite decide_False; [reflexivity|]. intros [H1 H2].
            apply elem_of_cons in H1 as [->|H1]; [apply N2|apply N]; auto. }
    rewrite (H _ _ (keys_NoDup properties)).
    destruct (assoc p properties) as [v|] eqn:E.
    + destruct (decide (el ∈ els)) as [Hin|Hout].
      * rewrite decide_True; [reflexivity|].
        split; [apply assoc_keys; rewrite E; eexists; reflexivity|exact Hin].
      * rewrite decide_False; [reflexivity|]. intros [_ ?]. contradiction.
    + rewrite decide_False; [reflexivity|]. intros [Hk _].
      apply assoc_keys in Hk as [x Hx]. rewrite E in Hx. discriminate.
  - intros p v. unfold css, keys. cbn [map fst remove_dups fold_left assoc].
    destruct (decide_rel elem_of p []) as [H|_];
      [apply elem_of_nil in H; contradiction|].
    cbn [fold_left]. rewrite String.eqb_refl. reflexivity.
Qed.

Lemma head_filter_split (f : node -> bool) (chain : list node) (m : node) :
  head (List.filter f chain) = Some m <->
  exists pre post,
    chain = pre ++ m :: post /\ Forall (fun x => f x = false) pre /\
    f m = true.
Proof.
  split.
  - induction chain as [|x chain IH]; [discriminate|]. cbn [List.filter].
    destruct (f x) eqn:E.
    + intros [= <-]. exists [], chain. repeat split; [constructor|exact E].
    + intros H. destruct (IH H) as (pre & post & -> & Hpre & Hm).
      exists (x :: pre), post. repeat split; [|exact Hm].
      constructor; assumption.
  - intros (pre & post & -> & Hpre & Hm).
    induction Hpre as [|x pre Hx _ IH]; cbn [app List.filter].
    + rewrite Hm. reflexivity.
    + rewrite Hx. exact IH.
Qed.

Lemma ancestors_suffix (d : Document) (target m : node)
    (pre post : list node) :
  distinct d ->
  target :: ancestors d target = pre ++ m :: post ->
  ancestors d m = post.
Proof.
  intros Hd H. destruct pre as [|t0 pre].
  - injection H as <- <-. reflexivity.
  - injection H as _ H. unfold ancestors in H.
    apply map_eq_app in H as (a1 & a2' & Ht & _ & H2).
    apply map_eq_cons in H2 as (b & a2 & -> & Hb & Ha2).
    destruct (path d target) as [|y anc] eqn:E;
      [destruct a1; discriminate|].
    cbn [tail] in Ht. subst anc.
    pose proof (path_suffix d Hd target (y :: a1) b a2 E) as Eb.
    rewrite Hb in Eb. unfold ancestors. rewrite Eb. cbn [tail]. exact Ha2.
Qed.

Lemma contains_spec (d : Document) (el x : node) :
  contains d el x = true <-> x = el \/ x ∈ descendants d el.
Proof.
  unfold contains. rewrite orb_true_iff, Nat.eqb_eq, existsb_exists.
  split; intros [H|H]; try (left; exact H); right.
  - destruct H as (y & Hy & E). apply Nat.eqb_eq in E as ->.
    apply list_elem_of_In, Hy.
  - exists x. split; [apply list_elem_of_In, H|apply Nat.eqb_refl].
Qed.

(** X26.  In a document of distinct elements, the listener that [on] binds
    to an element for a selector calls the handler exactly when the nearest
    of the event target and its ancestors that matches the selector is the
    element or lies below it, and calls it on that match. *)
Theorem delegated_listener_calls (d : Document) (el target : node)
    (s : string) (f : node -> bool) (h h' : nat) (m : node) :
  distinct d -> parseSelector d s = Some f ->
  listen d (Delegated el s h) target = Some (Some (h', m)) <->
  h' = h /\
  exists pre post,
    target :: ancestors d target = pre ++ m :: post /\
    Forall (fun x => f x = false) pre /\ f m = true /\
    (m = el \/ el ∈ post).
Proof.
  intros Hd Hf. unfold listen, Dom.closest. rewrite Hf.
  cbn [mbind option_bind]. split.
  - destruct (head (List.filter f (target :: ancestors d target))) as [m0|]
      eqn:E; [|discriminate].
    destruct (contains d el m0) eqn:C; [|discriminate].
    intros [= <- <-]. split; [reflexivity|].
    apply head_filter_split in E as (pre & post & E & Hpre & Hm).
    exists pre, post. repeat split; try assumption.
    apply contains_spec in C as [C|C]; [left; exact C|right].
    apply (descendants_ancestors d Hd) in C.
    rewrite (ancestors_suffix d target m0 pre post Hd E) in C. exact C.
  - intros (-> & pre & post & E & Hpre & Hm & Hin).
    assert (Hhead : head (List.filter f (target :: ancestors d target))
                    = Some m).
    { apply head_filter_split. exists pre, post. repeat split; assumption. }
    rewrite Hhead.
    assert (C : contains d el m = true).
    { apply contains_spec. destruct Hin as [->|Hin]; [left; reflexivity|].
      right. apply (descendants_ancestors d Hd).
      rewrite (ancestors_suffix d target m pre post Hd E). exact Hin. }
    rewrite C. reflexivity.
Qed.

Lemma delegated_listener_calls_example :
  listen page (Delegated 1%nat "ul" 9) 3%nat = Some (Some (9, 2%nat)) <->
  9 = 9 /\
  exists pre post,
    3%nat :: ancestors page 3%nat = pre ++ 2%nat :: post /\
    Forall (fun x => (x =? 2)%nat = false) pre /\ (2 =? 2)%nat = true /\
    (2%nat = 1%nat \/ 1%nat ∈ post).
Proof.
  apply (delegated_listener_calls page 1%nat 3%nat "ul"
           (fun x => (x =? 2)%nat) 9 9 2%nat).
  - unfold distinct. apply (bool_decide_unpack _). vm_compute. exact I.
  - reflexivity.
Defined.

Lemma buildInstance_lookup (registry : Registry) (els : list node)
    (name : string) :
  buildInstance registry els !! name =
  match registry !! name with
  | Some fn => Some (MMethod fn)
  | None => if decide (name = "$el") then Some (MElements els) else None
  end.
Proof.
  unfold buildInstance. revert name.
  apply (map_fold_weak_ind
           (fun instance (m : gmap string TSQueryMethod) =>
              forall name,
                instance !! name =
                match m !! name with
                | Some fn => Some (MMethod fn)
                | None =>
                    if decide (name = "$el") then Some (MElements els)
                    else None
                end)).
  - cbv beta. intros name. rewrite lookup_empty.
    destruct (decide (name = "$el")) as [->|Hne].
    + apply lookup_singleton_eq.
    + apply lookup_singleton_ne. congruence.
  - cbv beta. intros i x m r Hi IH name.
    destruct (decide (i = name)) as [->|Hne].
    + rewrite !lookup_insert_eq. reflexivity.
    + rewrite !lookup_insert_ne by exact Hne. apply IH.
Qed.

Lemma registered_lookup (regs : list (string * TSQueryMethod))
    (name : string) :
  Forall (fun nf => fst nf <> "__proto__") regs ->
  registered regs !! name = assoc name (rev regs).
Proof.
  unfold registered.
  induction regs as [|[n f] regs IH] using rev_ind; intros Hall.
  - apply lookup_empty.
  - apply Forall_app in Hall as [Hall Hn].
    apply Forall_cons in Hn as [Hn _]. cbn [fst] in Hn.
    rewrite fold_left_app, rev_app_distr. cbn [fold_left rev app fst snd assoc].
    unfold register at 1. apply String.eqb_neq in Hn. rewrite Hn.
    destruct (String.eqb name n) eqn:E.
    + apply String.eqb_eq in E. subst n. apply lookup_insert_eq.
    + apply String.eqb_neq in E.
      etransitivity; [apply lookup_insert_ne; congruence|apply IH, Hall].
Qed.

(** X27.  After registrations none of which is under the name [__proto__],
    an instance that [buildInstance] makes has, under every registered
    name, the method registered last under it, and nothing else but [$el];
    [$el] is the array the instance was made for unless a method is
    registered under the name [$el], which then takes its place. *)
Theorem buildInstance_members (regs : list (string * TSQueryMethod))
    (els : list node) (name : string) :
  Forall (fun nf => fst nf <> "__proto__") regs ->
  buildInstance (registered regs) els !! name =
  match assoc name (rev regs) with
  | Some fn => Some (MMethod fn)
  | None => if decide (name = "$el") then Some (MElements els) else None
  end.
Proof.
  intros Hall. rewrite buildInstance_lookup, registered_lookup by exact Hall.
  reflexivity.
Qed.

Lemma buildInstance_members_example :
  buildInstance (registered [("hide", 1); ("show", 2); ("hide", 3)]%nat)
    [5; 6]%nat !! "hide"
  = Some (MMethod 3%nat).
Proof.
  apply (buildInstance_members [("hide", 1); ("show", 2); ("hide", 3)]%nat
           [5; 6]%nat "hide").
  repeat constructor; discriminate.
Defined.

End StylesEventsRegistry.

(** ** Attributes, event names and the earlier resolver *)

Section AttributesAndNames.

Import Color Anim Dom Query Events Attributes Examples.

Lemma setAttr_result (valid : string -> bool) (name value : string)
    (els : list node) (a : gmap (node * string) string) :
  valid name = true ->
  exists a',
    setAttr valid name value els a = Some a' /\
    forall el p,
      a' !! (el, p) =
      if decide (el ∈ els /\ p = toLowerCase name) then Some value
      else a !! (el, p).
Proof.
  intros Hv. revert a. induction els as [|x els IH]; intros a.
  - exists a. split; [reflexivity|]. intros el p.
    rewrite decide_False; [reflexivity|]. intros [H _].
    apply elem_of_nil in H. contradiction.
  - cbn [setAttr]. unfold setAttribute. rewrite Hv.
    destruct (IH (<[(x, toLowerCase name) := value]> a)) as (a' & Ha' & Hl).
    exists a'. split; [exact Ha'|]. intros el p. rewrite Hl.
    destruct (decide (el ∈ els /\ p = toLowerCase name)) as [[H ->]|N].
    + rewrite decide_True; [reflexivity|].
      split; [apply elem_of_cons; right; exact H|reflexivity].
    + destruct (decide ((x, toLowerCase name) = (el, p))) as [[= -> <-]|Hne].
      * rewrite lookup_insert_eq. rewrite decide_True; [reflexivity|].
        split; [apply elem_of_cons; left; reflexivity|reflexivity].
      * rewrite lookup_insert_ne by exact Hne.
        rewrite decide_False; [reflexivity|]. intros [H ->].
        apply elem_of_cons in H as [->|H]; [contradiction Hne; reflexivity|].
        apply N. split; [exact H|reflexivity].
Qed.

(** X28.  After [setAttr(name, value)] with a name the DOM accepts, on a
    selection that is not empty, every selected element has the value for
    the attribute, the attributes of the other elements and the other
    attributes are as before, and [getAttr] gives the value back for the
    name written in any case.  With a name the DOM rejects, [setAttr]
    throws.  On the empty selection [getAttr] gives the empty string. *)
Theorem setAttr_then_getAttr (valid : string -> bool) (name name' value : string)
    (els : list node) (a : gmap (node * string) string) :
  els <> [] -> toLowerCase name' = toLowerCase name ->
  (valid name = true ->
   exists a',
     setAttr valid name value els a = Some a' /\
     getAttr name' els a' = value /\
     (forall el, el ∈ els -> getAttribute a' el name' = Some value) /\
     (forall el p, el ∉ els \/ p <> toLowerCase name ->
                   a' !! (el, p) = a !! (el, p))) /\
  (valid name = false -> setAttr valid name value els a = None) /\
  getAttr name' [] a = "".
Proof.
  intros Hne Hcase. split; [|split].
  - intros Hv.
    destruct (setAttr_result valid name value els a Hv) as (a' & Ha' & Hl).
    exists a'. split; [exact Ha'|].
    assert (Hget : forall el, el ∈ els -> getAttribute a' el name' = Some value).
    { intros el Hel. unfold getAttribute. rewrite Hl, Hcase.
      rewrite decide_True; [reflexivity|]. split; [exact Hel|reflexivity]. }
    split; [|split; [exact Hget|]].
    + destruct els as [|el els]; [contradiction|]. unfold getAttr.
      rewrite Hget by (apply elem_of_cons; left; reflexivity). reflexivity.
    + intros el p H. rewrite Hl. rewrite decide_False; [reflexivity|].
      intros [H1 H2]. destruct H; contradiction.
  - intros Hv. destruct els as [|el els]; [contradiction|].
    cbn [setAttr]. unfold setAttribute. rewrite Hv. reflexivity.
  - reflexivity.
Qed.

Lemma setAttr_then_getAttr_example :
  (true = true ->
   exists a',
     setAttr (fun _ => true) "Data-Id" "7" [3; 5]%nat ∅ = Some a' /\
     getAttr "data-id" [3; 5]%nat a' = "7" /\
     (forall el, el ∈ [3; 5]%nat -> getAttribute a' el "data-id" = Some "7") /\
     (forall el p, el ∉ [3; 5]%nat \/ p <> toLowerCase "Data-Id" ->
                   a' !! (el, p) = (∅ : gmap (node * string) string) !! (el, p))) /\
  (true = false ->
   setAttr (fun _ => true) "Data-Id" "7" [3; 5]%nat ∅ = None) /\
  getAttr "data-id" [] ∅ = "".
Proof.
  apply (setAttr_then_getAttr (fun _ => true) "Data-Id" "data-id" "7"
           [3; 5]%nat ∅).
  - discriminate.
  - reflexivity.
Defined.

Lemma split_token (tok : chars) :
  forallb (fun c => negb (is_space c)) tok = true ->
  forall cur rest,
    split_spaces cur false (tok ++ rest)
    = split_spaces (rev tok ++ cur) false rest.
Proof.
  induction tok as [|c tok IH]; intros H cur rest; [reflexivity|].
  cbn [forallb] in H. apply andb_prop in H as [Hc H].
  apply negb_true_iff in Hc. cbn [app split_spaces]. rewrite Hc.
  rewrite (IH H). cbn [rev]. rewrite <- app_assoc. reflexivity.
Qed.

Lemma split_first_token (tok : chars) (gap : bool) (rest : chars) :
  tok <> [] -> forallb (fun c => negb (is_space c)) tok = true ->
  split_spaces [] gap (tok ++ rest) = split_spaces (rev tok) false rest.
Proof.
  destruct tok as [|c tok]; [contradiction|]. intros _ H.
  cbn [forallb] in H. apply andb_prop in H as [Hc H].
  apply negb_true_iff in Hc. cbn [app split_spaces]. rewrite Hc.
  rewrite (split_token tok H). cbn [rev]. reflexivity.
Qed.

Lemma list_of_app (s1 s2 : string) :
  list_ascii_of_string (s1 ++ s2)
  = list_ascii_of_string s1 ++ list_ascii_of_string s2.
Proof.
  induction s1 as [|c s1 IH]; [reflexivity|].
  simpl. rewrite IH. reflexivity.
Qed.

Lemma split_names (names : list string) (gap : bool) :
  names <> [] -> Forall event_name names ->
  split_spaces [] gap (list_ascii_of_string (String.concat " " names))
  = names.
Proof.
  intros Hne Hall. revert gap.
  induction Hall as [|n ns [Hn Hok] Hns IH]; [contradiction|]. intros gap.
  assert (Hnil : list_ascii_of_string n <> []).
  { destruct n; [contradiction|discriminate]. }
  destruct ns as [|n2 ns].
  - cbn [String.concat].
    rewrite <- (app_nil_r (list_ascii_of_string n)).
    rewrite (split_first_token _ gap [] Hnil Hok). cbn [split_spaces].
    rewrite rev_involutive. unfold str.
    rewrite string_of_list_ascii_of_string. reflexivity.
  - change (String.concat " " (n :: n2 :: ns))
      with (n ++ " " ++ String.concat " " (n2 :: ns))%string.
    rewrite !list_of_app.
    rewrite (split_first_token _ gap _ Hnil Hok).
    cbn [list_ascii_of_string app split_spaces].
    change (is_space " "%char) with true. cbv beta iota.
    rewrite rev_involutive. unfold str at 1.
    rewrite string_of_list_ascii_of_string. f_equal.
    apply IH. discriminate.
Qed.

(** X29.  For event names that are not empty and hold no white space,
    written one after the other with a space between them, [on] with a
    handler binds on every selected element one listener for every name,
    in the order of the selection and of the names; with a selector and a
    handler it binds as many, each delegating from the element it is bound
    to. *)
Theorem on_binds_every_name (names : list string) (els : list node)
    (selector : string) (handler : nat) :
  names <> [] -> Forall event_name names ->
  on (String.concat " " names) (OnHandler handler) els
  = flat_map
      (fun el =>
         map (fun event => {| b_el := el; b_event := event;
                              b_listener := Direct handler |}) names)
      els /\
  on (String.concat " " names) (OnSelector selector handler) els
  = flat_map
      (fun el =>
         map (fun event => {| b_el := el; b_event := event;
                              b_listener := Delegated el selector handler |})
           names)
      els.
Proof.
  intros Hne Hall. unfold on, split.
  rewrite (split_names names false Hne Hall). split; reflexivity.
Qed.

Lemma on_binds_every_name_example :
  on "click keyup" (OnHandler 9) [3; 5]%nat
  = [ {| b_el := 3%nat; b_event := "click"; b_listener := Direct 9 |};
      {| b_el := 3%nat; b_event := "keyup"; b_listener := Direct 9 |};
      {| b_el := 5%nat; b_event := "click"; b_listener := Direct 9 |};
      {| b_el := 5%nat; b_event := "keyup"; b_listener := Direct 9 |} ].
Proof.
  refine (proj1 (on_binds_every_name ["click"; "keyup"] [3; 5]%nat "li" 9
                   _ _)).
  - discriminate.
  - constructor; [split; [discriminate|reflexivity]|].
    constructor; [split; [discriminate|reflexivity]|constructor].
Defined.

(** X30.  A colour that the resolver of the earlier revision resolves has
    exactly three components, whatever the canvas reads back, the names of
    the members of [Object.prototype] apart. *)
Theorem legacy_parseColor_three_components (cv : Canvas) (color : string)
    (res : list jsnum) :
  inherited (fillStyle cv color) = false ->
  Legacy.parseColor cv color = Some res -> length res = 3%nat.
Proof.
  intros _. unfold Legacy.parseColor.
  destruct (negb (getContext2d cv)); [discriminate|].
  destruct (match_rgb (fillStyle cv color)) as [[[m1 m2] m3]|];
    [intros [= <-]; reflexivity|].
  destruct (match_rgba (fillStyle cv color)) as [[[[m1 m2] m3] m4]|];
    [intros [= <-]; reflexivity|].
  destruct (match_hex (fillStyle cv color)) as [m0|];
    [intros [= <-]; reflexivity|].
  destruct (Legacy.match_oklch (fillStyle cv color)) as [[[m1 m2] m3]|];
    [intros [= <-]; reflexivity|].
  unfold Legacy.colorNames. cbn [assoc].
  repeat match goal with
         | |- context [String.eqb ?a ?b] => destruct (String.eqb a b)
         end;
    intros [= <-]; reflexivity.
Qed.

Lemma legacy_parseColor_three_components_example :
  length [JNum 255; JNum 0; JNum 0] = 3%nat.
Proof.
  apply (legacy_parseColor_three_components Texts.echo "red");
    reflexivity.
Defined.

End AttributesAndNames.
